(** * The traffic-fork engine of lifion/traffic-fork (package forktraffic)

    A shallow embedding of [src/forktraffic/forktraffic.go] and of the ping
    manager appended to [src/redirector.go], with the properties of the
    engine stated and proved against it.

    Conventions of the embedding.
    - A Go [string] is a sequence of bytes: Rocq's [string] (one [ascii] per
      byte).  [len(s)] is [String.length s], [s[:n]] is [substring 0 n s].
    - A Go [int]/[int64] is a [Z]; lengths and slice positions are [nat].
      Wrap-around is written out where the code can reach it.
    - A [time.Time] is represented by its [UnixNano()] reading.
    - A run-time panic is [None] in the option monad.
    - Random draws and clock readings are inputs of the functions that
      consume them.
    - Functions of Go's standard library whose behaviour depends on Unicode
      tables or on parsers ([strings.EqualFold], [strings.TrimSpace],
      [time.Parse], [http.NewRequest], [textproto.CanonicalMIMEHeaderKey])
      are the methods of the class [GoLib]; every theorem holds for any
      implementation of them. *)

From Stdlib Require Import ZArith String Ascii List Lia ZifyNat.
From stdpp Require Import base option list gmap strings.

Local Open Scope string_scope.
Local Open Scope list_scope.
Local Open Scope Z_scope.

(** ** Library functions the engine calls *)

Class GoLib := {
  (** [strings.EqualFold s t] *)
  EqualFold : string -> string -> bool;
  (** [strings.TrimSpace s] *)
  TrimSpace : string -> string;
  (** [time.Parse(time.RFC1123, s)]: the [UnixNano] reading of the parsed
      time, [None] when [err != nil] *)
  time_Parse_RFC1123 : string -> option Z;
  (** whether [http.NewRequest(method, urlStr, body)] returns [err == nil] *)
  http_NewRequest_ok : string -> string -> bool;
  (** [textproto.CanonicalMIMEHeaderKey s], used by [Header.Set]/[Add] *)
  CanonicalMIMEHeaderKey : string -> string
}.

(** ** Bytes and strings *)

(** [byte(n)] for [0 <= n < 256]. *)
Definition byte_of_Z (n : Z) : ascii := ascii_of_N (Z.to_N n).

(** [b[i] = c] on the bytes of [s]; positions out of range are the caller's
    business (Go panics there), here they leave [s] as it is. *)
Fixpoint setByte (i : nat) (c : ascii) (s : string) : string :=
  match s with
  | EmptyString => EmptyString
  | String a s' =>
      match i with
      | O => String c s'
      | S i' => String a (setByte i' c s')
      end
  end.

(** [len(s)] as a Go [int]. *)
Definition len (s : string) : Z := Z.of_nat (String.length s).

(** ** extend time *)

(** [func UnixMs(t time.Time) int64 { return t.UnixNano() / 1000000 }];
    Go's integer division truncates towards zero. *)
Definition UnixMs (t : Z) : Z := Z.quot t 1000000.

(** ** extend random *)

(** [func randInt(maxRand int) int]: [rand.Int(rand.Reader, max)] panics when
    [max <= 0] and otherwise returns a value of [[0, max)]; [draw] is the
    entropy read from [rand.Reader]. *)
Definition randInt (maxRand : Z) (draw : Z) : option Z :=
  if maxRand <=? 0 then None else Some (draw mod maxRand).

(** ** morf the request URI *)

(** The guard of [morfUri]:
    [l > len(morfUriBase) && req.URL.Path[:len(morfUriBase)] == morfUriBase]. *)
Definition morfUriApplies (path morfUriBase : string) : bool :=
  (len morfUriBase <? len path) &&
  String.eqb (substring 0 (String.length morfUriBase) path) morfUriBase.

(** [func morfUri(req *http.Request, morfUriBase string)], on [req.URL.Path].
    [dCh] and [dByte] are the two random draws. *)
Definition morfUri (path morfUriBase : string) (dCh dByte : Z) : option string :=
  let l := len path in
  if morfUriApplies path morfUriBase then
    iCh ← randInt (l - len morfUriBase) dCh;
    r ← randInt 256 dByte;
    Some (setByte (Z.to_nat (len morfUriBase + iCh)) (byte_of_Z r) path)
  else Some path.

(** ** http.Header *)

(** [type Header map[string][]string].  The entries are listed in the order
    in which a [range] loop visits them (Go leaves that order open); keys are
    expected to be distinct. *)
Abbreviation Header := (list (string * list string)).

(** [h[key]] *)
Fixpoint header_get (h : Header) (key : string) : option (list string) :=
  match h with
  | [] => None
  | (k, vs) :: h' => if String.eqb k key then Some vs else header_get h' key
  end.

(** [h[key] = vs] *)
Fixpoint header_put (h : Header) (key : string) (vs : list string) : Header :=
  match h with
  | [] => [(key, vs)]
  | (k, vs') :: h' =>
      if String.eqb k key then (k, vs) :: h' else (k, vs') :: header_put h' key vs
  end.

Section HeaderMethods.
Context `{GoLib}.

(** [func (h Header) Set(key, value string)] *)
Definition Header_Set (h : Header) (key value : string) : Header :=
  header_put h (CanonicalMIMEHeaderKey key) [value].

(** [func (h Header) Add(key, value string)] *)
Definition Header_Add (h : Header) (key value : string) : Header :=
  let k := CanonicalMIMEHeaderKey key in
  header_put h k (default [] (header_get h k) ++ [value])%list.

(** ** morf a request header *)

(** The body of [for iv := range vals] in [morfHeader], from position [iv]
    on; [iVals] is the position drawn for the value to change. *)
Fixpoint morfValues (key : string) (vals : list string) (iv : nat) (iVals : Z)
    (dVal dByte : Z) (hdr : Header) : option Header :=
  match vals with
  | [] => Some hdr
  | val :: rest =>
      val' ← (if Z.of_nat iv =? iVals then
                iVal ← randInt (len val) dVal;
                r ← randInt 256 dByte;
                Some (setByte (Z.to_nat iVal) (byte_of_Z r) val)
              else Some val);
      let hdr' := if Nat.eqb iv 0 then Header_Set hdr key val'
                  else Header_Add hdr key val' in
      morfValues key rest (S iv) iVals dVal dByte hdr'
  end.

(** The loop [for key, vals := range req.Header] of [morfHeader], counting
    [iHdr] down to the header to change. *)
Fixpoint morfHeaderRange (entries : Header) (iHdr : Z) (dVals dVal dByte : Z)
    (hdr : Header) : option Header :=
  match entries with
  | [] => Some hdr
  | (key, vals) :: rest =>
      if iHdr =? 0 then
        iVals ← randInt (Z.of_nat (length vals)) dVals;
        morfValues key vals 0 iVals dVal dByte hdr
      else morfHeaderRange rest (iHdr - 1) dVals dVal dByte hdr
  end.

(** [func morfHeader(req *http.Request)], on [req.Header]; the four draws are
    those of the four calls of [randInt], in program order. *)
Definition morfHeader (hdr : Header) (dHdr dVals dVal dByte : Z) : option Header :=
  iHdr ← randInt (Z.of_nat (length hdr)) dHdr;
  morfHeaderRange hdr iHdr dVals dVal dByte hdr.

End HeaderMethods.

(** The header value that [morfHeader] picks for the change: the value at
    the drawn position of the header at the drawn position, if there is
    one. *)
Definition selectedValue (hdr : Header) (dHdr dVals : Z) : option string :=
  '(_, vals) ← hdr !! Z.to_nat (dHdr mod Z.of_nat (length hdr));
  vals !! Z.to_nat (dVals mod Z.of_nat (length vals)).

(** ** Data model *)

(** [http.Cookie], with the fields the engine reads. *)
Module Cookie.
Record t := mk {
  Name : string;
  Value : string;
  Expires : Z;   (* time.Time, as its UnixNano reading *)
  MaxAge : Z
}.
(** [cc.Value = v] *)
Definition setValue (v : string) (cc : t) : t :=
  mk (Name cc) v (Expires cc) (MaxAge cc).
End Cookie.

(** [url.URL], with the fields the engine reads or writes. *)
Module URL.
Record t := mk {
  Scheme : string;
  Host : string;
  Path : string;
  RawQuery : string
}.
(** [u.Path = p] *)
Definition setPath (p : string) (u : t) : t :=
  mk (Scheme u) (Host u) p (RawQuery u).
End URL.

(** A [*url.URL]: either the manager's [UrlStaging] object, which every
    holder of the pointer shares, or a URL object of the request's own. *)
Inductive urlPtr :=
| UrlStagingPtr
| OwnUrl (u : URL.t).

(** [http.Request].  [Cookies] is what [req.Cookies()] returns and what
    [req.AddCookie] appends to; [Header] holds the other header lines (and,
    on an inbound request, the raw [Cookie] lines as well). *)
Module Request.
Record t := mk {
  Method : string;
  URL : urlPtr;
  Host : string;
  Header : Header;
  Cookies : list Cookie.t;
  Body : option string
}.
End Request.

(** [http.Response]: the status code and [resp.Cookies()]. *)
Module Response.
Record t := mk {
  StatusCode : Z;
  Cookies : list Cookie.t
}.
End Response.

(** [type TestOptions struct] *)
Record TestOptions := {
  MorfUri : bool;
  MorfHeader : bool;
  MorfUriBase : string
}.

(** [type StagKeys struct]: staging data to replace production keys. *)
Module StagKeys.
Record t := mk {
  sessionKey : string;
  sessionTtl : string;
  csrfToken : string;
  Expiration : Z
}.
(** [new(StagKeys)] *)
Definition zero : t := mk "" "" "" 0.
Definition set_sessionKey (v : string) (k : t) : t :=
  mk v (sessionTtl k) (csrfToken k) (Expiration k).
Definition set_sessionTtl (v : string) (k : t) : t :=
  mk (sessionKey k) v (csrfToken k) (Expiration k).
Definition set_csrfToken (v : string) (k : t) : t :=
  mk (sessionKey k) (sessionTtl k) v (Expiration k).
Definition set_Expiration (v : Z) (k : t) : t :=
  mk (sessionKey k) (sessionTtl k) (csrfToken k) v.
End StagKeys.

(** [type tokenExpiration struct]: an element of the expiration heap.  The
    elements of the queue are never [nil], and [index] is a position of the
    queue ([Pop], which alone writes [-1] there, is given to [heap.Interface]
    but never called). *)
Record tokenExpiration := mkTokenExpiration {
  time : Z;       (* time of expiration *)
  token : string; (* token string *)
  index : nat     (* maintained by the heap.Interface methods *)
}.

(** [type tokenExpirationQueue []*tokenExpiration] *)
Abbreviation tokenExpirationQueue := (list tokenExpiration).

(** [type PendingRequest struct]: queued request to send to staging. *)
Module PendingRequest.
Record t := mk {
  req : Request.t;
  body : option string;
  requestKey : string;
  sessionKey : string;
  keyExpires : Z
}.
End PendingRequest.

(** [ping.Manger]: ping data. *)
Module Manger.
Record t := mk {
  ServiceName : string;
  StatusOk : bool
}.
(** [func (pm *Manger) Get() bool] *)
Definition Get (pm : t) : bool := StatusOk pm.
(** [func (pm *Manger) Set(ok bool)] ([Set] is a keyword here) *)
Definition Set_ (ok : bool) (pm : t) : t := mk (ServiceName pm) ok.
End Manger.

(** [chan *PendingRequest] with a buffer: the queued elements, oldest first,
    and the capacity given to [make]. *)
Record chan := mkChan {
  chanBuf : list PendingRequest.t;
  chanCap : nat
}.

(** [type RequestManager struct], without the two transports. *)
Record RequestManager := mkRequestManager {
  UrlProduction : URL.t;
  UrlStaging : URL.t;
  pingManager : Manger.t;
  testOptions : TestOptions;
  cacheId : Z;
  forwardPrefix : string;
  CacheData : gmap string StagKeys.t;
  tokensExpirationList : tokenExpirationQueue;
  PendingRequests : chan
}.

Definition set_UrlStaging (u : URL.t) (m : RequestManager) : RequestManager :=
  mkRequestManager (UrlProduction m) u (pingManager m) (testOptions m)
    (cacheId m) (forwardPrefix m) (CacheData m) (tokensExpirationList m)
    (PendingRequests m).
Definition set_pingManager (pm : Manger.t) (m : RequestManager) : RequestManager :=
  mkRequestManager (UrlProduction m) (UrlStaging m) pm (testOptions m)
    (cacheId m) (forwardPrefix m) (CacheData m) (tokensExpirationList m)
    (PendingRequests m).
Definition set_cacheId (id : Z) (m : RequestManager) : RequestManager :=
  mkRequestManager (UrlProduction m) (UrlStaging m) (pingManager m) (testOptions m)
    id (forwardPrefix m) (CacheData m) (tokensExpirationList m)
    (PendingRequests m).
Definition set_forwardPrefix (p : string) (m : RequestManager) : RequestManager :=
  mkRequestManager (UrlProduction m) (UrlStaging m) (pingManager m) (testOptions m)
    (cacheId m) p (CacheData m) (tokensExpirationList m)
    (PendingRequests m).
Definition set_CacheData (c : gmap string StagKeys.t) (m : RequestManager) : RequestManager :=
  mkRequestManager (UrlProduction m) (UrlStaging m) (pingManager m) (testOptions m)
    (cacheId m) (forwardPrefix m) c (tokensExpirationList m)
    (PendingRequests m).
Definition set_tokensExpirationList (q : tokenExpirationQueue) (m : RequestManager) : RequestManager :=
  mkRequestManager (UrlProduction m) (UrlStaging m) (pingManager m) (testOptions m)
    (cacheId m) (forwardPrefix m) (CacheData m) q
    (PendingRequests m).
Definition set_PendingRequests (c : chan) (m : RequestManager) : RequestManager :=
  mkRequestManager (UrlProduction m) (UrlStaging m) (pingManager m) (testOptions m)
    (cacheId m) (forwardPrefix m) (CacheData m) (tokensExpirationList m)
    c.

(** What a [*url.URL] points to, in the state [m]. *)
Definition deref (m : RequestManager) (p : urlPtr) : URL.t :=
  match p with
  | UrlStagingPtr => UrlStaging m
  | OwnUrl u => u
  end.

(** ** The expiration heap *)

(** *** required by heap for priority-queue implementation *)

(** [func (teq *tokenExpirationQueue) Less(i, j int) bool]; the heap calls it
    with positions of the queue only. *)
Definition Less (teq : tokenExpirationQueue) (i j : nat) : bool :=
  match teq !! i, teq !! j with
  | Some a, Some b => time a <? time b
  | _, _ => false
  end.

Definition set_index (i : nat) (x : tokenExpiration) : tokenExpiration :=
  mkTokenExpiration (time x) (token x) i.

(** [func (teq *tokenExpirationQueue) Swap(i, j int)] *)
Definition Swap (teq : tokenExpirationQueue) (i j : nat) : tokenExpirationQueue :=
  match teq !! i, teq !! j with
  | Some a, Some b => <[j := set_index j a]> (<[i := set_index i b]> teq)
  | _, _ => teq
  end.

(** [func (teq *tokenExpirationQueue) Push(x interface{})] *)
Definition Push (teq : tokenExpirationQueue) (x : tokenExpiration) : tokenExpirationQueue :=
  (teq ++ [set_index (length teq) x])%list.

(** *** container/heap *)

(** The loop of [heap.up]; [j] decreases at every turn, so [S j] turns are
    enough ([up_go_fuel]). *)
Fixpoint up_go (fuel : nat) (h : tokenExpirationQueue) (j : nat) : tokenExpirationQueue :=
  match fuel with
  | O => h
  | S fuel' =>
      let i := ((j - 1) / 2)%nat in (* parent *)
      if Nat.eqb i j || negb (Less h j i) then h
      else up_go fuel' (Swap h i j) i
  end.

(** [func up(h Interface, j int)] *)
Definition up (h : tokenExpirationQueue) (j : nat) : tokenExpirationQueue :=
  up_go (S j) h j.

(** The loop of [heap.down], returning the heap and the final position;
    [i] increases at every turn and stays below [n], so [n] turns are
    enough ([down_go_fuel]). *)
Fixpoint down_go (fuel : nat) (h : tokenExpirationQueue) (i n : nat)
    : tokenExpirationQueue * nat :=
  match fuel with
  | O => (h, i)
  | S fuel' =>
      let j1 := (2 * i + 1)%nat in
      if (n <=? j1)%nat then (h, i)
      else
        let j := if ((j1 + 1 <? n)%nat && Less h (j1 + 1) j1) then (j1 + 1)%nat else j1 in
        if negb (Less h j i) then (h, i)
        else down_go fuel' (Swap h i j) j n
  end.

(** [func down(h Interface, i0, n int) bool] *)
Definition down (h : tokenExpirationQueue) (i0 n : nat) : tokenExpirationQueue * bool :=
  let '(h', i) := down_go n h i0 n in (h', (i0 <? i)%nat).

(** [func Init(h Interface)]: [down] at the positions [k-1], ..., [0]. *)
Fixpoint heap_Init_from (k : nat) (h : tokenExpirationQueue) : tokenExpirationQueue :=
  match k with
  | O => h
  | S k' => heap_Init_from k' (fst (down h k' (length h)))
  end.
Definition heap_Init (h : tokenExpirationQueue) : tokenExpirationQueue :=
  heap_Init_from (length h / 2) h.

(** [func Push(h Interface, x any)] *)
Definition heap_Push (h : tokenExpirationQueue) (x : tokenExpiration) : tokenExpirationQueue :=
  let h' := Push h x in up h' (length h' - 1).

(** [func Fix(h Interface, i int)].  When [down] has not moved the element,
    [up] reads position [i]; beyond the queue that is a panic, except at
    [i = 0] where [up] stops before reading. *)
Definition heap_Fix (h : tokenExpirationQueue) (i : nat) : option tokenExpirationQueue :=
  let '(h', moved) := down h i (length h) in
  if moved then Some h'
  else if (i <? length h)%nat || Nat.eqb i 0 then Some (up h' i)
  else None.

(** [func (teq *tokenExpirationQueue) update(item *tokenExpiration, token
    string, time int64)], for the [item] found at position [pos] of the
    queue. *)
Definition update (teq : tokenExpirationQueue) (pos : nat) (tok : string) (tm : Z)
    : option tokenExpirationQueue :=
  item ← teq !! pos;
  heap_Fix (<[pos := mkTokenExpiration tm tok (index item)]> teq) (index item).

(** *** What the heap is to keep *)

(** The time at position [k] (0 beyond the queue). *)
Definition timeAt (h : tokenExpirationQueue) (k : nat) : Z :=
  from_option time 0 (h !! k).

(** Min-heap order: no element is earlier than its parent. *)
Definition heapOrdered (h : tokenExpirationQueue) : Prop :=
  forall j : nat, (0 < j < length h)%nat -> timeAt h ((j - 1) / 2) <= timeAt h j.

(** Every element knows its position. *)
Definition indexed (h : tokenExpirationQueue) : Prop :=
  forall (k : nat) (x : tokenExpiration), h !! k = Some x -> index x = k.

(** The (time, token) pairs of the queue, whatever their positions. *)
Definition entries (h : tokenExpirationQueue) : list (Z * string) :=
  (fun x => (time x, token x)) <$> h.

(** In order, except that the element at [i] may be later than its
    children (the state in which [down] is called at [i]). *)
Definition orderedButBelow (h : tokenExpirationQueue) (i : nat) : Prop :=
  (forall j : nat, (0 < j < length h)%nat -> ((j - 1) / 2)%nat <> i ->
     timeAt h ((j - 1) / 2) <= timeAt h j) /\
  (forall j : nat, (0 < j < length h)%nat -> ((j - 1) / 2)%nat = i -> (0 < i)%nat ->
     timeAt h ((i - 1) / 2) <= timeAt h j).

(** In order, except that the element at [k] may be earlier than its parent
    (the state in which [up] is called at [k]). *)
Definition orderedButAbove (h : tokenExpirationQueue) (k : nat) : Prop :=
  (forall j : nat, (0 < j < length h)%nat -> j <> k ->
     timeAt h ((j - 1) / 2) <= timeAt h j) /\
  (forall j : nat, (0 < j < length h)%nat -> ((j - 1) / 2)%nat = k -> (0 < k)%nat ->
     timeAt h ((k - 1) / 2) <= timeAt h j).

(** ** The engine *)

Definition httpNameHeader : string := "Http-Splitter".
Definition httpForwardedHeader : string := "X-Forwarded-By".
Definition httpDuplicateHeader : string := "X-Duplicate-By".
Definition DefaultMorfUriBase : string := "/api/".

Section Engine.
Context `{GoLib}.

(** *** cache the response keys *)

(** One turn of [for _, cc := range resp.Cookies()] in [cacheResponse], on
    [(stagKey, stagKeyExpiration, stagKeyMaxAge)]. *)
Definition scanCookie (acc : StagKeys.t * Z * Z) (cc : Cookie.t) : StagKeys.t * Z * Z :=
  let '(stagKey, stagKeyExpiration, stagKeyMaxAge) := acc in
  if EqualFold (Cookie.Name cc) "csrfToken" then
    (StagKeys.set_csrfToken (Cookie.Value cc) stagKey, stagKeyExpiration, stagKeyMaxAge)
  else if EqualFold (Cookie.Name cc) "sessionKey" then
    (StagKeys.set_sessionKey (Cookie.Value cc) stagKey,
     UnixMs (Cookie.Expires cc), Cookie.MaxAge cc)
  else if EqualFold (Cookie.Name cc) "sessionTtl" then
    (StagKeys.set_sessionTtl (Cookie.Value cc) stagKey, stagKeyExpiration, stagKeyMaxAge)
  else acc.

(** The whole loop, from [stagKeyExpiration = 0] and [stagKeyMaxAge = 0]. *)
Definition scanCookies (stagKey : StagKeys.t) (cookies : list Cookie.t)
    : StagKeys.t * Z * Z :=
  fold_left scanCookie cookies (stagKey, 0, 0).

(** "check for a token expiration"; [now] is the reading of [time.Now()]
    taken in the second branch. *)
Definition checkExpiration (stagKey : StagKeys.t) (prodKeyExpiration now : Z)
    : StagKeys.t :=
  if negb (prodKeyExpiration =? 0) &&
     negb (StagKeys.Expiration stagKey =? prodKeyExpiration) then
    StagKeys.set_Expiration prodKeyExpiration stagKey
  else if StagKeys.Expiration stagKey =? 0 then
    StagKeys.set_Expiration (UnixMs now + 60 * 20000) stagKey
  else stagKey.

(** "logout, delete the session":
    [stagKey.sessionKey == "" && !(stagKeyExpiration > tNow || stagKeyMaxAge > 0)]. *)
Definition isLogout (stagKey : StagKeys.t) (stagKeyExpiration stagKeyMaxAge tNow : Z)
    : bool :=
  String.eqb (StagKeys.sessionKey stagKey) "" &&
  negb ((tNow <? stagKeyExpiration) || (0 <? stagKeyMaxAge)).

(** "can we reuse old token?": the flag [reUseItem] and the queue after the
    root has been put back in its place, if that was called for.  [cache] is
    [reqMgr.CacheData], with the new key already in it. *)
Definition canReuse (cache : gmap string StagKeys.t) (teq : tokenExpirationQueue)
    (prodSessionKey : string) (tNow : Z) : option (bool * tokenExpirationQueue) :=
  match teq with
  | [] => Some (false, teq)
  | item :: _ =>
      if String.eqb (token item) prodSessionKey then Some (true, teq)
      else if time item <=? tNow then
        match cache !! token item with
        | None => Some (true, teq) (* item expired *)
        | Some firstKey =>
            if StagKeys.Expiration firstKey <=? tNow then Some (true, teq)
            else
              (* fix the first item, put it back in its new place *)
              teq' ← update teq 0 (token item) (StagKeys.Expiration firstKey);
              Some (false, teq')
        end
      else Some (false, teq)
  end.

(** "this is a new key, add it to the ... expiration priority queue" *)
Definition addExpiration (cache : gmap string StagKeys.t) (teq : tokenExpirationQueue)
    (prodSessionKey : string) (prodKeyExpiration tNow : Z)
    : option tokenExpirationQueue :=
  let listItem := mkTokenExpiration prodKeyExpiration prodSessionKey 0 in
  '(reUseItem, teq1) ← canReuse cache teq prodSessionKey tNow;
  if reUseItem : bool then
    (* reuse the first item in the expiration list *)
    update teq1 0 prodSessionKey prodKeyExpiration
  else
    (* add a new item to the expiration list *)
    Some (heap_Push teq1 listItem).

(** [func (reqMgr *RequestManager) cacheResponse(prodSessionKey string, resp
    *http.Response, prodKeyExpiration int64)].  [now1] and [now2] are the two
    readings of [time.Now()], in program order.  An entry found in the cache
    is changed through its pointer, so the changes are in the cache whether
    or not the key is new. *)
Definition cacheResponse (reqMgr : RequestManager) (prodSessionKey : string)
    (resp : Response.t) (prodKeyExpiration : Z) (now1 now2 : Z)
    : option RequestManager :=
  if String.eqb prodSessionKey "" || (400 <=? Response.StatusCode resp) then
    Some reqMgr
  else
    (* find our key *)
    let '(newKey, stagKey0) :=
      match CacheData reqMgr !! prodSessionKey with
      | Some k => (false, k)
      | None => (true, StagKeys.zero)
      end in
    (* check if this is a staging response *)
    let '(stagKey1, stagKeyExpiration, stagKeyMaxAge) :=
      scanCookies stagKey0 (Response.Cookies resp) in
    (* check for a token expiration *)
    let stagKey := checkExpiration stagKey1 prodKeyExpiration now1 in
    (* logout, delete the session *)
    let tNow := UnixMs now2 in
    if isLogout stagKey stagKeyExpiration stagKeyMaxAge tNow then
      Some (set_CacheData (delete prodSessionKey (CacheData reqMgr)) reqMgr)
    else
      let cache := <[prodSessionKey := stagKey]> (CacheData reqMgr) in
      if newKey : bool then
        teq ← addExpiration cache (tokensExpirationList reqMgr)
                 prodSessionKey prodKeyExpiration tNow;
        Some (set_tokensExpirationList teq (set_CacheData cache reqMgr))
      else Some (set_CacheData cache reqMgr).

End Engine.

(** ** Queueing and forwarding *)

(** [strings.Split(s, sep)] for a separator of one byte. *)
Fixpoint Split (s : string) (sep : ascii) : list string :=
  match s with
  | EmptyString => [EmptyString]
  | String a s' =>
      if Ascii.eqb a sep then EmptyString :: Split s' sep
      else match Split s' sep with
           | tok :: toks => String a tok :: toks
           | [] => [String a EmptyString]
           end
  end.

(** [s[n:]]; a panic when [n > len(s)]. *)
Definition sliceFrom (n : nat) (s : string) : option string :=
  if (n <=? String.length s)%nat then Some (substring n (String.length s - n) s)
  else None.

(** The result of [sendStaging]: the call returns, or it waits at the
    receive from the empty channel, or at the send into the full channel
    (until another goroutine sends or receives).  [logged] holds the lines
    written to the log. *)
Inductive sendStagingResult :=
| Enqueued (reqMgr : RequestManager) (logged : list string)
| BlockedOnReceive (reqMgr : RequestManager)
| BlockedOnSend (reqMgr : RequestManager) (logged : list string).

(** [reqMgr.PendingRequests <- sendReq], when there is room. *)
Definition chanSend (c : chan) (x : PendingRequest.t) : option chan :=
  if (length (chanBuf c) <? chanCap c)%nat then Some (mkChan (chanBuf c ++ [x])%list (chanCap c))
  else None.

(** [<-reqMgr.PendingRequests], when there is an element. *)
Definition chanRecv (c : chan) : option (PendingRequest.t * chan) :=
  match chanBuf c with
  | [] => None
  | x :: rest => Some (x, mkChan rest (chanCap c))
  end.

(** [wrap64 z]: the [int64] that [z] wraps to. *)
Definition wrap64 (z : Z) : Z := (z + 2 ^ 63) mod 2 ^ 64 - 2 ^ 63.

(** The digits of [strconv]. *)
Definition digits : string := "0123456789abcdefghijklmnopqrstuvwxyz".
Definition digit (d : Z) : ascii :=
  default "0"%char (String.get (Z.to_nat d) digits).

(** The digits of [u] in [base], most significant first, before [acc]; a
    [uint64] has at most 64 of them. *)
Fixpoint formatBits (fuel : nat) (u base : Z) (acc : string) : string :=
  match fuel with
  | O => acc
  | S fuel' =>
      let acc' := String (digit (u mod base)) acc in
      if u <? base then acc' else formatBits fuel' (u / base) base acc'
  end.

(** [strconv.FormatUint(i, base)], for [0 <= i < 2^64] and [2 <= base <= 36] *)
Definition FormatUint (i : Z) (base : Z) : string := formatBits 64 i base "".

(** [strconv.FormatInt(i, base)] *)
Definition FormatInt (i : Z) (base : Z) : string :=
  if i <? 0 then String "-"%char (FormatUint (- i) base) else FormatUint i base.

Section Forwarder.
Context `{GoLib}.

(** The search for [Expires=] in [tokens[1:]] of [getRespSessionKey]:
    the expiration of the first attribute that parses. *)
Fixpoint findExpires (tokens : list string) : option Z :=
  match tokens with
  | [] => None
  | tok :: rest =>
      let token := TrimSpace tok in
      if (8 <=? len token) && EqualFold (substring 0 8 token) "Expires=" then
        match time_Parse_RFC1123 (substring 8 (String.length token - 8) token) with
        | Some timeExpires => Some (UnixMs timeExpires)
        | None => findExpires rest
        end
      else findExpires rest
  end.

(** [func getRespSessionKey(cookies []string) (string, int64)]: get session
    key from response.  [tokens[0][11:]] panics if the first token is shorter
    than 11 bytes. *)
Fixpoint getRespSessionKey (cookies : list string) : option (string * Z) :=
  match cookies with
  | [] => Some ("", 0)
  | cookie :: rest =>
      if (11 <=? len cookie) && EqualFold (substring 0 11 cookie) "sessionKey=" then
        let tokens := Split cookie ";"%char in
        prodSessionKey ← sliceFrom 11 (default "" (head tokens));
        match findExpires (tail tokens) with
        | Some prodKeyExpires => Some (prodSessionKey, prodKeyExpires)
        | None => Some (prodSessionKey, 0)
        end
      else getRespSessionKey rest
  end.

(** [func getSessionKey(cookies []*http.Cookie) (string, int64)]: get request
    sessionKey id. *)
Fixpoint getSessionKey (cookies : list Cookie.t) : string * Z :=
  match cookies with
  | [] => ("", 0)
  | cookie :: rest =>
      if EqualFold (Cookie.Name cookie) "sessionKey" then
        (Cookie.Value cookie, UnixMs (Cookie.Expires cookie))
      else getSessionKey rest
  end.

(** What [forwardHandler] does: nothing when there is no staging server, or
    it starts [sendStaging] on a pending request, or it panics. *)
Inductive forwardResult :=
| NoStaging
| Forward (sendReq : PendingRequest.t)
| ForwardPanic.

(** [func (reqMgr *RequestManager) forwardHandler(req *http.Request, respHdr
    http.Header, stagBody io.ReadCloser)]: queue the request to forward to
    the staging server. *)
Definition forwardHandler (reqMgr : RequestManager) (req : Request.t)
    (respHdr : Header) (stagBody : option string) : forwardResult :=
  if String.eqb (URL.Scheme (UrlStaging reqMgr)) "" ||
     String.eqb (URL.Host (UrlStaging reqMgr)) "" then NoStaging
  else
    let cookies := default [] (header_get respHdr "Set-Cookie") in
    match getRespSessionKey cookies with
    | None => ForwardPanic
    | Some (updateSessionKey, updateKeyExpires) =>
        let '(prodSessionKey, _) := getSessionKey (Request.Cookies req) in
        Forward (PendingRequest.mk req stagBody prodSessionKey
                   updateSessionKey updateKeyExpires)
    end.

(** [func (reqMgr *RequestManager) sendStaging(sendReq *PendingRequest)]:
    push the new request to the PendingRequests channel. *)
Definition sendStaging (reqMgr : RequestManager) (sendReq : PendingRequest.t)
    : sendStagingResult :=
  (* handle full queue *)
  if (length (chanBuf (PendingRequests reqMgr)) <? 100)%nat then
    let reqMgr1 := set_pingManager (Manger.Set_ false (pingManager reqMgr)) reqMgr in
    (* remove the oldest request, and add the new one *)
    match chanRecv (PendingRequests reqMgr1) with
    | None => BlockedOnReceive reqMgr1
    | Some (delReq, c) =>
        let reqMgr2 := set_PendingRequests c reqMgr1 in
        (* log the removed URI path (limit to 80 chars) *)
        let path := URL.Path (deref reqMgr2 (Request.URL (PendingRequest.req delReq))) in
        let l := String.length path in
        let l := if (80 <? l)%nat then 80%nat else l in
        let logged :=
          ["error: pending requests overflow! removing: " +:+ substring 0 l path] in
        match chanSend (PendingRequests reqMgr2) sendReq with
        | None => BlockedOnSend reqMgr2 logged
        | Some c' => Enqueued (set_PendingRequests c' reqMgr2) logged
        end
    end
  else
    let reqMgr1 := set_pingManager (Manger.Set_ true (pingManager reqMgr)) reqMgr in
    match chanSend (PendingRequests reqMgr1) sendReq with
    | None => BlockedOnSend reqMgr1 []
    | Some c' => Enqueued (set_PendingRequests c' reqMgr1) []
    end.

(** The loop over [vals] in the header copy of [buildForwardRequest]. *)
Definition copyHeaderValues (StagKeys : option StagKeys.t) (key : string)
    (vals : list string) (hdr : Header) : Header :=
  fold_left
    (fun hdr val =>
       (* replace the csrf-token with staging *)
       let val :=
         match StagKeys with
         | Some k =>
             if EqualFold key "X-Csrf-Token" && negb (String.eqb (StagKeys.csrfToken k) "")
             then StagKeys.csrfToken k else val
         | None => val
         end in
       (* add headers except cookies; these are handled in separately *)
       if negb (EqualFold key "Cookie") then Header_Add hdr key val else hdr)
    vals hdr.

(** "copy headers from production request to staging" *)
Definition copyHeaders (StagKeys : option StagKeys.t) (src hdr : Header) : Header :=
  fold_left
    (fun hdr '(key, vals) =>
       if negb (EqualFold key httpForwardedHeader)
       then copyHeaderValues StagKeys key vals hdr else hdr)
    src hdr.

(** The assignments to [cc.Value] in the cookie loop of
    [buildForwardRequest]. *)
Definition fixCookie (k : StagKeys.t) (cc : Cookie.t) : Cookie.t :=
  if EqualFold (Cookie.Name cc) "csrfToken" then Cookie.setValue (StagKeys.csrfToken k) cc
  else if EqualFold (Cookie.Name cc) "sessionKey" then Cookie.setValue (StagKeys.sessionKey k) cc
  else if EqualFold (Cookie.Name cc) "sessionTtl" then Cookie.setValue (StagKeys.sessionTtl k) cc
  else cc.

(** "fix cookies; replace production values with staging": the loop over
    [req.Cookies()], appending to the cookies of the staging request. *)
Definition fixCookies (k : StagKeys.t) (cookies added : list Cookie.t) : list Cookie.t :=
  fold_left
    (fun (added : list Cookie.t) cc =>
       let cc := fixCookie k cc in
       (* if we have a cookie value add it to the request *)
       if negb (String.eqb (Cookie.Value cc) "") then (added ++ [cc])%list else added)
    cookies added.

(** [func (reqMgr *RequestManager) buildForwardRequest(req *http.Request,
    prodSessionKey string, stagBody io.ReadCloser) *http.Request]: the
    request built ([None] for [nil]) and the manager, whose [UrlStaging]
    object the function writes to. *)
Definition buildForwardRequest (reqMgr : RequestManager) (req : Request.t)
    (prodSessionKey : string) (stagBody : option string)
    : option Request.t * RequestManager :=
  let path := URL.Path (deref reqMgr (Request.URL req)) in
  (* prepare request for staging *)
  if negb (http_NewRequest_ok (Request.Method req) path) then (None, reqMgr)
  else
    let method := if String.eqb (Request.Method req) "" then "GET" else Request.Method req in
    (* stagReq.URL = reqMgr.UrlStaging; stagReq.URL.Path = req.URL.Path *)
    let reqMgr' := set_UrlStaging (URL.setPath path (UrlStaging reqMgr)) reqMgr in
    let host := URL.Host (UrlStaging reqMgr') in
    (* copy headers from production request to staging *)
    let StagKeys := CacheData reqMgr' !! prodSessionKey in
    let hdr := copyHeaders StagKeys (Request.Header req) [] in
    (* fix cookies; replace production values with staging *)
    let cookies :=
      match StagKeys with
      | Some k => fixCookies k (Request.Cookies req) []
      | None => []
      end in
    let hdr := Header_Add hdr httpDuplicateHeader httpNameHeader in
    (Some (Request.mk method UrlStagingPtr host hdr cookies stagBody), reqMgr').

(** One turn of the loop of [StagingHandler]: the pending request taken from
    the channel, the request built for it, and the manager afterwards;
    [None] while the channel is empty (the receive waits). *)
Definition StagingHandler_turn (reqMgr : RequestManager)
    : option (PendingRequest.t * option Request.t * RequestManager) :=
  '(sendReq, c) ← chanRecv (PendingRequests reqMgr);
  let reqMgr1 := set_PendingRequests c reqMgr in
  let '(reqSend, reqMgr2) :=
    buildForwardRequest reqMgr1 (PendingRequest.req sendReq)
      (PendingRequest.requestKey sendReq) (PendingRequest.body sendReq) in
  Some (sendReq, reqSend, reqMgr2).

(** [func (reqMgr *RequestManager) sendRequest(reqSend *http.Request, sendReq
    *PendingRequest)], as far as the manager is concerned.  [doResult] is
    what [reqMgr.DestStaging.Do(reqSend)] returns: [None] for an error,
    otherwise the response.  [Do] on the [nil] request panics. *)
Definition sendRequest (reqMgr : RequestManager) (reqSend : option Request.t)
    (sendReq : PendingRequest.t) (doResult : option Response.t) (now1 now2 : Z)
    : option RequestManager :=
  match reqSend with
  | None => None
  | Some _ =>
      match doResult with
      | None => Some reqMgr (* error sending message to staging *)
      | Some resp =>
          cacheResponse reqMgr (PendingRequest.sessionKey sendReq) resp
            (PendingRequest.keyExpires sendReq) now1 now2
      end
  end.

(** *** The unique id *)

(** [func (reqMgr *RequestManager) Init()], as far as the manager is
    concerned. [i64rand] is the random integer drawn below [math.MaxInt64],
    [nowNano] is [time.Now().UnixNano()]; the sum is a [uint64] sum. *)
Definition Init (reqMgr : RequestManager) (i64rand nowNano : Z) : RequestManager :=
  let reqMgr := set_cacheId 0 reqMgr in
  let reqMgr :=
    set_forwardPrefix
      (FormatUint ((i64rand mod 2 ^ 64 + nowNano mod 2 ^ 64) mod 2 ^ 64) 16 +:+ "-")
      reqMgr in
  set_tokensExpirationList (heap_Init []) reqMgr.

(** [func (reqMgr *RequestManager) createReqId() string]: update the unique
    id.  [atomic.AddInt64] returns the new value. *)
Definition createReqId (reqMgr : RequestManager) : string * RequestManager :=
  let id := wrap64 (cacheId reqMgr + 1) in
  (forwardPrefix reqMgr +:+ FormatInt id 16, set_cacheId id reqMgr).

End Forwarder.

(** ** Reading numbers back, and runs of calls *)

(** The position of [c] among the digits. *)
Fixpoint digitIndex (c : ascii) (ds : string) : nat :=
  match ds with
  | EmptyString => O
  | String d ds' => if Ascii.eqb c d then O else S (digitIndex c ds')
  end.
Definition digitVal (c : ascii) : Z := Z.of_nat (digitIndex c digits).

(** The number that the digits of [s] denote in [base], after [acc]. *)
Fixpoint parseDigits (base acc : Z) (s : string) : Z :=
  match s with
  | EmptyString => acc
  | String c s' => parseDigits base (acc * base + digitVal c) s'
  end.

(** [n] calls of [createReqId] in a row: the ids returned, in order, and the
    manager afterwards. *)
Fixpoint createReqIds (n : nat) (reqMgr : RequestManager)
    : list string * RequestManager :=
  match n with
  | O => ([], reqMgr)
  | S n' =>
      let '(id, reqMgr1) := createReqId reqMgr in
      let '(ids, reqMgr2) := createReqIds n' reqMgr1 in
      (id :: ids, reqMgr2)
  end.

(** ** The specification's wording, where it differs from the code *)

Section SpecWording.
Context `{GoLib}.

(** The cookie rule in the words of the specification: a cookie named
    [csrfToken], [sessionKey] or [sessionTtl] takes the value the entry has
    for it if the entry has a non-empty one, and keeps its own otherwise;
    without an entry every cookie keeps its value. *)
Definition specFixCookie (entry : option StagKeys.t) (cc : Cookie.t) : Cookie.t :=
  match entry with
  | None => cc
  | Some k =>
      if EqualFold (Cookie.Name cc) "csrfToken" then
        if String.eqb (StagKeys.csrfToken k) "" then cc
        else Cookie.setValue (StagKeys.csrfToken k) cc
      else if EqualFold (Cookie.Name cc) "sessionKey" then
        if String.eqb (StagKeys.sessionKey k) "" then cc
        else Cookie.setValue (StagKeys.sessionKey k) cc
      else if EqualFold (Cookie.Name cc) "sessionTtl" then
        if String.eqb (StagKeys.sessionTtl k) "" then cc
        else Cookie.setValue (StagKeys.sessionTtl k) cc
      else cc
  end.

(** "Cookies whose resulting value is empty are dropped.  All remaining
    cookies are added to the staging request." *)
Definition specCookies (entry : option StagKeys.t) (cookies : list Cookie.t)
    : list Cookie.t :=
  filter (fun cc => Cookie.Value cc <> "") (specFixCookie entry <$> cookies).

End SpecWording.

(** The prefix in the words of the specification: "a large random integer
    XOR-combined with the current ... time, formatted in hex". *)
Definition specPrefix (i64rand nowNano : Z) : string :=
  FormatUint (Z.lxor i64rand nowNano) 16 +:+ "-".

(** ** A library for the examples *)

(** The library functions on the inputs of the examples: strings of ASCII
    letters, canonical header keys, request lines that [http.NewRequest]
    accepts, and one date. *)

Definition asciiLower (c : ascii) : ascii :=
  let n := nat_of_ascii c in
  if (65 <=? n)%nat && (n <=? 90)%nat then ascii_of_nat (n + 32) else c.

Fixpoint asciiEqualFold (s t : string) : bool :=
  match s, t with
  | EmptyString, EmptyString => true
  | String a s', String b t' =>
      Ascii.eqb (asciiLower a) (asciiLower b) && asciiEqualFold s' t'
  | _, _ => false
  end.

Fixpoint trimLeft (s : string) : string :=
  match s with
  | String a s' => if Ascii.is_space a then trimLeft s' else s
  | EmptyString => EmptyString
  end.

Definition asciiTrimSpace (s : string) : string :=
  String.rev (trimLeft (String.rev (trimLeft s))).

Definition exampleDate : string := "Thu, 01 Jan 2026 00:00:00 GMT".
Definition exampleDateNano : Z := 1767225600 * 1000000000.

Definition exampleLib : GoLib := {|
  EqualFold := asciiEqualFold;
  TrimSpace := asciiTrimSpace;
  time_Parse_RFC1123 := fun s => if String.eqb s exampleDate then Some exampleDateNano else None;
  http_NewRequest_ok := fun _ _ => true;
  CanonicalMIMEHeaderKey := fun s => s
|}.

(** ** Values for the examples *)

(** [const NumPendingRequests int = 10000] of [redirector.go]. *)
Definition NumPendingRequests : nat := Z.to_nat 10000.

(** The manager as [main] sets it up, with a staging server: the empty key
    is in the cache, the heap is empty, the channel has room for 10000. *)
Definition exampleMgr : RequestManager := {|
  UrlProduction := URL.mk "http" "router" "/" "";
  UrlStaging := URL.mk "http" "staging:8080" "/" "";
  pingManager := Manger.mk "" false;
  testOptions := {| MorfUri := false; MorfHeader := false; MorfUriBase := DefaultMorfUriBase |};
  cacheId := 0;
  forwardPrefix := "";
  CacheData := {[ "" := StagKeys.zero ]};
  tokensExpirationList := [];
  PendingRequests := mkChan [] NumPendingRequests
|}.

Definition exampleCookie (name value : string) : Cookie.t :=
  Cookie.mk name value 0 0.

(** [GET /api/x/y?page=2] with the cookies [sessionKey=PROD1; theme=dark]. *)
Definition exampleReq : Request.t := {|
  Request.Method := "GET";
  Request.URL := OwnUrl (URL.mk "" "" "/api/x/y" "page=2");
  Request.Host := "router";
  Request.Header := [("Cookie", ["sessionKey=PROD1; theme=dark"]); ("Accept", ["*/*"])];
  Request.Cookies := [exampleCookie "sessionKey" "PROD1"; exampleCookie "theme" "dark"];
  Request.Body := None
|}.

Definition examplePending : PendingRequest.t :=
  PendingRequest.mk exampleReq None "PROD1" "" 0.

(** A staging response [200] that sets [sessionKey=STG1] until the example
    date. *)
Definition exampleResp : Response.t :=
  Response.mk 200 [Cookie.mk "sessionKey" "STG1" exampleDateNano 0].

(** A staging response [200] that clears the session:
    [sessionKey=; Max-Age=0] with an [Expires] in the past. *)
Definition logoutResp : Response.t :=
  Response.mk 200 [Cookie.mk "sessionKey" "" 1000000 0].

(** The manager with a cache that knows [PROD1]. *)
Definition exampleMgrKnown : RequestManager :=
  set_CacheData (<["PROD1" := StagKeys.mk "STG1" "" "CT1" 5]> (CacheData exampleMgr))
    exampleMgr.

(** The manager with an entry for [PROD1] that has no staging session key. *)
Definition exampleMgrNoSession : RequestManager :=
  set_CacheData (<["PROD1" := StagKeys.mk "" "" "CT1" 5]> (CacheData exampleMgr))
    exampleMgr.

(** The manager with a heap whose root is the token [OLD], expired at 10. *)
Definition exampleMgrRoot : RequestManager :=
  set_tokensExpirationList [mkTokenExpiration 10 "OLD" 0] exampleMgr.

(** The manager with one request in the queue. *)
Definition exampleMgrQueued : RequestManager :=
  set_PendingRequests (mkChan [examplePending] NumPendingRequests) exampleMgr.

(** The header of a production response that sets [sessionKey=PROD2] until
    the example date, and the pending request that [forwardHandler] makes
    of it. *)
Definition exampleRespHdr : Header :=
  [("Set-Cookie", ["sessionKey=PROD2; Expires=" +:+ exampleDate])].
Definition examplePendingLogin : PendingRequest.t :=
  PendingRequest.mk exampleReq None "PROD1" "PROD2" (UnixMs exampleDateNano).

(** A clock reading one day before the example date. *)
Definition exampleNow : Z := (1767225600 - 86400) * 1000000000.

(** ** The branches of the cookie loops *)

Section CookieKinds.
Context `{GoLib}.

(** The branch that a cookie takes in the [if ... else if ...] chain of the
    cookie loops of [cacheResponse] and [buildForwardRequest]: the first of
    the three names that its name folds to. *)
Definition isCsrfCookie (cc : Cookie.t) : bool :=
  EqualFold (Cookie.Name cc) "csrfToken".
Definition isSessionCookie (cc : Cookie.t) : bool :=
  negb (isCsrfCookie cc) && EqualFold (Cookie.Name cc) "sessionKey".
Definition isTtlCookie (cc : Cookie.t) : bool :=
  negb (isCsrfCookie cc) && negb (EqualFold (Cookie.Name cc) "sessionKey") &&
  EqualFold (Cookie.Name cc) "sessionTtl".

End CookieKinds.

(** The test of [getRespSessionKey] on a [Set-Cookie] line. *)
Definition setsSessionKey `{GoLib} (cookie : string) : bool :=
  (11 <=? len cookie) && EqualFold (substring 0 11 cookie) "sessionKey=".

(** What one of [tokens[1:]] gives in the inner loop of
    [getRespSessionKey]: the expiration, when the trimmed token is at least
    8 bytes long, its first 8 bytes fold to [Expires=] and the rest parses
    as an RFC1123 time. *)
Definition expiresOf `{GoLib} (tok : string) : option Z :=
  let token := TrimSpace tok in
  if (8 <=? len token) && EqualFold (substring 0 8 token) "Expires=" then
    UnixMs <$> time_Parse_RFC1123 (substring 8 (String.length token - 8) token)
  else None.

(** The attributes [toks] as they stand in a [Set-Cookie] line, each behind
    a [;]. *)
Fixpoint attrsLine (toks : list string) : string :=
  match toks with
  | [] => ""
  | tok :: rest => String ";" (tok +:+ attrsLine rest)
  end.

(** ** Runs of calls and bytes of strings *)

(** Whether the byte [c] occurs in [s]. *)
Fixpoint hasByte (c : ascii) (s : string) : bool :=
  match s with
  | EmptyString => false
  | String a s' => Ascii.eqb a c || hasByte c s'
  end.

(** The calls [sendStaging(r)] for the requests [r] of a list, one after the
    other on one goroutine: the manager after the last call, [None] if one
    of the calls waits. *)
Fixpoint sendStagingAll (reqMgr : RequestManager) (sendReqs : list PendingRequest.t)
    : option RequestManager :=
  match sendReqs with
  | [] => Some reqMgr
  | sendReq :: rest =>
      match sendStaging reqMgr sendReq with
      | Enqueued reqMgr' _ => sendStagingAll reqMgr' rest
      | _ => None
      end
  end.

(** [n] turns of the loop of [StagingHandler]: the pending requests taken
    from the channel with the requests built for them, in the order of the
    turns, and the manager afterwards; [None] if one of the turns waits. *)
Fixpoint StagingHandler_turns `{GoLib} (n : nat) (reqMgr : RequestManager)
    : option (list (PendingRequest.t * option Request.t) * RequestManager) :=
  match n with
  | O => Some ([], reqMgr)
  | S n' =>
      '(sendReq, reqSend, reqMgr1) ← StagingHandler_turn reqMgr;
      '(built, reqMgr2) ← StagingHandler_turns n' reqMgr1;
      Some ((sendReq, reqSend) :: built, reqMgr2)
  end.

(** The states of the manager that the program can be in when its
    operations run one at a time: [Init], and then any of [sendStaging] (if
    it returns), a turn of [StagingHandler], [sendRequest] (if it returns)
    and [createReqId]. *)
Inductive reachable `{GoLib} : RequestManager -> Prop :=
| reachable_Init (reqMgr : RequestManager) (i64rand nowNano : Z) :
    reachable (Init reqMgr i64rand nowNano)
| reachable_sendStaging (reqMgr reqMgr' : RequestManager) (sendReq : PendingRequest.t)
    (logged : list string) :
    reachable reqMgr ->
    sendStaging reqMgr sendReq = Enqueued reqMgr' logged ->
    reachable reqMgr'
| reachable_StagingHandler (reqMgr reqMgr' : RequestManager) (sendReq : PendingRequest.t)
    (reqSend : option Request.t) :
    reachable reqMgr ->
    StagingHandler_turn reqMgr = Some (sendReq, reqSend, reqMgr') ->
    reachable reqMgr'
| reachable_sendRequest (reqMgr reqMgr' : RequestManager) (reqSend : option Request.t)
    (sendReq : PendingRequest.t) (doResult : option Response.t) (now1 now2 : Z) :
    reachable reqMgr ->
    sendRequest reqMgr reqSend sendReq doResult now1 now2 = Some reqMgr' ->
    reachable reqMgr'
| reachable_createReqId (reqMgr : RequestManager) :
    reachable reqMgr ->
    reachable (createReqId reqMgr).2.

(** The value that [morfHeader] writes for the selected value [val]: one
    byte of it overwritten. *)
Definition morfValue (dVal dByte : Z) (val : string) : string :=
  setByte (Z.to_nat (dVal mod len val)) (byte_of_Z (dByte mod 256)) val.

(** The values that the loop of [morfHeader] writes for the values [vals]
    at the positions [iv], [iv + 1], ..., when the position drawn is [j]. *)
Fixpoint morfList (dVal dByte : Z) (vals : list string) (iv j : nat) : list string :=
  match vals with
  | [] => []
  | val :: rest =>
      (if Nat.eqb iv j then morfValue dVal dByte val else val)
        :: morfList dVal dByte rest (S iv) j
  end.

(** ** What the header copy amounts to *)

Section CopiedHeaders.
Context `{GoLib}.

(** The value that [buildForwardRequest] copies for the value [val] of the
    header [key]: the staging CSRF token in place of an [X-Csrf-Token]
    value, if the cache entry has one. *)
Definition stagingValue (StagKeys : option StagKeys.t) (key val : string) : string :=
  match StagKeys with
  | Some k =>
      if EqualFold key "X-Csrf-Token" && negb (String.eqb (StagKeys.csrfToken k) "")
      then StagKeys.csrfToken k else val
  | None => val
  end.

(** The header line that [buildForwardRequest] makes of an inbound header
    line, if it makes one. *)
Definition copiedHeader (StagKeys : option StagKeys.t) (line : string * list string)
    : option (string * list string) :=
  let '(key, vals) := line in
  if EqualFold key httpForwardedHeader then None
  else if EqualFold key "Cookie" then None
  else match vals with
       | [] => None
       | _ => Some (key, stagingValue StagKeys key <$> vals)
       end.

End CopiedHeaders.

(** A request with a CSRF header, a header of the router itself and a
    header of two values. *)
Definition exampleReqCsrf : Request.t := {|
  Request.Method := "POST";
  Request.URL := OwnUrl (URL.mk "" "" "/api/x/y" "");
  Request.Host := "router";
  Request.Header := [("Cookie", ["sessionKey=PROD1"]);
                     ("X-Forwarded-By", ["Http-Splitter"]);
                     ("X-Csrf-Token", ["PCT"]);
                     ("Accept", ["*/*"; "text/html"])];
  Request.Cookies := [exampleCookie "sessionKey" "PROD1"];
  Request.Body := None
|}.

(** ** The log line of [sendRequest] *)

(** The text functions that [sendRequest] calls on the response body. *)
Class GoText := {
  (** [[]rune(s)]: the code points of [s] *)
  runes : string -> list Z;
  (** [unicode.IsGraphic(r)] *)
  IsGraphic : Z -> bool;
  (** [base64.StdEncoding.EncodeToString([]byte(s))] *)
  EncodeToString : string -> string
}.

Section LogLine.
Context `{GoText}.

(** The loop [for i := 0; i < lng; i++] of [sendRequest], from [i] on with
    [todo = lng - i] rounds to go: the value of [isGraphic] after it,
    [None] when [runes[i]] is out of range. *)
Fixpoint isGraphicFrom (rs : list Z) (i todo : nat) : option bool :=
  match todo with
  | O => Some true
  | S todo' =>
      match rs !! i with
      | None => None
      | Some r => if negb (IsGraphic r) then Some false else isGraphicFrom rs (S i) todo'
      end
  end.

(** "log the response" in [sendRequest]: the line written, for the body
    that [buf.ReadFrom(resp.Body)] has read and the path that
    [reqSend.URL.Path] then is; [None] for a panic. *)
Definition sendRequest_log (path body : string) : option string :=
  let newStr := body in
  let lng := String.length newStr in
  let '(lng, newStr) :=
    if (70 <? lng)%nat then (70%nat, substring 0 70 newStr) else (lng, newStr) in
  let rs := runes newStr in
  isGraphic ← isGraphicFrom rs 0 lng;
  let newStr := if negb isGraphic then EncodeToString newStr else newStr in
  let mx := String.length path in
  let mx := if (70 <? mx)%nat then 70%nat else mx in
  Some (substring 0 mx path +:+ ": " +:+ newStr).

End LogLine.

(** *** Text functions for the examples *)

(** The bytes of a string. *)
Definition bytesOf (s : string) : list Z :=
  (fun a => Z.of_N (N_of_ascii a)) <$> list_ascii_of_string s.

Definition inRange (lo hi b : Z) : bool := (lo <=? b) && (b <=? hi).

(** UTF-8 decoding as [[]rune(s)] does it: a byte that does not start a
    well-formed sequence gives U+FFFD and is passed over alone. *)
Fixpoint decodeRunes (bs : list Z) : list Z :=
  match bs with
  | [] => []
  | b0 :: t =>
      let bad := 65533 :: decodeRunes t in
      if b0 <? 128 then b0 :: decodeRunes t
      else if inRange 194 223 b0 then
        match t with
        | b1 :: t1 =>
            if inRange 128 191 b1
            then Z.lor (Z.shiftl (Z.land b0 31) 6) (Z.land b1 63) :: decodeRunes t1
            else bad
        | _ => bad
        end
      else if inRange 224 239 b0 then
        match t with
        | b1 :: b2 :: t2 =>
            if inRange (if b0 =? 224 then 160 else 128) (if b0 =? 237 then 159 else 191) b1
               && inRange 128 191 b2
            then Z.lor (Z.shiftl (Z.land b0 15) 12)
                   (Z.lor (Z.shiftl (Z.land b1 63) 6) (Z.land b2 63)) :: decodeRunes t2
            else bad
        | _ => bad
        end
      else if inRange 240 244 b0 then
        match t with
        | b1 :: b2 :: b3 :: t3 =>
            if inRange (if b0 =? 240 then 144 else 128) (if b0 =? 244 then 143 else 191) b1
               && inRange 128 191 b2 && inRange 128 191 b3
            then Z.lor (Z.shiftl (Z.land b0 7) 18)
                   (Z.lor (Z.shiftl (Z.land b1 63) 12)
                      (Z.lor (Z.shiftl (Z.land b2 63) 6) (Z.land b3 63))) :: decodeRunes t3
            else bad
        | _ => bad
        end
      else bad
  end.

(** [unicode.IsGraphic] on Latin-1; code points above it, which the examples
    do not use, count as not graphic here. *)
Definition latin1IsGraphic (r : Z) : bool :=
  inRange 32 126 r || inRange 160 172 r || inRange 174 255 r.

Definition base64Digits : string :=
  "ABCDEFGHIJKLMNOPQRSTUVWXYZabcdefghijklmnopqrstuvwxyz0123456789+/".
Definition base64Digit (n : Z) : ascii :=
  default "A"%char (String.get (Z.to_nat n) base64Digits).

(** The standard base64 encoding, with padding. *)
Fixpoint base64 (bs : list Z) : string :=
  match bs with
  | [] => ""
  | [a] =>
      String (base64Digit (Z.shiftr a 2))
        (String (base64Digit (Z.shiftl (Z.land a 3) 4)) "==")
  | [a; b] =>
      String (base64Digit (Z.shiftr a 2))
        (String (base64Digit (Z.lor (Z.shiftl (Z.land a 3) 4) (Z.shiftr b 4)))
           (String (base64Digit (Z.shiftl (Z.land b 15) 2)) "="))
  | a :: b :: c :: t =>
      String (base64Digit (Z.shiftr a 2))
        (String (base64Digit (Z.lor (Z.shiftl (Z.land a 3) 4) (Z.shiftr b 4)))
           (String (base64Digit (Z.lor (Z.shiftl (Z.land b 15) 2) (Z.shiftr c 6)))
              (String (base64Digit (Z.land c 63)) (base64 t))))
  end.

Definition exampleText : GoText := {|
  runes := fun s => decodeRunes (bytesOf s);
  IsGraphic := latin1IsGraphic;
  EncodeToString := fun s => base64 (bytesOf s)
|}.

(** The two bytes of [U+00E9], e with acute accent, in UTF-8. *)
Definition exampleAccent : string :=
  String (ascii_of_nat 195) (String (ascii_of_nat 169) "").

(** A heap of three tokens, for the examples. *)
Definition exampleHeap : tokenExpirationQueue :=
  [mkTokenExpiration 1 "a" 0; mkTokenExpiration 5 "b" 1; mkTokenExpiration 3 "c" 2].

(** ** Facts about bytes and strings *)

Lemma length_setByte i c s : String.length (setByte i c s) = String.length s.
Proof.
  revert i; induction s as [|a s IH]; intros [|i]; simpl; auto.
Qed.

Lemma get_setByte_eq i c s :
  (i < String.length s)%nat -> String.get i (setByte i c s) = Some c.
Proof.
  revert i; induction s as [|a s IH]; intros [|i] Hi; simpl in *; try lia; auto.
  apply IH; lia.
Qed.

Lemma get_setByte_ne i j c s :
  i <> j -> String.get j (setByte i c s) = String.get j s.
Proof.
  revert i j; induction s as [|a s IH]; intros [|i] [|j] Hij; simpl; auto.
  congruence.
Qed.

Lemma randInt_range maxRand draw :
  0 < maxRand -> exists r, randInt maxRand draw = Some r /\ 0 <= r < maxRand.
Proof.
  intros Hm. unfold randInt.
  destruct (Z.leb_spec maxRand 0); [lia|].
  eexists; split; [reflexivity|]. apply Z.mod_pos_bound; lia.
Qed.

(** ** morfUri *)

Lemma substring_prefix (base path : string) :
  substring 0 (String.length base) path = base <->
  exists suffix, path = base +:+ suffix.
Proof.
  revert path. induction base as [|a base IH]; intros path.
  - split; [intros _; now exists path|intros _; now destruct path].
  - destruct path as [|c path]; cbn [String.length substring].
    + split; [discriminate|]. intros [suffix Hs]. discriminate.
    + split.
      * intros [= -> Hb]. apply IH in Hb as [suffix ->]. now exists suffix.
      * intros [suffix [= -> ->]]. f_equal. apply IH. now exists suffix.
Qed.

Lemma length_append (s t : string) :
  String.length (s +:+ t) = (String.length s + String.length t)%nat.
Proof. induction s as [|a s IH]; [reflexivity|]. simpl. now rewrite <- IH. Qed.

(** The guard of [morfUri] holds exactly for the paths made of the base
    and at least one more byte. *)
Lemma morfUriApplies_true (path morfUriBase : string) :
  morfUriApplies path morfUriBase = true <->
  exists suffix, suffix <> "" /\ path = morfUriBase +:+ suffix.
Proof.
  unfold morfUriApplies, len.
  rewrite andb_true_iff, Z.ltb_lt, String.eqb_eq, substring_prefix.
  split.
  - intros [Hlen [suffix ->]]. exists suffix. split; [|reflexivity].
    intros ->. rewrite length_append in Hlen. simpl in Hlen. lia.
  - intros (suffix & Hne & ->). split; [|now exists suffix].
    rewrite length_append. destruct suffix; [congruence|]. simpl. lia.
Qed.

(** C7. Whatever the two random draws are, [morfUri] returns normally.  When
    the path is the mutation base followed by at least one more byte, the
    new path is the old one with one byte overwritten: the position is the
    one drawn, [dCh mod (len path - len base)] bytes after the end of the
    base and so at or after the end of the base and inside the path, and the
    byte there is the one drawn, [dByte mod 256], a byte of [[0,255]]; the
    new path has the length of the old one and agrees with it at every other
    position.  In every other case the path is returned as it is. *)
Theorem morfUri_single_byte (path morfUriBase : string) (dCh dByte : Z) :
  exists path', morfUri path morfUriBase dCh dByte = Some path' /\
    ((exists suffix, suffix <> "" /\ path = morfUriBase +:+ suffix) ->
       let i := Z.to_nat (len morfUriBase + dCh mod (len path - len morfUriBase)) in
       let b := dByte mod 256 in
       (String.length morfUriBase <= i < String.length path)%nat /\
       0 <= b <= 255 /\
       String.length path' = String.length path /\
       String.get i path' = Some (byte_of_Z b) /\
       forall j, j <> i -> String.get j path' = String.get j path) /\
    (~ (exists suffix, suffix <> "" /\ path = morfUriBase +:+ suffix) -> path' = path).
Proof.
  pose proof (morfUriApplies_true path morfUriBase) as Hiff.
  unfold morfUri. destruct (morfUriApplies path morfUriBase) eqn:Happ.
  - assert (Hlen : len morfUriBase < len path).
    { unfold morfUriApplies in Happ. apply andb_prop in Happ as [H _].
      now apply Z.ltb_lt in H. }
    assert (HiCh : 0 <= dCh mod (len path - len morfUriBase) < len path - len morfUriBase)
      by (apply Z.mod_pos_bound; lia).
    assert (Hr : 0 <= dByte mod 256 < 256) by (apply Z.mod_pos_bound; lia).
    unfold randInt.
    destruct (Z.leb_spec (len path - len morfUriBase) 0); [lia|].
    cbn [mbind option_bind]. destruct (Z.leb_spec 256 0); [lia|].
    cbn [mbind option_bind].
    eexists; split; [reflexivity|].
    split; [|intros Hn; exfalso; apply Hn, Hiff; reflexivity].
    intros _. cbv zeta. unfold len in *.
    split; [lia|]. split; [lia|]. split; [apply length_setByte|].
    split; [apply get_setByte_eq; lia|].
    intros j Hj. apply get_setByte_ne. congruence.
  - eexists; split; [reflexivity|]. split; [|auto].
    intros Hs. apply Hiff in Hs. discriminate.
Qed.

(** The mutation of boundary scenario 5: path [/api/x/y], base [/api/]; the
    draws 1 and 65 put the byte [A] at position 6. *)
Lemma morfUri_single_byte_witness :
  exists path', morfUri "/api/x/y" "/api/" 1 65 = Some path' /\
    (5 <= 6 < 8)%nat /\
    String.length path' = 8%nat /\
    String.get 6 path' = Some "A"%char /\
    forall j, j <> 6%nat -> String.get j path' = String.get j "/api/x/y".
Proof.
  destruct (morfUri_single_byte "/api/x/y" "/api/" 1 65) as (path' & Hm & Happ & _).
  exists path'. split; [exact Hm|].
  destruct Happ as (Hi & _ & Hl & Hg & Ho).
  { exists "x/y". split; [discriminate|reflexivity]. }
  split; [exact Hi|]. split; [exact Hl|]. split; [exact Hg|exact Ho].
Defined.

(** ** morfHeader *)

Section MorfHeaderFacts.
Context `{GoLib}.

Lemma morfValues_passed key vals iv iVals dVal dByte hdr :
  iVals < Z.of_nat iv ->
  is_Some (morfValues key vals iv iVals dVal dByte hdr).
Proof.
  revert iv hdr; induction vals as [|val rest IH]; intros iv hdr Hlt; simpl.
  - eauto.
  - destruct (Z.eqb_spec (Z.of_nat iv) iVals); [lia|]. simpl.
    apply IH. lia.
Qed.

Lemma morfValues_is_Some key vals iv iVals dVal dByte hdr :
  Z.of_nat iv <= iVals < Z.of_nat iv + Z.of_nat (length vals) ->
  is_Some (morfValues key vals iv iVals dVal dByte hdr) <->
  exists val, vals !! Z.to_nat (iVals - Z.of_nat iv) = Some val /\ val <> "".
Proof.
  revert iv hdr; induction vals as [|val rest IH]; intros iv hdr Hr;
    cbn [morfValues length] in *.
  - lia.
  - destruct (Z.eqb_spec (Z.of_nat iv) iVals) as [Heq|Hne].
    + replace (iVals - Z.of_nat iv) with 0 by lia.
      destruct val as [|a val'].
      * simpl. split.
        -- intros [x Hx]. discriminate.
        -- intros (v & Hv & Hne). congruence.
      * destruct (randInt_range (len (String a val')) dVal) as (iVal & -> & _).
        { unfold len. simpl String.length. lia. }
        destruct (randInt_range 256 dByte) as (r & -> & _); [lia|].
        simpl. split.
        -- intros _. eexists; split; [reflexivity|discriminate].
        -- intros _. apply morfValues_passed. lia.
    + simpl. rewrite IH by lia.
      replace (Z.to_nat (iVals - Z.of_nat iv)) with (S (Z.to_nat (iVals - Z.of_nat (S iv)))) by lia.
      reflexivity.
Qed.

Lemma morfHeaderRange_at entries iHdr dVals dVal dByte hdr key vals :
  0 <= iHdr ->
  entries !! Z.to_nat iHdr = Some (key, vals) ->
  morfHeaderRange entries iHdr dVals dVal dByte hdr =
    (iVals ← randInt (Z.of_nat (length vals)) dVals;
     morfValues key vals 0 iVals dVal dByte hdr).
Proof.
  revert iHdr; induction entries as [|[k vs] rest IH]; intros iHdr Hpos Hl.
  - discriminate.
  - simpl. destruct (Z.eqb_spec iHdr 0) as [->|Hne].
    + simpl in Hl. injection Hl as -> ->. reflexivity.
    + replace (Z.to_nat iHdr) with (S (Z.to_nat (iHdr - 1))) in Hl by lia.
      simpl in Hl. apply IH; [lia|assumption].
Qed.

Lemma morfHeader_is_Some hdr dHdr dVals dVal dByte :
  is_Some (morfHeader hdr dHdr dVals dVal dByte) <->
  exists val, selectedValue hdr dHdr dVals = Some val /\ val <> "".
Proof.
  unfold morfHeader, selectedValue.
  destruct hdr as [|e hdr'].
  - simpl. split; [intros [x Hx]; discriminate|intros (v & Hv & _); discriminate].
  - set (hdr := e :: hdr').
    destruct (randInt_range (Z.of_nat (length hdr)) dHdr) as (iHdr & HiHdr & Hr).
    { subst hdr; simpl; lia. }
    rewrite HiHdr. cbn [mbind option_bind].
    assert (iHdr = dHdr mod Z.of_nat (length hdr)) as <-.
    { unfold randInt in HiHdr. destruct (_ <=? _); congruence. }
    destruct (lookup_lt_is_Some_2 hdr (Z.to_nat iHdr)) as [[key vals] Hl]; [lia|].
    rewrite Hl. cbn [mbind option_bind].
    rewrite (morfHeaderRange_at hdr iHdr dVals dVal dByte hdr key vals); [|lia|exact Hl].
    destruct vals as [|v vals'].
    + simpl. split; [intros [x Hx]; discriminate|intros (v & Hv & _); discriminate].
    + set (vals := v :: vals').
      destruct (randInt_range (Z.of_nat (length vals)) dVals) as (iVals & HiVals & Hr2).
      { subst vals; simpl; lia. }
      rewrite HiVals. cbn [mbind option_bind].
      assert (iVals = dVals mod Z.of_nat (length vals)) as <-.
      { unfold randInt in HiVals. destruct (_ <=? _); congruence. }
      rewrite morfValues_is_Some by lia.
      replace (iVals - Z.of_nat 0) with iVals by lia. reflexivity.
Qed.

(** C9. [morfHeader] panics on a request without headers, and it panics
    when the value it selects is the empty string (in both cases through
    [randInt(0)]); it returns normally exactly when a value is selected and
    that value is not empty, so only for a request with at least one
    header. *)
Theorem morfHeader_partial (hdr : Header) (dHdr dVals dVal dByte : Z) :
  (hdr = [] -> randInt (Z.of_nat (length hdr)) dHdr = None /\
               morfHeader hdr dHdr dVals dVal dByte = None) /\
  (selectedValue hdr dHdr dVals = Some "" ->
     randInt (len "") dVal = None /\
     morfHeader hdr dHdr dVals dVal dByte = None) /\
  (is_Some (morfHeader hdr dHdr dVals dVal dByte) <->
     exists val, selectedValue hdr dHdr dVals = Some val /\ val <> "") /\
  (is_Some (morfHeader hdr dHdr dVals dVal dByte) -> hdr <> []).
Proof.
  pose proof (morfHeader_is_Some hdr dHdr dVals dVal dByte) as Hiff.
  repeat split.
  - subst. reflexivity.
  - subst. reflexivity.
  - destruct (morfHeader hdr dHdr dVals dVal dByte) eqn:E; [|reflexivity].
    destruct Hiff as [Hiff _]. destruct Hiff as (v & Hv & Hne); [eauto|].
    congruence.
  - apply Hiff.
  - apply Hiff.
  - intros Hs ->. destruct Hs as [x Hx]. discriminate.
Qed.

End MorfHeaderFacts.

(** ** cacheResponse: what is left alone, and logout *)

Section CacheFacts.
Context `{GoLib}.

(** C6. With an empty production-session key, or a staging response whose
    status is 400 or more, [cacheResponse] returns the manager it was given:
    the cache and the expiration heap are as they were. *)
Theorem cacheResponse_no_change (reqMgr : RequestManager) (prodSessionKey : string)
    (resp : Response.t) (prodKeyExpiration now1 now2 : Z) :
  prodSessionKey = "" \/ 400 <= Response.StatusCode resp ->
  cacheResponse reqMgr prodSessionKey resp prodKeyExpiration now1 now2 = Some reqMgr.
Proof.
  intros Hc. unfold cacheResponse.
  destruct Hc as [-> | Hs].
  - reflexivity.
  - destruct (Z.leb_spec 400 (Response.StatusCode resp)); [|lia].
    now rewrite orb_true_r.
Qed.

Lemma checkExpiration_sessionKey stagKey prodKeyExpiration now :
  StagKeys.sessionKey (checkExpiration stagKey prodKeyExpiration now) =
  StagKeys.sessionKey stagKey.
Proof.
  unfold checkExpiration. repeat case_match; reflexivity.
Qed.

Lemma isLogout_true stagKey stagKeyExpiration stagKeyMaxAge tNow :
  isLogout stagKey stagKeyExpiration stagKeyMaxAge tNow = true <->
  StagKeys.sessionKey stagKey = "" /\ stagKeyExpiration <= tNow /\ stagKeyMaxAge <= 0.
Proof.
  unfold isLogout.
  rewrite andb_true_iff, negb_true_iff, orb_false_iff, String.eqb_eq,
    !Z.ltb_ge. reflexivity.
Qed.

(** C4. [cacheResponse] is called with a key that is not empty and a staging
    response below 400.  Let [stagKey] be the entry of the key (a new one if
    the cache has none) after the scan of the staging cookies, with the
    captured [Expires] and [Max-Age] of the staging [sessionKey] cookie.
    If [stagKey.sessionKey] is empty, the captured [Expires] is not after
    now and the captured [Max-Age] is not positive, the call returns the
    manager with the key deleted from the cache and nothing else changed.
    And whenever the call returns, an entry it leaves in the cache under the
    key is not of that kind. *)
Theorem cacheResponse_logout (reqMgr : RequestManager) (prodSessionKey : string)
    (resp : Response.t) (prodKeyExpiration now1 now2 : Z) :
  prodSessionKey <> "" ->
  Response.StatusCode resp < 400 ->
  let entry := default StagKeys.zero (CacheData reqMgr !! prodSessionKey) in
  let scanned := scanCookies entry (Response.Cookies resp) in
  let stagKey := scanned.1.1 in
  let stagKeyExpiration := scanned.1.2 in
  let stagKeyMaxAge := scanned.2 in
  (StagKeys.sessionKey stagKey = "" ->
   stagKeyExpiration <= UnixMs now2 ->
   stagKeyMaxAge <= 0 ->
   cacheResponse reqMgr prodSessionKey resp prodKeyExpiration now1 now2 =
     Some (set_CacheData (delete prodSessionKey (CacheData reqMgr)) reqMgr)) /\
  (forall reqMgr' e,
     cacheResponse reqMgr prodSessionKey resp prodKeyExpiration now1 now2 = Some reqMgr' ->
     CacheData reqMgr' !! prodSessionKey = Some e ->
     ~ (StagKeys.sessionKey e = "" /\
        stagKeyExpiration <= UnixMs now2 /\
        stagKeyMaxAge <= 0)).
Proof.
  intros Hkey Hstatus entry scanned stagKey stagKeyExpiration stagKeyMaxAge.
  assert (Hguard : String.eqb prodSessionKey "" || (400 <=? Response.StatusCode resp) = false).
  { apply orb_false_iff; split.
    - now apply String.eqb_neq.
    - apply Z.leb_gt; lia. }
  unfold cacheResponse. rewrite Hguard.
  assert (Hentry :
    match CacheData reqMgr !! prodSessionKey with
    | Some k => (false, k)
    | None => (true, StagKeys.zero)
    end = (bool_decide (CacheData reqMgr !! prodSessionKey = None), entry)).
  { subst entry. destruct (CacheData reqMgr !! prodSessionKey); reflexivity. }
  rewrite Hentry. clear Hentry.
  subst stagKey stagKeyExpiration stagKeyMaxAge.
  fold scanned. destruct scanned as [[stagKey1 sExp] sMax]. cbn [fst snd].
  set (stagKey := checkExpiration stagKey1 prodKeyExpiration now1).
  destruct (isLogout stagKey sExp sMax (UnixMs now2)) eqn:Hlog.
  - split; [reflexivity|].
    intros reqMgr' e [= <-] Hl. simpl in Hl.
    rewrite lookup_delete_eq in Hl. discriminate.
  - assert (Hnot : ~ (StagKeys.sessionKey stagKey1 = "" /\ sExp <= UnixMs now2 /\ sMax <= 0)).
    { intros Hc. subst stagKey.
      rewrite <- (checkExpiration_sessionKey stagKey1 prodKeyExpiration now1) in Hc.
      apply isLogout_true in Hc. congruence. }
    split; [intros; tauto|].
    intros reqMgr' e Hret Hl (He & Hrest).
    assert (He' : e = stagKey).
    { destruct (bool_decide _).
      - destruct (addExpiration _ _ _ _ _); simpl in Hret; [|discriminate].
        injection Hret as <-. simpl in Hl. rewrite lookup_insert_eq in Hl. congruence.
      - injection Hret as <-. simpl in Hl. rewrite lookup_insert_eq in Hl. congruence. }
    apply Hnot. split; [|exact Hrest].
    subst e stagKey. now rewrite checkExpiration_sessionKey in He.
Qed.

End CacheFacts.

(** ** The heap operations *)

Lemma Swap_length h i j : length (Swap h i j) = length h.
Proof.
  unfold Swap. destruct (h !! i), (h !! j); auto.
  now rewrite !length_insert.
Qed.

Lemma Swap_lookup h i j k a b :
  h !! i = Some a -> h !! j = Some b ->
  Swap h i j !! k =
    if decide (k = j) then Some (set_index j a)
    else if decide (k = i) then Some (set_index i b)
    else h !! k.
Proof.
  intros Ha Hb. unfold Swap. rewrite Ha, Hb.
  pose proof (lookup_lt_Some _ _ _ Ha). pose proof (lookup_lt_Some _ _ _ Hb).
  rewrite !list_lookup_insert, !length_insert.
  repeat case_decide; try reflexivity; lia.
Qed.

Lemma Swap_timeAt h i j k :
  (i < length h)%nat -> (j < length h)%nat ->
  timeAt (Swap h i j) k =
    if decide (k = i) then timeAt h j
    else if decide (k = j) then timeAt h i
    else timeAt h k.
Proof.
  intros Hi Hj.
  destruct (lookup_lt_is_Some_2 h i Hi) as [a Ha].
  destruct (lookup_lt_is_Some_2 h j Hj) as [b Hb].
  unfold timeAt. rewrite (Swap_lookup h i j k a b Ha Hb), Ha, Hb.
  repeat case_decide; subst; try reflexivity.
  rewrite Ha in Hb. now injection Hb as ->.
Qed.

Lemma Less_timeAt h i j :
  (i < length h)%nat -> (j < length h)%nat ->
  Less h i j = (timeAt h i <? timeAt h j).
Proof.
  intros Hi Hj.
  destruct (lookup_lt_is_Some_2 h i Hi) as [a Ha].
  destruct (lookup_lt_is_Some_2 h j Hj) as [b Hb].
  unfold Less, timeAt. now rewrite Ha, Hb.
Qed.

Lemma Swap_indexed h i j : indexed h -> indexed (Swap h i j).
Proof.
  intros Hh k x Hk. unfold Swap in Hk.
  destruct (h !! i) as [a|] eqn:Ha; [|eauto].
  destruct (h !! j) as [b|] eqn:Hb; [|eauto].
  assert (Hs : Swap h i j !! k = Some x) by (unfold Swap; now rewrite Ha, Hb).
  rewrite (Swap_lookup h i j k a b Ha Hb) in Hs.
  repeat case_decide; subst.
  - now injection Hs as <-.
  - now injection Hs as <-.
  - eauto.
Qed.

Lemma Swap_entries h i j : entries (Swap h i j) ≡ₚ entries h.
Proof.
  destruct (h !! i) as [a|] eqn:Ha; [|unfold Swap; rewrite Ha; reflexivity].
  destruct (h !! j) as [b|] eqn:Hb; [|unfold Swap; rewrite Ha, Hb; reflexivity].
  apply Permutation_inj. split.
  - unfold entries. rewrite !length_fmap. apply Swap_length.
  - exists (fun k => if decide (k = i) then j else if decide (k = j) then i else k).
    split.
    + intros x y Hxy. repeat case_decide; subst; congruence.
    + intros k. unfold entries.
      rewrite !list_lookup_fmap, (Swap_lookup h i j k a b Ha Hb).
      repeat case_decide; subst; rewrite ?Ha, ?Hb; reflexivity.
Qed.

(** [up] and [down] have the turns they need. *)
Lemma up_go_fuel (fuel : nat) h j : (j < fuel)%nat -> up_go fuel h j = up h j.
Proof.
  unfold up.
  assert (Hgen : forall f1 f2 h j, (j < f1)%nat -> (j < f2)%nat ->
            up_go f1 h j = up_go f2 h j).
  { induction f1 as [|f1 IH]; intros f2 h0 j0 H1 H2; [lia|].
    destruct f2 as [|f2]; [lia|]. cbn [up_go].
    destruct (Nat.eqb_spec ((j0 - 1) / 2) j0) as [He|Hne]; [reflexivity|].
    cbn [orb]. destruct (negb (Less h0 j0 ((j0 - 1) / 2))); [reflexivity|].
    assert (((j0 - 1) / 2 < j0)%nat).
    { destruct j0; [simpl in Hne; lia|].
      apply Nat.Div0.div_lt_upper_bound. lia. }
    apply IH; lia. }
  intros Hj. apply Hgen; lia.
Qed.

Lemma down_go_fuel (fuel : nat) h i n :
  (n <= fuel + i)%nat -> down_go fuel h i n = down_go (n - i) h i n.
Proof.
  assert (Hgen : forall f1 f2 h i, (n <= f1 + i)%nat -> (n <= f2 + i)%nat ->
            down_go f1 h i n = down_go f2 h i n).
  { induction f1 as [|f1 IH]; intros f2 h0 i0 H1 H2.
    - destruct f2 as [|f2]; [reflexivity|]. cbn [down_go].
      destruct (Nat.leb_spec n (2 * i0 + 1)); [reflexivity|lia].
    - destruct f2 as [|f2].
      + cbn [down_go]. destruct (Nat.leb_spec n (2 * i0 + 1)); [reflexivity|lia].
      + cbn [down_go]. destruct (Nat.leb_spec n (2 * i0 + 1)); [reflexivity|].
        destruct (negb (Less h0 _ i0)); [reflexivity|].
        apply IH; destruct (_ && _); lia. }
  intros Hf. apply Hgen; lia.
Qed.

(** Case analysis on the positions a swap touches, then arithmetic. *)
Ltac heap_arith :=
  repeat case_decide; subst;
  repeat match goal with
         | Heq : ((?j - 1) / 2)%nat = _, H1 : context [timeAt _ ((?j - 1) / 2)] |- _ =>
             rewrite Heq in H1
         end;
  lia.

(** [down] at [i] puts a queue in order that is in order but below [i]. *)
Lemma down_go_ordered (fuel : nat) h i :
  orderedButBelow h i -> (i < length h)%nat -> (length h <= fuel + i)%nat ->
  heapOrdered (down_go fuel h i (length h)).1.
Proof.
  revert h i. induction fuel as [|fuel IH]; intros h i [Hout Hgrand] Hi Hfuel; [lia|].
  cbn [down_go].
  destruct (Nat.leb_spec (length h) (2 * i + 1)) as [Hleaf|Hchild].
  - (* no child *)
    cbn [fst]. intros j Hj. apply Hout; [exact Hj|]. lia.
  - set (j1 := (2 * i + 1)%nat) in *.
    set (j := if ((j1 + 1 <? length h)%nat && Less h (j1 + 1) j1)
              then (j1 + 1)%nat else j1).
    assert (Hjr : (j < length h)%nat /\ ((j - 1) / 2)%nat = i /\ (i < j)%nat).
    { subst j j1. destruct (Nat.ltb_spec (2 * i + 1 + 1) (length h));
        cbn [andb]; [destruct (Less h _ _)|]; lia. }
    destruct Hjr as (Hjlen & Hjpar & Hij).
    assert (Hmin : forall c : nat, (0 < c < length h)%nat -> ((c - 1) / 2)%nat = i ->
              timeAt h j <= timeAt h c).
    { intros c Hc Hpc.
      assert (Hcc : c = j1 \/ c = (j1 + 1)%nat) by (subst j1; lia).
      subst j. destruct (Nat.ltb_spec (j1 + 1) (length h)) as [H2|H2]; cbn [andb].
      - rewrite (Less_timeAt h (j1 + 1) j1) by lia.
        destruct (Z.ltb_spec (timeAt h (j1 + 1)) (timeAt h j1));
          destruct Hcc as [-> | ->]; lia.
      - destruct Hcc as [-> | ->]; lia. }
    clearbody j. clear Hchild. clear j1.
    rewrite (Less_timeAt h j i) by lia.
    destruct (Z.ltb_spec (timeAt h j) (timeAt h i)) as [Hlt|Hge]; cbn [negb].
    + (* the smaller child goes up *)
      rewrite <- (Swap_length h i j).
      apply IH; rewrite ?Swap_length; [|lia|lia].
      split.
      * intros k Hk Hpk. rewrite Swap_length in Hk.
        rewrite !Swap_timeAt by lia.
        pose proof (Hout k Hk) as H1. pose proof (Hmin k Hk) as H2.
        pose proof (Hgrand j) as H3.
        heap_arith.
      * intros k Hk Hpk _. rewrite Swap_length in Hk.
        rewrite !Swap_timeAt by lia.
        pose proof (Hout k Hk) as H1. rewrite Hpk in H1.
        heap_arith.
    + (* in place *)
      cbn [fst]. intros k Hk.
      destruct (Nat.eq_dec ((k - 1) / 2)%nat i) as [Hpk|Hpk].
      * rewrite Hpk. pose proof (Hmin k Hk Hpk). lia.
      * now apply Hout.
Qed.

(** [up] at [k] puts a queue in order that is in order but above [k]. *)
Lemma up_go_ordered (fuel : nat) h k :
  orderedButAbove h k -> (k < length h)%nat -> (k < fuel)%nat ->
  heapOrdered (up_go fuel h k).
Proof.
  revert h k. induction fuel as [|fuel IH]; intros h k [Hout Hgrand] Hk Hfuel; [lia|].
  cbn [up_go].
  destruct (Nat.eqb_spec ((k - 1) / 2)%nat k) as [Hroot|Hpar]; cbn [orb].
  - intros j Hj. apply Hout; [exact Hj|]. lia.
  - assert (Hlt : ((k - 1) / 2 < k)%nat /\ (0 < k)%nat) by lia.
    destruct Hlt as [Hlt Hpos].
    rewrite (Less_timeAt h k ((k - 1) / 2)) by lia.
    destruct (Z.ltb_spec (timeAt h k) (timeAt h ((k - 1) / 2))) as [Hless|Hge];
      cbn [negb].
    + remember ((k - 1) / 2)%nat as i eqn:Ei.
      apply IH; rewrite ?Swap_length; [|lia|lia].
      split.
      * intros j Hj Hji. rewrite Swap_length in Hj.
        rewrite !Swap_timeAt by lia.
        pose proof (Hout j Hj) as H1. pose proof (Hgrand j Hj) as H2.
        heap_arith.
      * intros j Hj Hpj Hipos. rewrite Swap_length in Hj.
        rewrite !Swap_timeAt by lia.
        pose proof (Hout j Hj) as H1. rewrite Hpj in H1.
        pose proof (Hout i) as H2.
        heap_arith.
    + intros j Hj.
      destruct (Nat.eq_dec j k) as [->|Hjk]; [lia|]. now apply Hout.
Qed.

Lemma down_go_keeps (fuel : nat) h i n :
  length (down_go fuel h i n).1 = length h /\
  (indexed h -> indexed (down_go fuel h i n).1) /\
  entries (down_go fuel h i n).1 ≡ₚ entries h.
Proof.
  revert h i. induction fuel as [|fuel IH]; intros h i; cbn [down_go].
  - cbn [fst]. auto.
  - destruct (n <=? 2 * i + 1)%nat; [cbn [fst]; auto|].
    set (j := if ((2 * i + 1 + 1 <? n)%nat && Less h (2 * i + 1 + 1) (2 * i + 1))
              then (2 * i + 1 + 1)%nat else (2 * i + 1)%nat).
    destruct (negb (Less h j i)); [cbn [fst]; auto|].
    destruct (IH (Swap h i j) j) as (Hl & Hi & He).
    split; [now rewrite Hl, Swap_length|].
    split; [intros Hh; apply Hi, Swap_indexed, Hh|].
    rewrite He. apply Swap_entries.
Qed.

Lemma up_go_keeps (fuel : nat) h k :
  length (up_go fuel h k) = length h /\
  (indexed h -> indexed (up_go fuel h k)) /\
  entries (up_go fuel h k) ≡ₚ entries h.
Proof.
  revert h k. induction fuel as [|fuel IH]; intros h k; cbn [up_go]; [auto|].
  destruct (_ || _); [auto|].
  destruct (IH (Swap h ((k - 1) / 2) k) ((k - 1) / 2)%nat) as (Hl & Hi & He).
  split; [now rewrite Hl, Swap_length|].
  split; [intros Hh; apply Hi, Swap_indexed, Hh|].
  rewrite He. apply Swap_entries.
Qed.

(** [heap.Fix] at the root is [down] from the root. *)
Lemma heap_Fix_root_down (h : tokenExpirationQueue) :
  heap_Fix h 0 = Some (down_go (length h) h 0 (length h)).1.
Proof.
  unfold heap_Fix, down.
  destruct (down_go (length h) h 0 (length h)) as [h' i]. cbn [fst].
  destruct (0 <? i)%nat; [reflexivity|].
  rewrite orb_true_r. reflexivity.
Qed.

(** After the root of a heap has been overwritten, [heap.Fix] at the root
    gives a heap again, with the same elements. *)
Lemma heap_Fix_root_heap (root x : tokenExpiration) (rest : tokenExpirationQueue) :
  heapOrdered (root :: rest) -> indexed (root :: rest) -> index x = 0%nat ->
  exists h',
    heap_Fix (x :: rest) 0 = Some h' /\
    heapOrdered h' /\ indexed h' /\
    entries h' ≡ₚ (time x, token x) :: entries rest.
Proof.
  intros Hord Hidx Hx. rewrite heap_Fix_root_down.
  eexists; split; [reflexivity|].
  destruct (down_go_keeps (length (x :: rest)) (x :: rest) 0 (length (x :: rest)))
    as (_ & Hi & He).
  split; [|split].
  - apply down_go_ordered; [|simpl; lia|lia].
    split.
    + intros j Hj Hp.
      assert (Hsame : forall p : nat, (0 < p)%nat ->
                timeAt (x :: rest) p = timeAt (root :: rest) p).
      { intros [|p] Hpos; [lia|reflexivity]. }
      rewrite !Hsame by lia. apply Hord. simpl in *. lia.
    + intros j _ _ H0. lia.
  - apply Hi. intros [|k] y Hy.
    + simpl in Hy. now injection Hy as <-.
    + apply (Hidx (S k)). exact Hy.
  - rewrite He. reflexivity.
Qed.

(** [heap.Push] on a heap gives a heap, with the new element added. *)
Lemma heap_Push_heap (h : tokenExpirationQueue) (x : tokenExpiration) :
  heapOrdered h -> indexed h ->
  heapOrdered (heap_Push h x) /\ indexed (heap_Push h x) /\
  entries (heap_Push h x) ≡ₚ (time x, token x) :: entries h.
Proof.
  intros Hord Hidx. unfold heap_Push, up, Push.
  rewrite length_app. cbn [length].
  replace (length h + 1 - 1)%nat with (length h) by lia.
  set (h1 := h ++ [set_index (length h) x]).
  assert (Hlen : length h1 = S (length h)).
  { subst h1. rewrite length_app. simpl. lia. }
  assert (Hsame : forall p : nat, (p < length h)%nat -> timeAt h1 p = timeAt h p).
  { intros p Hp. unfold timeAt. subst h1. now rewrite lookup_app_l. }
  destruct (up_go_keeps (S (length h)) h1 (length h)) as (_ & Hi & He).
  split; [|split].
  - apply up_go_ordered; [|lia|lia].
    split.
    + intros j Hj Hne. rewrite !Hsame by lia. apply Hord. lia.
    + intros j Hj Hp. lia.
  - apply Hi. intros k y Hy. subst h1.
    apply lookup_app_Some in Hy as [Hy|[Hge Hy]]; [eauto|].
    destruct (k - length h)%nat eqn:Ek; [|destruct n; discriminate].
    simpl in Hy. injection Hy as <-. simpl. lia.
  - rewrite He. subst h1. unfold entries. rewrite fmap_app. simpl.
    now rewrite Permutation_app_comm.
Qed.

Lemma heap_Fix_root_entries (x : tokenExpiration) (rest h' : tokenExpirationQueue) :
  heap_Fix (x :: rest) 0 = Some h' ->
  entries h' ≡ₚ (time x, token x) :: entries rest.
Proof.
  rewrite heap_Fix_root_down. intros [= <-].
  now destruct (down_go_keeps (length (x :: rest)) (x :: rest) 0 (length (x :: rest)))
    as (_ & _ & ->).
Qed.

Lemma heap_Push_entries (h : tokenExpirationQueue) (x : tokenExpiration) :
  entries (heap_Push h x) ≡ₚ (time x, token x) :: entries h.
Proof.
  unfold heap_Push, up.
  destruct (up_go_keeps (S (length (Push h x) - 1)) (Push h x) (length (Push h x) - 1))
    as (_ & _ & ->).
  unfold Push, entries. rewrite fmap_app. simpl.
  now rewrite Permutation_app_comm.
Qed.

(** ** cacheResponse: a new key and the root of the heap *)

Section HeapInsertion.
Context `{GoLib}.

Lemma heap_Fix_root (h : tokenExpirationQueue) : is_Some (heap_Fix h 0).
Proof.
  unfold heap_Fix. destruct (down h 0 (length h)) as [h' moved].
  destruct moved; [eauto|]. rewrite orb_true_r. eauto.
Qed.

Lemma update_root (root : tokenExpiration) (rest : tokenExpirationQueue) tok tm :
  index root = 0%nat ->
  update (root :: rest) 0 tok tm = heap_Fix (mkTokenExpiration tm tok 0 :: rest) 0.
Proof.
  intros Hi. unfold update. simpl. now rewrite Hi.
Qed.

Lemma update_root_heap (root : tokenExpiration) (rest : tokenExpirationQueue) tok tm :
  heapOrdered (root :: rest) -> indexed (root :: rest) ->
  exists teq, update (root :: rest) 0 tok tm = Some teq /\
              heapOrdered teq /\ indexed teq.
Proof.
  intros Ho Hi.
  assert (Hidx : index root = 0%nat) by (apply (Hi 0%nat); reflexivity).
  rewrite update_root by assumption.
  destruct (heap_Fix_root_heap root (mkTokenExpiration tm tok 0) rest Ho Hi eq_refl)
    as (teq & Hf & Ho' & Hi' & _).
  eauto.
Qed.

(** The heap stays a heap: on a heap in min-heap order whose elements know
    their positions, the insertion of an expiration returns, with such a
    heap. *)
Lemma addExpiration_keeps_heap (cache : gmap string StagKeys.t)
    (teq : tokenExpirationQueue) (prodSessionKey : string) (prodKeyExpiration tNow : Z) :
  heapOrdered teq -> indexed teq ->
  exists teq', addExpiration cache teq prodSessionKey prodKeyExpiration tNow = Some teq' /\
               heapOrdered teq' /\ indexed teq'.
Proof.
  intros Ho Hi. unfold addExpiration, canReuse.
  set (listItem := mkTokenExpiration prodKeyExpiration prodSessionKey 0).
  assert (Hpush : forall h, heapOrdered h -> indexed h ->
            exists teq', Some (heap_Push h listItem) = Some teq' /\
                         heapOrdered teq' /\ indexed teq').
  { intros h Hoh Hih. destruct (heap_Push_heap h listItem Hoh Hih) as (? & ? & _). eauto. }
  destruct teq as [|root rest]; cbn [mbind option_bind]; [now apply Hpush|].
  pose proof (update_root_heap root rest prodSessionKey prodKeyExpiration Ho Hi) as Hreuse.
  destruct (String.eqb (token root) prodSessionKey); cbn [mbind option_bind]; [exact Hreuse|].
  destruct (time root <=? tNow); cbn [mbind option_bind]; [|now apply Hpush].
  destruct (cache !! token root) as [firstKey|]; cbn [mbind option_bind]; [|exact Hreuse].
  destruct (StagKeys.Expiration firstKey <=? tNow); cbn [mbind option_bind]; [exact Hreuse|].
  destruct (update_root_heap root rest (token root) (StagKeys.Expiration firstKey) Ho Hi)
    as (teq1 & -> & Ho1 & Hi1).
  cbn [mbind option_bind]. now apply Hpush.
Qed.

(** So [cacheResponse] returns on every manager whose heap is in order, and
    leaves the heap in order; [Init] starts with the empty heap. *)
Lemma cacheResponse_keeps_heap (reqMgr : RequestManager) (prodSessionKey : string)
    (resp : Response.t) (prodKeyExpiration now1 now2 : Z) :
  heapOrdered (tokensExpirationList reqMgr) -> indexed (tokensExpirationList reqMgr) ->
  exists reqMgr',
    cacheResponse reqMgr prodSessionKey resp prodKeyExpiration now1 now2 = Some reqMgr' /\
    heapOrdered (tokensExpirationList reqMgr') /\ indexed (tokensExpirationList reqMgr').
Proof.
  intros Ho Hi. unfold cacheResponse.
  destruct (_ || _); [eauto|].
  destruct (CacheData reqMgr !! prodSessionKey) as [k|].
  - destruct (scanCookies k _) as [[stagKey1 sExp] sMax].
    destruct (isLogout _ _ _ _); eauto.
  - destruct (scanCookies StagKeys.zero _) as [[stagKey1 sExp] sMax].
    destruct (isLogout _ _ _ _); [eauto|].
    destruct (addExpiration_keeps_heap
                (<[prodSessionKey:=checkExpiration stagKey1 prodKeyExpiration now1]>
                   (CacheData reqMgr))
                (tokensExpirationList reqMgr) prodSessionKey prodKeyExpiration
                (UnixMs now2) Ho Hi) as (teq' & -> & Ho' & Hi').
    cbn [mbind option_bind]. eauto.
Qed.

Lemma Init_heap (reqMgr : RequestManager) (i64rand nowNano : Z) :
  tokensExpirationList (Init reqMgr i64rand nowNano) = [] /\
  heapOrdered (tokensExpirationList (Init reqMgr i64rand nowNano)) /\
  indexed (tokensExpirationList (Init reqMgr i64rand nowNano)).
Proof.
  split; [reflexivity|]. split.
  - intros j Hj. simpl in Hj. lia.
  - intros k x Hx. discriminate.
Qed.

(** C5. [cacheResponse] inserts a new entry (the key is not in the cache and
    the response is not a logout) while the heap has a root, whose [index] is
    its position 0.  Then the call returns, the cache holds the new entry,
    and the heap is
    - the old one with the root's token and time overwritten by the key and
      [prodKeyExpiration] and fixed by [heap.Fix], when the root's token is
      the key;
    - the same, when the root's token is another one, its time is not after
      now, and the cache has no entry for that token with an expiration
      after now;
    - the old one with the root's time overwritten by the expiration the
      cache has for the root's token, fixed by [heap.Fix], and then the new
      element pushed by [heap.Push], when the root's token is another one,
      its time is not after now and the cache has an entry for that token
      with an expiration after now;
    - the old one with the new element pushed by [heap.Push], otherwise.
    In the first two cases the new heap has the elements of the old one with
    the root replaced, in the other two those of the old one (with the
    root's time renewed in the third) and the new element.  If the old heap
    was in min-heap order with every [index] its position, so is the new
    one. *)
Theorem cacheResponse_new_key_root (reqMgr : RequestManager) (prodSessionKey : string)
    (resp : Response.t) (prodKeyExpiration now1 now2 : Z)
    (root : tokenExpiration) (rest : tokenExpirationQueue) :
  prodSessionKey <> "" ->
  Response.StatusCode resp < 400 ->
  CacheData reqMgr !! prodSessionKey = None ->
  tokensExpirationList reqMgr = root :: rest ->
  index root = 0%nat ->
  let scanned := scanCookies StagKeys.zero (Response.Cookies resp) in
  let stagKey := checkExpiration scanned.1.1 prodKeyExpiration now1 in
  let tNow := UnixMs now2 in
  isLogout stagKey scanned.1.2 scanned.2 tNow = false ->
  let listItem := mkTokenExpiration prodKeyExpiration prodSessionKey 0 in
  let reused := mkTokenExpiration prodKeyExpiration prodSessionKey 0 :: rest in
  exists teq,
    cacheResponse reqMgr prodSessionKey resp prodKeyExpiration now1 now2 =
      Some (set_tokensExpirationList teq
              (set_CacheData (<[prodSessionKey := stagKey]> (CacheData reqMgr)) reqMgr)) /\
    (token root = prodSessionKey ->
     heap_Fix reused 0 = Some teq /\
     entries teq ≡ₚ (prodKeyExpiration, prodSessionKey) :: entries rest) /\
    (token root <> prodSessionKey -> time root <= tNow ->
     (forall firstKey, CacheData reqMgr !! token root = Some firstKey ->
                       StagKeys.Expiration firstKey <= tNow) ->
     heap_Fix reused 0 = Some teq /\
     entries teq ≡ₚ (prodKeyExpiration, prodSessionKey) :: entries rest) /\
    (token root <> prodSessionKey -> time root <= tNow ->
     forall firstKey, CacheData reqMgr !! token root = Some firstKey ->
       tNow < StagKeys.Expiration firstKey ->
       (exists teq1,
          heap_Fix (mkTokenExpiration (StagKeys.Expiration firstKey) (token root) 0 :: rest) 0
            = Some teq1 /\
          teq = heap_Push teq1 listItem) /\
       entries teq ≡ₚ (prodKeyExpiration, prodSessionKey) ::
                      (StagKeys.Expiration firstKey, token root) :: entries rest) /\
    (token root <> prodSessionKey -> tNow < time root ->
     teq = heap_Push (root :: rest) listItem /\
     entries teq ≡ₚ (prodKeyExpiration, prodSessionKey) :: entries (root :: rest)) /\
    (heapOrdered (root :: rest) -> indexed (root :: rest) ->
     heapOrdered teq /\ indexed teq).
Proof.
  intros Hkey Hstatus Hnew Hteq Hidx scanned stagKey tNow Hlog listItem reused.
  unfold cacheResponse.
  replace (String.eqb prodSessionKey "" || (400 <=? Response.StatusCode resp)) with false.
  2:{ symmetry. apply orb_false_iff; split;
      [now apply String.eqb_neq | apply Z.leb_gt; lia]. }
  rewrite Hnew. fold scanned.
  destruct scanned as [[stagKey1 sExp] sMax] eqn:Hscan. cbn [fst snd] in *.
  fold stagKey tNow. rewrite Hlog, Hteq.
  unfold addExpiration, canReuse.
  destruct (heap_Fix_root reused) as [teqR HfixR].
  pose proof (heap_Fix_root_entries _ _ _ HfixR) as HentR. cbn [time token] in HentR.
  assert (HheapR : heapOrdered (root :: rest) -> indexed (root :: rest) ->
                   heapOrdered teqR /\ indexed teqR).
  { intros Ho Hi.
    destruct (heap_Fix_root_heap root (mkTokenExpiration prodKeyExpiration prodSessionKey 0)
                rest Ho Hi eq_refl) as (h' & Hf & Ho' & Hi' & _).
    fold reused in Hf. rewrite HfixR in Hf. injection Hf as <-. auto. }
  destruct (String.eqb_spec (token root) prodSessionKey) as [Htok|Htok].
  - cbn [mbind option_bind]. rewrite update_root by assumption.
    fold reused. rewrite HfixR. exists teqR.
    split; [reflexivity|]. split; [auto|].
    split; [congruence|]. split; [congruence|]. split; [congruence|exact HheapR].
  - rewrite lookup_insert_ne by congruence.
    destruct (Z.leb_spec (time root) tNow) as [Hexp|Hexp].
    + destruct (CacheData reqMgr !! token root) as [firstKey|] eqn:Hfirst.
      * destruct (Z.leb_spec (StagKeys.Expiration firstKey) tNow) as [Hdead|Hlive].
        -- cbn [mbind option_bind]. rewrite update_root by assumption.
           fold reused. rewrite HfixR. exists teqR.
           split; [reflexivity|]. split; [auto|]. split; [auto|].
           split; [|split; [intros; lia|exact HheapR]].
           intros _ _ fk [= <-] Hl. lia.
        -- rewrite update_root by assumption.
           set (renewed := mkTokenExpiration (StagKeys.Expiration firstKey) (token root) 0).
           destruct (heap_Fix_root (renewed :: rest)) as [teq1 Hfix].
           rewrite Hfix. cbn [mbind option_bind].
           exists (heap_Push teq1 listItem).
           split; [reflexivity|]. split; [congruence|].
           split; [|split; [|split; [intros; lia|]]].
           ++ intros _ _ Hall. specialize (Hall firstKey eq_refl). lia.
           ++ intros _ _ fk [= <-] _. split; [eauto|].
              rewrite heap_Push_entries. cbn [time token].
              now rewrite (heap_Fix_root_entries _ _ _ Hfix).
           ++ intros Ho Hi.
              destruct (heap_Fix_root_heap root renewed rest Ho Hi eq_refl)
                as (h' & Hf & Ho' & Hi' & _).
              rewrite Hfix in Hf. injection Hf as <-.
              destruct (heap_Push_heap teq1 listItem Ho' Hi') as (? & ? & _). auto.
      * cbn [mbind option_bind]. rewrite update_root by assumption.
        fold reused. rewrite HfixR. exists teqR.
        split; [reflexivity|]. split; [auto|]. split; [auto|].
        split; [|split; [intros; lia|exact HheapR]].
        intros _ _ fk Hfk. discriminate.
    + cbn [mbind option_bind].
      exists (heap_Push (root :: rest) listItem).
      split; [reflexivity|]. split; [congruence|].
      split; [intros; lia|]. split; [intros; lia|]. split.
      * intros _ _. split; [reflexivity|]. apply heap_Push_entries.
      * intros Ho Hi. destruct (heap_Push_heap (root :: rest) listItem Ho Hi) as (? & ? & _).
        auto.
Qed.

End HeapInsertion.

(** ** buildForwardRequest: cookies and the shared URL *)

Section BuildFacts.
Context `{GoLib}.

Lemma fixCookies_filter_map (k : StagKeys.t) (cookies added : list Cookie.t) :
  fixCookies k cookies added =
  added ++ filter (fun cc => Cookie.Value cc <> "") (fixCookie k <$> cookies).
Proof.
  unfold fixCookies. revert added.
  induction cookies as [|cc cookies IH]; intros added; cbn [fold_left].
  - rewrite fmap_nil, filter_nil. now rewrite app_nil_r.
  - rewrite IH. rewrite fmap_cons, filter_cons.
    destruct (String.eqb_spec (Cookie.Value (fixCookie k cc)) "") as [He|Hne];
      cbn [negb].
    + rewrite decide_False by tauto. reflexivity.
    + rewrite decide_True by assumption. now rewrite <- app_assoc.
Qed.

Lemma fixCookie_Name (k : StagKeys.t) (cc : Cookie.t) :
  Cookie.Name (fixCookie k cc) = Cookie.Name cc.
Proof. unfold fixCookie. repeat case_match; reflexivity. Qed.

Lemma buildForwardRequest_Some reqMgr req prodSessionKey stagBody stagReq reqMgr' :
  buildForwardRequest reqMgr req prodSessionKey stagBody = (Some stagReq, reqMgr') ->
  let path := URL.Path (deref reqMgr (Request.URL req)) in
  reqMgr' = set_UrlStaging (URL.setPath path (UrlStaging reqMgr)) reqMgr /\
  Request.URL stagReq = UrlStagingPtr /\
  Request.Cookies stagReq =
    match CacheData reqMgr !! prodSessionKey with
    | Some k => fixCookies k (Request.Cookies req) []
    | None => []
    end.
Proof.
  unfold buildForwardRequest.
  destruct (http_NewRequest_ok _ _); simpl; [|discriminate].
  intros [= <- <-]. auto.
Qed.

(** C2, as the code has it.  When [buildForwardRequest] builds a request and
    the cache has an entry for the inbound production key, the cookies of
    the staging request are the inbound cookies, in their order, where a
    cookie named (up to case) [csrfToken], [sessionKey] or [sessionTtl] has
    got the corresponding value of the entry, empty or not, and where the
    cookies whose value is then empty are left out.  When the cache has no
    entry for the inbound production key, the staging request has no
    cookie. *)
Theorem buildForwardRequest_cookies (reqMgr : RequestManager) (req : Request.t)
    (prodSessionKey : string) (stagBody : option string)
    (stagReq : Request.t) (reqMgr' : RequestManager) :
  buildForwardRequest reqMgr req prodSessionKey stagBody = (Some stagReq, reqMgr') ->
  match CacheData reqMgr !! prodSessionKey with
  | Some k =>
      Request.Cookies stagReq =
        filter (fun cc => Cookie.Value cc <> "") (fixCookie k <$> Request.Cookies req) /\
      forall cc,
        Cookie.Name (fixCookie k cc) = Cookie.Name cc /\
        Cookie.Value (fixCookie k cc) =
          if EqualFold (Cookie.Name cc) "csrfToken" then StagKeys.csrfToken k
          else if EqualFold (Cookie.Name cc) "sessionKey" then StagKeys.sessionKey k
          else if EqualFold (Cookie.Name cc) "sessionTtl" then StagKeys.sessionTtl k
          else Cookie.Value cc
  | None => Request.Cookies stagReq = []
  end.
Proof.
  intros Hb. apply buildForwardRequest_Some in Hb as (_ & _ & Hc).
  destruct (CacheData reqMgr !! prodSessionKey) as [k|]; [|exact Hc].
  split.
  - rewrite Hc. apply fixCookies_filter_map.
  - intros cc. split; [apply fixCookie_Name|].
    unfold fixCookie. repeat case_match; reflexivity.
Qed.

(** C10. A request built by [buildForwardRequest] holds the manager's
    [UrlStaging] pointer, and the call has written the inbound path into
    that URL object and changed nothing else of the manager: afterwards
    [UrlStaging.Path] is the path of the request just built, whatever the
    configured base path was, while scheme, host and query of the URL of the
    built request are those of the staging base URL.  A later call writes
    its own path into the same object, so the URL of the earlier request
    then has the later path. *)
Theorem buildForwardRequest_shares_UrlStaging (reqMgr : RequestManager)
    (req : Request.t) (prodSessionKey : string) (stagBody : option string)
    (stagReq : Request.t) (reqMgr' : RequestManager) :
  buildForwardRequest reqMgr req prodSessionKey stagBody = (Some stagReq, reqMgr') ->
  let path := URL.Path (deref reqMgr (Request.URL req)) in
  Request.URL stagReq = UrlStagingPtr /\
  reqMgr' = set_UrlStaging (URL.setPath path (UrlStaging reqMgr)) reqMgr /\
  URL.Path (UrlStaging reqMgr') = path /\
  URL.Path (deref reqMgr' (Request.URL stagReq)) = path /\
  URL.RawQuery (deref reqMgr' (Request.URL stagReq)) = URL.RawQuery (UrlStaging reqMgr) /\
  URL.Scheme (deref reqMgr' (Request.URL stagReq)) = URL.Scheme (UrlStaging reqMgr) /\
  URL.Host (deref reqMgr' (Request.URL stagReq)) = URL.Host (UrlStaging reqMgr) /\
  forall req2 prodSessionKey2 stagBody2 stagReq2 reqMgr'',
    buildForwardRequest reqMgr' req2 prodSessionKey2 stagBody2 = (Some stagReq2, reqMgr'') ->
    URL.Path (UrlStaging reqMgr'') = URL.Path (deref reqMgr' (Request.URL req2)) /\
    URL.Path (deref reqMgr'' (Request.URL stagReq)) =
      URL.Path (deref reqMgr' (Request.URL req2)).
Proof.
  intros Hb path. apply buildForwardRequest_Some in Hb as (-> & Hu & _).
  fold path. rewrite Hu. simpl.
  repeat (split; [reflexivity|]).
  intros req2 key2 body2 stagReq2 reqMgr'' Hb2.
  apply buildForwardRequest_Some in Hb2 as (-> & _ & _). simpl. auto.
Qed.

End BuildFacts.

(** ** From the front door to the cache update *)

Section ForwardFacts.
Context `{GoLib}.

(** The forwarder builds the staging request of the pending request at the
    head of the queue, with the key of the inbound cookie. *)
Lemma StagingHandler_turn_builds (reqMgr : RequestManager) (sendReq : PendingRequest.t)
    (rest : list PendingRequest.t) :
  chanBuf (PendingRequests reqMgr) = sendReq :: rest ->
  exists reqSend reqMgr',
    StagingHandler_turn reqMgr = Some (sendReq, reqSend, reqMgr') /\
    buildForwardRequest
      (set_PendingRequests (mkChan rest (chanCap (PendingRequests reqMgr))) reqMgr)
      (PendingRequest.req sendReq) (PendingRequest.requestKey sendReq)
      (PendingRequest.body sendReq) = (reqSend, reqMgr').
Proof.
  intros Hq. unfold StagingHandler_turn, chanRecv. rewrite Hq.
  cbn [mbind option_bind].
  destruct (buildForwardRequest _ _ _ _) as [reqSend reqMgr']. eauto.
Qed.

(** On a full queue of 100 requests or more the send waits. *)
Lemma sendStaging_full_queue_waits (reqMgr : RequestManager) (sendReq : PendingRequest.t) :
  (100 <= length (chanBuf (PendingRequests reqMgr)))%nat ->
  (chanCap (PendingRequests reqMgr) <= length (chanBuf (PendingRequests reqMgr)))%nat ->
  sendStaging reqMgr sendReq =
    BlockedOnSend (set_pingManager (Manger.Set_ true (pingManager reqMgr)) reqMgr) [].
Proof.
  intros Hge Hfull. unfold sendStaging, chanSend.
  destruct (Nat.ltb_spec (length (chanBuf (PendingRequests reqMgr))) 100); [lia|].
  cbn -[Nat.ltb].
  destruct (Nat.ltb_spec (length (chanBuf (PendingRequests reqMgr)))
              (chanCap (PendingRequests reqMgr))); [lia|reflexivity].
Qed.


(** The two branches of [sendStaging] where the call returns.  On a queue
    that holds at least one and fewer than 100 requests (and no more than
    its capacity) it sets the liveness flag to false, takes the request at
    the head off the queue, logs its URL path cut to at most 80 bytes, and
    puts the new request at the end.  On a queue that holds 100 requests or
    more and is not full, it sets the flag to true and puts the new request
    at the end, taking nothing off. *)
Theorem sendStaging_enqueues (reqMgr : RequestManager) (sendReq : PendingRequest.t) :
  let queue := chanBuf (PendingRequests reqMgr) in
  let capacity := chanCap (PendingRequests reqMgr) in
  (forall delReq rest,
     queue = delReq :: rest ->
     (length queue < 100)%nat ->
     (length queue <= capacity)%nat ->
     let path := URL.Path (deref reqMgr (Request.URL (PendingRequest.req delReq))) in
     let shown := substring 0 (Nat.min 80 (String.length path)) path in
     (String.length shown <= 80)%nat /\
     sendStaging reqMgr sendReq =
       Enqueued
         (set_PendingRequests (mkChan (rest ++ [sendReq]) capacity)
            (set_pingManager (Manger.Set_ false (pingManager reqMgr)) reqMgr))
         ["error: pending requests overflow! removing: " +:+ shown]) /\
  ((100 <= length queue)%nat ->
   (length queue < capacity)%nat ->
   sendStaging reqMgr sendReq =
     Enqueued
       (set_PendingRequests (mkChan (queue ++ [sendReq]) capacity)
          (set_pingManager (Manger.Set_ true (pingManager reqMgr)) reqMgr))
       []).
Proof.
  intros queue capacity. split.
  - intros delReq rest Hq Hlt Hcap path shown.
    unfold sendStaging. fold queue.
    destruct (Nat.ltb_spec (length queue) 100); [|lia].
    unfold chanRecv, chanSend.
    cbn -[Nat.ltb substring String.length deref String.append].
    fold queue capacity. rewrite Hq.
    cbn -[Nat.ltb substring String.length deref String.append].
    rewrite Hq in Hcap. cbn in Hcap.
    destruct (Nat.ltb_spec (length rest) capacity); [|lia].
    change (deref _ (Request.URL (PendingRequest.req delReq)))
      with (deref reqMgr (Request.URL (PendingRequest.req delReq))).
    fold path. split.
    + subst shown.
      assert (Hlen : forall n s, (n <= String.length s)%nat ->
                String.length (substring 0 n s) = n).
      { induction n as [|n IH]; intros [|a s] Hn; simpl in *; try lia; auto.
        f_equal. apply IH. lia. }
      rewrite Hlen; lia.
    + subst shown.
      replace (if (80 <? String.length path)%nat then 80%nat else String.length path)
        with (Nat.min 80 (String.length path)); [reflexivity|].
      destruct (Nat.ltb_spec 80 (String.length path)); lia.
  - intros Hge Hlt. unfold sendStaging. fold queue.
    destruct (Nat.ltb_spec (length queue) 100); [lia|].
    unfold chanSend. cbn -[Nat.ltb]. fold queue capacity.
    destruct (Nat.ltb_spec (length queue) capacity); [|lia].
    reflexivity.
Qed.

End ForwardFacts.

(** ** The request id *)

Lemma parseDigits_acc (base acc : Z) (s : string) :
  parseDigits base acc s = acc * base ^ len s + parseDigits base 0 s.
Proof.
  revert acc. induction s as [|c s IH]; intros acc.
  - unfold len; simpl. lia.
  - cbn [parseDigits]. rewrite IH, (IH (0 * base + digitVal c)).
    unfold len. cbn [String.length]. rewrite Nat2Z.inj_succ, Z.pow_succ_r by lia.
    ring.
Qed.

Lemma digitVal_digit (d : Z) : 0 <= d < 36 -> digitVal (digit d) = d.
Proof.
  intros Hd. rewrite <- (Z2Nat.id d) by lia.
  assert (Hn : (Z.to_nat d < 36)%nat) by lia.
  remember (Z.to_nat d) as n eqn:En. clear En Hd d.
  do 36 (destruct n as [|n]; [reflexivity|]). lia.
Qed.

Lemma parseDigits_formatBits (fuel : nat) (base u : Z) (acc : string) :
  2 <= base <= 36 ->
  0 <= u < base ^ Z.of_nat fuel ->
  parseDigits base 0 (formatBits fuel u base acc) =
  u * base ^ len acc + parseDigits base 0 acc.
Proof.
  intros Hb. revert u acc. induction fuel as [|fuel IH]; intros u acc Hu.
  - simpl in Hu. assert (u = 0) by lia. subst. simpl. lia.
  - cbn [formatBits].
    assert (Hmod : 0 <= u mod base < base) by (apply Z.mod_pos_bound; lia).
    assert (Hone : parseDigits base 0 (String (digit (u mod base)) acc) =
                   (u mod base) * base ^ len acc + parseDigits base 0 acc).
    { cbn [parseDigits]. rewrite parseDigits_acc, digitVal_digit by lia. ring. }
    destruct (Z.ltb_spec u base) as [Hlt|Hge].
    + rewrite Hone. rewrite Z.mod_small by lia. reflexivity.
    + rewrite IH.
      * rewrite Hone. unfold len. cbn [String.length].
        rewrite Nat2Z.inj_succ, Z.pow_succ_r by lia.
        rewrite (Z.div_mod u base) at 3 by lia. ring.
      * split; [apply Z.div_pos; lia|].
        apply Z.div_lt_upper_bound; [lia|].
        rewrite Nat2Z.inj_succ, Z.pow_succ_r in Hu by lia. lia.
Qed.

Lemma parseDigits_FormatUint (u : Z) :
  0 <= u < 2 ^ 64 -> parseDigits 16 0 (FormatUint u 16) = u.
Proof.
  intros Hu. unfold FormatUint. rewrite parseDigits_formatBits; [|lia|].
  - unfold len. simpl. lia.
  - change (Z.of_nat 64) with 64. assert (2 ^ 64 < 16 ^ 64) by reflexivity. lia.
Qed.

Lemma FormatInt_inj (a b : Z) :
  0 <= a < 2 ^ 63 -> 0 <= b < 2 ^ 63 -> FormatInt a 16 = FormatInt b 16 -> a = b.
Proof.
  intros Ha Hb. unfold FormatInt.
  destruct (Z.ltb_spec a 0); [lia|]. destruct (Z.ltb_spec b 0); [lia|].
  intros He. apply (f_equal (parseDigits 16 0)) in He.
  rewrite !parseDigits_FormatUint in He; lia.
Qed.

Lemma wrap64_small (z : Z) : - 2 ^ 63 <= z < 2 ^ 63 -> wrap64 z = z.
Proof. intros Hz. unfold wrap64. rewrite Z.mod_small; lia. Qed.

Section RequestIds.

Lemma createReqIds_spec (n : nat) (reqMgr : RequestManager) :
  0 <= cacheId reqMgr ->
  cacheId reqMgr + Z.of_nat n < 2 ^ 63 ->
  forwardPrefix (createReqIds n reqMgr).2 = forwardPrefix reqMgr /\
  cacheId (createReqIds n reqMgr).2 = cacheId reqMgr + Z.of_nat n /\
  (createReqIds n reqMgr).1 =
    (fun k => forwardPrefix reqMgr +:+ FormatInt (cacheId reqMgr + 1 + Z.of_nat k) 16)
      <$> seq 0 n.
Proof.
  revert reqMgr. induction n as [|n IH]; intros reqMgr H0 Hn.
  - cbn. repeat split; lia.
  - cbn [createReqIds]. unfold createReqId.
    rewrite wrap64_small by lia.
    specialize (IH (set_cacheId (cacheId reqMgr + 1) reqMgr)).
    destruct (createReqIds n (set_cacheId (cacheId reqMgr + 1) reqMgr)) as [ids m2].
    cbn [fst snd] in *. cbn [cacheId forwardPrefix set_cacheId] in IH.
    destruct IH as (Hp & Hc & Hids); [lia|lia|].
    split; [exact Hp|]. split; [lia|].
    cbn [seq fmap list_fmap]. f_equal.
    + do 2 f_equal. lia.
    + rewrite Hids, <- seq_shift, <- list_fmap_compose.
      apply list_fmap_ext. intros _ k _. cbn. do 2 f_equal. lia.
Qed.

(** C8, as the code has it.  [Init] sets the counter to 0 and the prefix to
    the hexadecimal digits of the [uint64] sum of the random integer and the
    clock reading, followed by ["-"].  The [k]-th of [n] calls of
    [createReqId] after that returns the prefix followed by the hexadecimal
    digits of [k], which is the value of the counter after the call, as long
    as [n] is below [2^63]: the counter values increase by one from call to
    call, and no two of the ids are the same. *)
Theorem createReqId_counts (reqMgr : RequestManager) (i64rand nowNano : Z) (n : nat) :
  Z.of_nat n < 2 ^ 63 ->
  let reqMgr0 := Init reqMgr i64rand nowNano in
  let prefix := FormatUint ((i64rand + nowNano) mod 2 ^ 64) 16 +:+ "-" in
  forwardPrefix reqMgr0 = prefix /\
  cacheId reqMgr0 = 0 /\
  cacheId (createReqIds n reqMgr0).2 = Z.of_nat n /\
  (forall k : nat, (k < n)%nat ->
     (createReqIds (S k) reqMgr0).1 !! k = Some (prefix +:+ FormatInt (Z.of_nat (S k)) 16) /\
     cacheId (createReqIds (S k) reqMgr0).2 = Z.of_nat (S k) /\
     (createReqIds n reqMgr0).1 !! k = Some (prefix +:+ FormatInt (Z.of_nat (S k)) 16)) /\
  NoDup (createReqIds n reqMgr0).1.
Proof.
  intros Hn reqMgr0 prefix.
  assert (Hprefix : forwardPrefix reqMgr0 = prefix).
  { subst reqMgr0 prefix. cbn. now rewrite <- Zplus_mod. }
  assert (Hid : cacheId reqMgr0 = 0) by reflexivity.
  assert (Hrun : forall m : nat, Z.of_nat m < 2 ^ 63 ->
            cacheId (createReqIds m reqMgr0).2 = Z.of_nat m /\
            (createReqIds m reqMgr0).1 =
              (fun k => prefix +:+ FormatInt (Z.of_nat (S k)) 16) <$> seq 0 m).
  { intros m Hm.
    destruct (createReqIds_spec m reqMgr0) as (_ & Hc & Hids); [lia|lia|].
    rewrite Hc, Hids, Hid, Hprefix. split; [lia|].
    apply list_fmap_ext. intros _ k _. cbn. do 2 f_equal. lia. }
  assert (Hat : forall m k : nat, Z.of_nat m < 2 ^ 63 -> (k < m)%nat ->
            (createReqIds m reqMgr0).1 !! k =
              Some (prefix +:+ FormatInt (Z.of_nat (S k)) 16)).
  { intros m k Hm Hk. destruct (Hrun m Hm) as [_ ->].
    rewrite list_lookup_fmap, lookup_seq_lt by lia. reflexivity. }
  split; [exact Hprefix|]. split; [exact Hid|].
  split; [apply Hrun; lia|]. split.
  - intros k Hk. split; [apply Hat; lia|]. split; [apply Hrun; lia|apply Hat; lia].
  - destruct (Hrun n Hn) as [_ ->].
    apply NoDup_fmap_2_strong; [|apply NoDup_seq].
    intros a b Ha Hb He.
    apply elem_of_seq in Ha, Hb.
    apply String.app_inj in He. apply FormatInt_inj in He; lia.
Qed.

End RequestIds.

(** ** Examples *)

(** A request with the headers [Accept: */*] and [X-Empty:]: the draw that
    selects the first header lets [morfHeader] return, the draw that selects
    the empty value makes it panic. *)
Lemma morfHeader_partial_witness :
  is_Some (morfHeader (H := exampleLib)
             [("Accept", ["*/*"]); ("X-Empty", [""])] 0 0 1 66) /\
  morfHeader (H := exampleLib) [("Accept", ["*/*"]); ("X-Empty", [""])] 1 0 1 66 = None /\
  morfHeader (H := exampleLib) [] 0 0 1 66 = None.
Proof.
  pose proof (morfHeader_partial (H := exampleLib)
                [("Accept", ["*/*"]); ("X-Empty", [""])] 0 0 1 66) as (_ & _ & Hiff & _).
  pose proof (morfHeader_partial (H := exampleLib)
                [("Accept", ["*/*"]); ("X-Empty", [""])] 1 0 1 66) as (_ & Hempty & _).
  pose proof (morfHeader_partial (H := exampleLib) [] 0 0 1 66) as (Hnil & _).
  split; [|split].
  - apply Hiff. exists "*/*". split; [reflexivity|discriminate].
  - apply Hempty. reflexivity.
  - apply Hnil. reflexivity.
Defined.

(** A staging response with status 500 leaves the manager alone. *)
Lemma cacheResponse_no_change_witness :
  cacheResponse (H := exampleLib) exampleMgr "PROD2" (Response.mk 500 []) 0
    exampleNow exampleNow = Some exampleMgr.
Proof.
  apply (cacheResponse_no_change (H := exampleLib)). right. simpl. lia.
Defined.

(** Boundary scenario 4: the staging response clears the session, and the
    entry of the key is deleted. *)
Lemma cacheResponse_logout_witness :
  cacheResponse (H := exampleLib) exampleMgrKnown "PROD1" logoutResp 0 exampleNow exampleNow =
    Some (set_CacheData (delete "PROD1" (CacheData exampleMgrKnown)) exampleMgrKnown).
Proof.
  apply (cacheResponse_logout (H := exampleLib) exampleMgrKnown "PROD1" logoutResp 0
           exampleNow exampleNow).
  - discriminate.
  - simpl. lia.
  - reflexivity.
  - vm_compute. discriminate.
  - vm_compute. discriminate.
Defined.

(** A new key arrives while the root of the heap is a token that has
    expired and is no longer in the cache: the root is reused. *)
Lemma cacheResponse_new_key_root_witness :
  exists teq,
    cacheResponse (H := exampleLib) exampleMgrRoot "PROD2" exampleResp 2000
      exampleNow exampleNow =
      Some (set_tokensExpirationList teq
              (set_CacheData
                 (<["PROD2" := StagKeys.mk "STG1" "" "" 2000]> (CacheData exampleMgrRoot))
                 exampleMgrRoot)) /\
    heap_Fix [mkTokenExpiration 2000 "PROD2" 0] 0 = Some teq /\
    entries teq ≡ₚ [(2000, "PROD2")] /\
    heapOrdered teq /\ indexed teq.
Proof.
  destruct (cacheResponse_new_key_root (H := exampleLib) exampleMgrRoot "PROD2" exampleResp 2000
              exampleNow exampleNow (mkTokenExpiration 10 "OLD" 0) [])
    as (teq & Hc & _ & Hreuse & _ & _ & Hheap).
  - discriminate.
  - simpl. lia.
  - reflexivity.
  - reflexivity.
  - reflexivity.
  - reflexivity.
  - exists teq. split; [exact Hc|].
    assert (Hr : heap_Fix [mkTokenExpiration 2000 "PROD2" 0] 0 = Some teq /\
                 entries teq ≡ₚ [(2000, "PROD2")]).
    { apply Hreuse.
      - discriminate.
      - vm_compute. discriminate.
      - intros firstKey Hf. vm_compute in Hf. discriminate. }
    destruct Hr as [Hr1 Hr2]. split; [exact Hr1|]. split; [exact Hr2|].
    apply Hheap.
    + intros j Hj. simpl in Hj. lia.
    + intros [|k] x Hx; [|discriminate]. now injection Hx as <-.
Defined.

(** Boundary scenario 2: the cache maps [PROD1] to [STG1] and [CT1]; the
    staging request carries [sessionKey=STG1] and the other cookie. *)
Lemma buildForwardRequest_cookies_witness :
  Request.Cookies
    (default exampleReq
       (buildForwardRequest (H := exampleLib) exampleMgrKnown exampleReq "PROD1" None).1)
  = [exampleCookie "sessionKey" "STG1"; exampleCookie "theme" "dark"].
Proof.
  destruct (buildForwardRequest (H := exampleLib) exampleMgrKnown exampleReq "PROD1" None)
    as [[stagReq|] reqMgr'] eqn:Hb; [|vm_compute in Hb; discriminate].
  pose proof (buildForwardRequest_cookies (H := exampleLib) exampleMgrKnown exampleReq
                "PROD1" None stagReq reqMgr' Hb) as Hc.
  change (CacheData exampleMgrKnown !! "PROD1")
    with (Some (StagKeys.mk "STG1" "" "CT1" 5)) in Hc.
  destruct Hc as [Hc _]. simpl. rewrite Hc. reflexivity.
Defined.

(** The path [/api/x/y] of the request is left in [UrlStaging], whose
    configured path was [/]; the query [page=2] of the request is not in the
    URL of the staging request. *)
Lemma buildForwardRequest_shares_UrlStaging_witness :
  URL.Path (UrlStaging exampleMgr) = "/" /\
  URL.Path (UrlStaging
              (buildForwardRequest (H := exampleLib) exampleMgr exampleReq "PROD1" None).2)
    = "/api/x/y" /\
  URL.RawQuery
    (deref (buildForwardRequest (H := exampleLib) exampleMgr exampleReq "PROD1" None).2
       (Request.URL
          (default exampleReq
             (buildForwardRequest (H := exampleLib) exampleMgr exampleReq "PROD1" None).1)))
    = "".
Proof.
  destruct (buildForwardRequest (H := exampleLib) exampleMgr exampleReq "PROD1" None)
    as [[stagReq|] reqMgr'] eqn:Hb; [|vm_compute in Hb; discriminate].
  destruct (buildForwardRequest_shares_UrlStaging (H := exampleLib) exampleMgr exampleReq
              "PROD1" None stagReq reqMgr' Hb) as (_ & _ & Hp & _ & Hq & _).
  split; [reflexivity|]. split; [exact Hp|exact Hq].
Defined.


(** A queue that holds one request: it is dropped, its path is logged, the
    new request is queued and the flag is false. *)
Lemma sendStaging_enqueues_witness :
  sendStaging exampleMgrQueued examplePending =
    Enqueued
      (set_PendingRequests (mkChan [examplePending] NumPendingRequests)
         (set_pingManager (Manger.Set_ false (pingManager exampleMgrQueued)) exampleMgrQueued))
      ["error: pending requests overflow! removing: /api/x/y"].
Proof.
  apply (proj1 (sendStaging_enqueues exampleMgrQueued examplePending)
           examplePending []).
  - reflexivity.
  - vm_compute. lia.
  - vm_compute. lia.
Defined.

(** Three ids after [Init] with the random integer 1 and the clock 1. *)
Lemma createReqId_counts_witness :
  (createReqIds 3 (Init exampleMgr 1 1)).1 = ["2-1"; "2-2"; "2-3"] /\
  NoDup (createReqIds 3 (Init exampleMgr 1 1)).1.
Proof.
  split; [reflexivity|].
  apply (createReqId_counts exampleMgr 1 1 3). simpl. lia.
Defined.

(** ** Where the code departs from the specification's wording *)

(** C1. The code does not enqueue on the queue that [main] makes.  The
    channel starts empty, so its length is below 100 and [sendStaging] takes
    the branch commented "handle full queue": it sets the flag to false and
    then waits at the receive that is to "remove the oldest request", of
    which there is none.  Nothing is taken off the queue, and the send that
    is to "push the new request" is never reached: the call does not
    enqueue.  So it is for every manager whose queue is empty and every
    request.  The test [len < 100] is the wrong way round for what the
    comments say. *)
Lemma sendStaging_empty_queue_waits :
  (length (chanBuf (PendingRequests exampleMgr)) < 100)%nat /\
  sendStaging exampleMgr examplePending =
    BlockedOnReceive (set_pingManager (Manger.Set_ false (pingManager exampleMgr)) exampleMgr) /\
  (forall reqMgr' logged, sendStaging exampleMgr examplePending <> Enqueued reqMgr' logged) /\
  (forall reqMgr sendReq,
     chanBuf (PendingRequests reqMgr) = [] ->
     sendStaging reqMgr sendReq =
       BlockedOnReceive (set_pingManager (Manger.Set_ false (pingManager reqMgr)) reqMgr)).
Proof.
  split; [simpl; lia|]. split; [reflexivity|]. split.
  - intros reqMgr' logged. discriminate.
  - intros reqMgr sendReq Hq. unfold sendStaging, chanRecv.
    cbn [PendingRequests set_pingManager]. rewrite Hq. reflexivity.
Qed.

(** C2 as worded fails in two ways.  The cache has no entry for [PROD1]:
    the wording forwards both inbound cookies, the code none.  And with an
    entry for [PROD1] whose [sessionKey] is empty, the wording forwards the
    inbound [sessionKey=PROD1], the code drops that cookie. *)
Lemma buildForwardRequest_cookies_not_as_worded :
  (Request.Cookies <$>
     (buildForwardRequest (H := exampleLib) exampleMgr exampleReq "PROD1" None).1 = Some [] /\
   specCookies (H := exampleLib) (CacheData exampleMgr !! "PROD1") (Request.Cookies exampleReq)
     = [exampleCookie "sessionKey" "PROD1"; exampleCookie "theme" "dark"]) /\
  (Request.Cookies <$>
     (buildForwardRequest (H := exampleLib) exampleMgrNoSession exampleReq "PROD1" None).1
     = Some [exampleCookie "theme" "dark"] /\
   specCookies (H := exampleLib) (CacheData exampleMgrNoSession !! "PROD1")
     (Request.Cookies exampleReq)
     = [exampleCookie "sessionKey" "PROD1"; exampleCookie "theme" "dark"]).
Proof.
  repeat split; vm_compute; reflexivity.
Qed.


(** C8 as worded fails for the random integer 1 at the clock reading 1: the
    prefix is ["2-"], from the sum, and not ["0-"], from the exclusive or. *)
Lemma Init_prefix_is_a_sum :
  forwardPrefix (Init exampleMgr 1 1) = "2-" /\
  specPrefix 1 1 = "0-" /\
  forwardPrefix (Init exampleMgr 1 1) <> specPrefix 1 1.
Proof.
  split; [reflexivity|]. split; [reflexivity|]. discriminate.
Qed.

(** * More of the engine *)

(** ** The priority queue *)

Lemma insert_timeAt (h : tokenExpirationQueue) (pos k : nat) (x : tokenExpiration) :
  (pos < length h)%nat ->
  timeAt (<[pos := x]> h) k = if decide (k = pos) then time x else timeAt h k.
Proof.
  intros Hp. unfold timeAt. rewrite list_lookup_insert.
  repeat case_decide; subst; try reflexivity; lia.
Qed.

Lemma heapOrdered_root_min (h : tokenExpirationQueue) (k : nat) :
  heapOrdered h -> (k < length h)%nat -> timeAt h 0 <= timeAt h k.
Proof.
  intros Ho. induction k as [k IH] using lt_wf_ind. intros Hk.
  destruct k as [|k]; [lia|].
  pose proof (Ho (S k) ltac:(lia)) as Hp.
  assert (Hlt : ((S k - 1) / 2 < S k)%nat) by lia.
  pose proof (IH _ Hlt ltac:(lia)). lia.
Qed.

(** If no child is earlier than the element at [i], [down] leaves the queue
    as it is. *)
Lemma down_go_stay (fuel : nat) (h : tokenExpirationQueue) (i : nat) :
  (forall c : nat, (0 < c < length h)%nat -> ((c - 1) / 2)%nat = i ->
     timeAt h i <= timeAt h c) ->
  down_go fuel h i (length h) = (h, i).
Proof.
  intros Hc. destruct fuel as [|fuel]; [reflexivity|]. cbn [down_go].
  destruct (Nat.leb_spec (length h) (2 * i + 1)) as [Hleaf|Hchild]; [reflexivity|].
  set (j := if ((2 * i + 1 + 1 <? length h)%nat && Less h (2 * i + 1 + 1) (2 * i + 1))
            then (2 * i + 1 + 1)%nat else (2 * i + 1)%nat).
  assert (Hj : (0 < j < length h)%nat /\ ((j - 1) / 2)%nat = i).
  { subst j. destruct (Nat.ltb_spec (2 * i + 1 + 1) (length h));
      cbn [andb]; [destruct (Less h _ _)|]; lia. }
  destruct Hj as [Hjr Hjp]. clearbody j.
  rewrite (Less_timeAt h j i) by lia.
  pose proof (Hc j Hjr Hjp).
  destruct (Z.ltb_spec (timeAt h j) (timeAt h i)); [lia|reflexivity].
Qed.

(** [down] moves the element towards the leaves or not at all. *)
Lemma down_go_moved (fuel : nat) (h : tokenExpirationQueue) (i n : nat) :
  (i <= (down_go fuel h i n).2)%nat /\
  ((down_go fuel h i n).2 = i -> (down_go fuel h i n).1 = h).
Proof.
  revert h i. induction fuel as [|fuel IH]; intros h i; cbn [down_go].
  - cbn [fst snd]. auto.
  - destruct (n <=? 2 * i + 1)%nat; [cbn [fst snd]; auto|].
    set (j := if ((2 * i + 1 + 1 <? n)%nat && Less h (2 * i + 1 + 1) (2 * i + 1))
              then (2 * i + 1 + 1)%nat else (2 * i + 1)%nat).
    assert (Hj : (i < j)%nat) by (subst j; destruct (_ && _); lia).
    clearbody j.
    destruct (negb (Less h j i)); [cbn [fst snd]; auto|].
    destruct (IH (Swap h i j) j) as [Hle _]. split; lia.
Qed.

Lemma heapOrdered_orderedButAbove (h : tokenExpirationQueue) (k : nat) :
  heapOrdered h -> orderedButAbove h k.
Proof.
  intros Ho. split.
  - intros j Hj _. now apply Ho.
  - intros j Hj Hp Hk. pose proof (Ho j Hj) as H1. rewrite Hp in H1.
    pose proof (Ho k ltac:(lia)). lia.
Qed.

(** [update] of the element at any position of a heap: the call returns,
    and the queue is a heap again, of the same elements but the updated
    one. *)
Lemma update_any_heap (h : tokenExpirationQueue) (pos : nat) (item : tokenExpiration)
    (tok : string) (tm : Z) :
  heapOrdered h -> indexed h -> h !! pos = Some item ->
  exists h',
    update h pos tok tm = Some h' /\
    heapOrdered h' /\ indexed h' /\ length h' = length h /\
    entries h' ≡ₚ <[pos := (tm, tok)]> (entries h).
Proof.
  intros Ho Hi Hitem.
  assert (Hpos : (pos < length h)%nat) by (eapply lookup_lt_Some; eauto).
  assert (Hidx : index item = pos) by (now apply Hi).
  unfold update. rewrite Hitem. cbn [mbind option_bind]. rewrite Hidx.
  set (h1 := <[pos := mkTokenExpiration tm tok pos]> h).
  assert (Hlen1 : length h1 = length h) by (subst h1; apply length_insert).
  assert (Hi1 : indexed h1).
  { intros k x Hk. subst h1. apply list_lookup_insert_Some in Hk
      as [(<- & <- & _)|[_ Hk]]; [reflexivity|eauto]. }
  assert (He1 : entries h1 = <[pos := (tm, tok)]> (entries h)).
  { subst h1. unfold entries. now rewrite list_fmap_insert. }
  assert (Ht1 : forall k, timeAt h1 k = if decide (k = pos) then tm else timeAt h k).
  { intros k. subst h1. now rewrite insert_timeAt. }
  assert (Hold : forall c : nat, (0 < c < length h)%nat -> ((c - 1) / 2)%nat = pos ->
                   timeAt h pos <= timeAt h c).
  { intros c Hc Hp. pose proof (Ho c Hc) as H1. now rewrite Hp in H1. }
  unfold heap_Fix, down.
  destruct (down_go (length h1) h1 pos (length h1)) as [h2 i2] eqn:Hdown.
  pose proof (down_go_keeps (length h1) h1 pos (length h1)) as (Hl2 & Hi2 & He2).
  pose proof (down_go_moved (length h1) h1 pos (length h1)) as (Hge & Hsame).
  rewrite Hdown in Hl2, Hi2, He2, Hge, Hsame. cbn [fst snd] in *.
  destruct (up_go_keeps (S pos) h2 pos) as (Hl3 & Hi3 & He3).
  assert (Hfinish : forall h3, h3 = h2 \/ h3 = up h2 pos ->
            heapOrdered h3 ->
            heapOrdered h3 /\ indexed h3 /\ length h3 = length h /\
            entries h3 ≡ₚ <[pos := (tm, tok)]> (entries h)).
  { intros h3 [-> | ->] Ho3; (split; [exact Ho3|]).
    - split; [auto|]. split; [lia|]. now rewrite He2, He1.
    - unfold up in *. split; [auto|]. split; [lia|]. now rewrite He3, He2, He1. }
  destruct (decide (pos = 0%nat \/ timeAt h ((pos - 1) / 2) <= tm)) as [Habove|Hbelow].
  - (* not earlier than the parent: [down] puts the queue in order *)
    assert (Ho2 : heapOrdered h2).
    { pose proof (down_go_ordered (length h1) h1 pos) as Hd.
      rewrite Hdown in Hd. apply Hd; [|lia|lia].
      split.
      - intros j Hj Hp. rewrite !Ht1. rewrite Hlen1 in Hj.
        pose proof (Ho j Hj). repeat case_decide; subst; lia.
      - intros j Hj Hp H0. rewrite !Ht1. rewrite Hlen1 in Hj.
        pose proof (Hold j Hj Hp). pose proof (Ho pos ltac:(lia)).
        repeat case_decide; subst; lia. }
    destruct (Nat.ltb_spec pos i2).
    + eexists; split; [reflexivity|]. apply Hfinish; auto.
    + replace ((pos <? length h1)%nat) with true by (symmetry; apply Nat.ltb_lt; lia).
      eexists; split; [reflexivity|]. apply Hfinish; [auto|].
      unfold up. apply up_go_ordered; [|lia|lia].
      now apply heapOrdered_orderedButAbove.
  - (* earlier than the parent: [down] does nothing, [up] puts it in order *)
    assert (Hp0 : (0 < pos)%nat /\ tm < timeAt h ((pos - 1) / 2)).
    { split; [destruct pos; [tauto|lia]|]. destruct (Z.lt_ge_cases tm (timeAt h ((pos - 1) / 2))); tauto. }
    destruct Hp0 as [Hp0 Hlt].
    pose proof (Ho pos ltac:(lia)) as Hpar.
    rewrite down_go_stay in Hdown.
    2:{ intros c Hc Hp. rewrite !Ht1. rewrite Hlen1 in Hc.
        pose proof (Hold c Hc Hp). repeat case_decide; subst; lia. }
    injection Hdown as <- <-.
    rewrite Nat.ltb_irrefl.
    replace ((pos <? length h1)%nat) with true by (symmetry; apply Nat.ltb_lt; lia).
    eexists; split; [reflexivity|]. apply Hfinish; [auto|].
    unfold up. apply up_go_ordered; [|lia|lia].
    split.
    + intros j Hj Hne. rewrite !Ht1. rewrite Hlen1 in Hj.
      pose proof (Ho j Hj) as H1. pose proof (Hold j Hj) as H2.
      repeat case_decide; lia.
    + intros j Hj Hp _. rewrite !Ht1. rewrite Hlen1 in Hj.
      pose proof (Hold j Hj Hp).
      repeat case_decide; subst; lia.
Qed.

Lemma exampleHeap_heap : heapOrdered exampleHeap /\ indexed exampleHeap.
Proof.
  split.
  - intros j Hj. simpl in Hj.
    destruct j as [|[|[|j]]]; try lia; vm_compute; discriminate.
  - intros k x Hk.
    destruct k as [|[|[|k]]]; simpl in Hk; try discriminate;
      now injection Hk as <-.
Qed.

(** X1. [Swap] of two positions of the queue exchanges the two elements and
    writes each position into the [index] of the element that arrives
    there; every other position is untouched.  So the queue has the same
    elements, and if every element knew its position before, it does
    after. *)
Theorem Swap_exchanges (teq : tokenExpirationQueue) (i j : nat) (a b : tokenExpiration) :
  teq !! i = Some a -> teq !! j = Some b ->
  Swap teq i j !! j = Some (mkTokenExpiration (time a) (token a) j) /\
  (i <> j -> Swap teq i j !! i = Some (mkTokenExpiration (time b) (token b) i)) /\
  (forall k : nat, k <> i -> k <> j -> Swap teq i j !! k = teq !! k) /\
  length (Swap teq i j) = length teq /\
  entries (Swap teq i j) ≡ₚ entries teq /\
  (indexed teq -> indexed (Swap teq i j)).
Proof.
  intros Ha Hb.
  split; [|split; [|split; [|split; [|split]]]].
  - rewrite (Swap_lookup teq i j j a b Ha Hb). now rewrite decide_True.
  - intros Hne. rewrite (Swap_lookup teq i j i a b Ha Hb).
    rewrite decide_False by assumption. now rewrite decide_True.
  - intros k Hi Hj. rewrite (Swap_lookup teq i j k a b Ha Hb).
    now rewrite !decide_False by assumption.
  - apply Swap_length.
  - apply Swap_entries.
  - apply Swap_indexed.
Qed.

Lemma Swap_exchanges_witness :
  Swap exampleHeap 0 2 !! 2%nat = Some (mkTokenExpiration 1 "a" 2) /\
  Swap exampleHeap 0 2 !! 0%nat = Some (mkTokenExpiration 3 "c" 0) /\
  Swap exampleHeap 0 2 !! 1%nat = exampleHeap !! 1%nat /\
  indexed (Swap exampleHeap 0 2).
Proof.
  destruct (Swap_exchanges exampleHeap 0 2 (mkTokenExpiration 1 "a" 0)
              (mkTokenExpiration 3 "c" 2) eq_refl eq_refl)
    as (H2 & H0 & Hk & _ & _ & Hi).
  split; [exact H2|]. split; [apply H0; lia|]. split; [apply Hk; lia|].
  apply Hi, exampleHeap_heap.
Defined.

(** X2. [heap.Push] of an element onto a queue that is a min-heap whose
    elements know their positions gives such a queue again, one longer and
    with the new element added; its root has the earliest time of all. *)
Theorem heap_Push_keeps_heap (teq : tokenExpirationQueue) (x : tokenExpiration) :
  heapOrdered teq -> indexed teq ->
  heapOrdered (heap_Push teq x) /\ indexed (heap_Push teq x) /\
  length (heap_Push teq x) = S (length teq) /\
  entries (heap_Push teq x) ≡ₚ (time x, token x) :: entries teq /\
  (forall k : nat, (k < S (length teq))%nat ->
     timeAt (heap_Push teq x) 0 <= timeAt (heap_Push teq x) k) /\
  timeAt (heap_Push teq x) 0 <= time x.
Proof.
  intros Ho Hi.
  destruct (heap_Push_heap teq x Ho Hi) as (Ho' & Hi' & He).
  assert (Hlen : length (heap_Push teq x) = S (length teq)).
  { apply Permutation_length in He. unfold entries in He.
    rewrite length_fmap in He. simpl in He. now rewrite length_fmap in He. }
  split; [exact Ho'|]. split; [exact Hi'|]. split; [exact Hlen|]. split; [exact He|].
  assert (Hmin : forall k : nat, (k < S (length teq))%nat ->
            timeAt (heap_Push teq x) 0 <= timeAt (heap_Push teq x) k).
  { intros k Hk. apply heapOrdered_root_min; [exact Ho'|lia]. }
  split; [exact Hmin|].
  assert (Hin : (time x, token x) ∈ entries (heap_Push teq x)).
  { rewrite He. apply list_elem_of_here. }
  unfold entries in Hin. apply list_elem_of_fmap in Hin as (y & Hy & Hyin).
  apply list_elem_of_lookup in Hyin as [k Hk].
  pose proof (lookup_lt_Some _ _ _ Hk) as Hklt.
  specialize (Hmin k ltac:(lia)).
  unfold timeAt in Hmin at 2. rewrite Hk in Hmin. simpl in Hmin.
  injection Hy as Ht _. lia.
Qed.

Lemma heap_Push_keeps_heap_witness :
  heapOrdered (heap_Push exampleHeap (mkTokenExpiration 0 "d" 0)) /\
  indexed (heap_Push exampleHeap (mkTokenExpiration 0 "d" 0)) /\
  timeAt (heap_Push exampleHeap (mkTokenExpiration 0 "d" 0)) 0 <= 0.
Proof.
  destruct (heap_Push_keeps_heap exampleHeap (mkTokenExpiration 0 "d" 0)
              (proj1 exampleHeap_heap) (proj2 exampleHeap_heap))
    as (Ho & Hi & _ & _ & _ & Hroot).
  auto.
Defined.

(** X3. [update] of an element of a queue that is a min-heap whose elements
    know their positions, at any position and to any token and time: the
    call returns, and the queue is such a heap again, of the same length,
    with the elements it had except that the updated one has its new token
    and time; the root has the earliest time. *)
Theorem update_keeps_heap (teq : tokenExpirationQueue) (pos : nat)
    (item : tokenExpiration) (tok : string) (tm : Z) :
  heapOrdered teq -> indexed teq -> teq !! pos = Some item ->
  exists teq',
    update teq pos tok tm = Some teq' /\
    heapOrdered teq' /\ indexed teq' /\ length teq' = length teq /\
    entries teq' ≡ₚ <[pos := (tm, tok)]> (entries teq) /\
    forall k : nat, (k < length teq)%nat -> timeAt teq' 0 <= timeAt teq' k.
Proof.
  intros Ho Hi Hitem.
  destruct (update_any_heap teq pos item tok tm Ho Hi Hitem)
    as (teq' & Hu & Ho' & Hi' & Hl & He).
  exists teq'. repeat (split; [assumption|]).
  intros k Hk. apply heapOrdered_root_min; [exact Ho'|lia].
Qed.

Lemma update_keeps_heap_witness :
  exists teq',
    update exampleHeap 0 "a" 10 = Some teq' /\
    heapOrdered teq' /\ indexed teq' /\
    entries teq' ≡ₚ [(10, "a"); (5, "b"); (3, "c")].
Proof.
  destruct (update_keeps_heap exampleHeap 0 (mkTokenExpiration 1 "a" 0) "a" 10
              (proj1 exampleHeap_heap) (proj2 exampleHeap_heap) eq_refl)
    as (teq' & Hu & Ho & Hi & _ & He & _).
  exists teq'. auto.
Defined.

(** ** The session-identity cache *)

Lemma heap_Fix_length (h h' : tokenExpirationQueue) (i : nat) :
  heap_Fix h i = Some h' -> length h' = length h.
Proof.
  unfold heap_Fix, down.
  pose proof (down_go_keeps (length h) h i (length h)) as (Hl & _).
  destruct (down_go (length h) h i (length h)) as [h1 i1]. cbn [fst] in Hl.
  destruct (up_go_keeps (S i) h1 i) as (Hl2 & _).
  destruct (i <? i1)%nat; [intros [= <-]; exact Hl|].
  destruct (_ || _); [|discriminate]. intros [= <-]. unfold up. lia.
Qed.

Lemma update_length (teq teq' : tokenExpirationQueue) (pos : nat) tok tm :
  update teq pos tok tm = Some teq' -> length teq' = length teq.
Proof.
  unfold update. destruct (teq !! pos) as [item|]; [|discriminate].
  cbn [mbind option_bind]. intros Hf. apply heap_Fix_length in Hf.
  now rewrite length_insert in Hf.
Qed.

Lemma heap_Push_length (h : tokenExpirationQueue) (x : tokenExpiration) :
  length (heap_Push h x) = S (length h).
Proof.
  pose proof (heap_Push_entries h x) as He. apply Permutation_length in He.
  unfold entries in He. rewrite length_fmap in He. simpl in He.
  now rewrite length_fmap in He.
Qed.

Section CacheMore.
Context `{GoLib}.

Lemma addExpiration_length (cache : gmap string StagKeys.t)
    (teq teq' : tokenExpirationQueue) (prodSessionKey : string)
    (prodKeyExpiration tNow : Z) :
  addExpiration cache teq prodSessionKey prodKeyExpiration tNow = Some teq' ->
  (length teq <= length teq' <= S (length teq))%nat.
Proof.
  unfold addExpiration. destruct (canReuse cache teq prodSessionKey tNow)
    as [[reUseItem teq1]|] eqn:Hc; [|discriminate].
  cbn [mbind option_bind].
  assert (Hl1 : length teq1 = length teq /\ (reUseItem = true -> teq1 = teq)).
  { unfold canReuse in Hc. destruct teq as [|item rest]; [now injection Hc as <- <-|].
    destruct (String.eqb _ _); [now injection Hc as <- <-|].
    destruct (_ <=? _); [|now injection Hc as <- <-].
    destruct (cache !! token item) as [firstKey|]; [|now injection Hc as <- <-].
    destruct (_ <=? _); [now injection Hc as <- <-|].
    destruct (update (item :: rest) 0 _ _) as [teq2|] eqn:Hu; [|discriminate].
    cbn [mbind option_bind] in Hc. injection Hc as <- <-.
    apply update_length in Hu. split; [exact Hu|discriminate]. }
  destruct Hl1 as [Hl1 _].
  destruct reUseItem.
  - intros Hu. apply update_length in Hu. lia.
  - intros [= <-]. rewrite heap_Push_length. lia.
Qed.

(** X4. A call of [cacheResponse] that returns leaves alone what it is not
    about: the cache entries of all other keys, the URLs, the liveness flag,
    the options, the id counter and prefix and the pending queue.  The heap
    keeps its length or grows by one, and if the key was already in the
    cache the heap is not touched at all. *)
Theorem cacheResponse_frame (reqMgr reqMgr' : RequestManager) (prodSessionKey : string)
    (resp : Response.t) (prodKeyExpiration now1 now2 : Z) :
  cacheResponse reqMgr prodSessionKey resp prodKeyExpiration now1 now2 = Some reqMgr' ->
  (forall k : string, k <> prodSessionKey ->
     CacheData reqMgr' !! k = CacheData reqMgr !! k) /\
  UrlProduction reqMgr' = UrlProduction reqMgr /\
  UrlStaging reqMgr' = UrlStaging reqMgr /\
  pingManager reqMgr' = pingManager reqMgr /\
  testOptions reqMgr' = testOptions reqMgr /\
  cacheId reqMgr' = cacheId reqMgr /\
  forwardPrefix reqMgr' = forwardPrefix reqMgr /\
  PendingRequests reqMgr' = PendingRequests reqMgr /\
  (length (tokensExpirationList reqMgr) <= length (tokensExpirationList reqMgr')
     <= S (length (tokensExpirationList reqMgr)))%nat /\
  (is_Some (CacheData reqMgr !! prodSessionKey) ->
   tokensExpirationList reqMgr' = tokensExpirationList reqMgr).
Proof.
  assert (Hdone : forall (cache : gmap string StagKeys.t) (teq : tokenExpirationQueue),
            (forall k : string, k <> prodSessionKey ->
               cache !! k = CacheData reqMgr !! k) ->
            (length (tokensExpirationList reqMgr) <= length teq
               <= S (length (tokensExpirationList reqMgr)))%nat ->
            (is_Some (CacheData reqMgr !! prodSessionKey) ->
             teq = tokensExpirationList reqMgr) ->
            reqMgr' = set_tokensExpirationList teq (set_CacheData cache reqMgr) ->
            (forall k : string, k <> prodSessionKey ->
               CacheData reqMgr' !! k = CacheData reqMgr !! k) /\
            UrlProduction reqMgr' = UrlProduction reqMgr /\
            UrlStaging reqMgr' = UrlStaging reqMgr /\
            pingManager reqMgr' = pingManager reqMgr /\
            testOptions reqMgr' = testOptions reqMgr /\
            cacheId reqMgr' = cacheId reqMgr /\
            forwardPrefix reqMgr' = forwardPrefix reqMgr /\
            PendingRequests reqMgr' = PendingRequests reqMgr /\
            (length (tokensExpirationList reqMgr) <= length (tokensExpirationList reqMgr')
               <= S (length (tokensExpirationList reqMgr)))%nat /\
            (is_Some (CacheData reqMgr !! prodSessionKey) ->
             tokensExpirationList reqMgr' = tokensExpirationList reqMgr)).
  { intros cache teq Hc Hl Ht ->. cbn. auto 12. }
  unfold cacheResponse.
  destruct (_ || _).
  { intros [= <-]. apply (Hdone (CacheData reqMgr) (tokensExpirationList reqMgr));
      [auto|lia|auto|now destruct reqMgr]. }
  destruct (CacheData reqMgr !! prodSessionKey) as [k0|] eqn:Hk0.
  - destruct (scanCookies k0 _) as [[stagKey1 sExp] sMax].
    destruct (isLogout _ _ _ _); intros [= <-].
    + apply (Hdone (delete prodSessionKey (CacheData reqMgr)) (tokensExpirationList reqMgr));
        [|lia|auto|now destruct reqMgr].
      intros k Hk. now rewrite lookup_delete_ne.
    + apply (Hdone (<[prodSessionKey:=checkExpiration stagKey1 prodKeyExpiration now1]>
                      (CacheData reqMgr)) (tokensExpirationList reqMgr));
        [|lia|auto|now destruct reqMgr].
      intros k Hk. now rewrite lookup_insert_ne.
  - destruct (scanCookies StagKeys.zero _) as [[stagKey1 sExp] sMax].
    destruct (isLogout _ _ _ _).
    + intros [= <-].
      apply (Hdone (delete prodSessionKey (CacheData reqMgr)) (tokensExpirationList reqMgr));
        [|lia|auto|now destruct reqMgr].
      intros k Hk. now rewrite lookup_delete_ne.
    + destruct (addExpiration _ _ _ _ _) as [teq'|] eqn:Ha; [|discriminate].
      cbn [mbind option_bind]. intros [= <-].
      apply addExpiration_length in Ha.
      apply (Hdone (<[prodSessionKey:=checkExpiration stagKey1 prodKeyExpiration now1]>
                      (CacheData reqMgr)) teq'); [|lia| |reflexivity].
      * intros k Hk. now rewrite lookup_insert_ne.
      * intros [x Hx]. discriminate.
Qed.

(** X5. The expiration that [cacheResponse] stores.  When a call with a key
    that is not empty and a status below 400 returns and leaves an entry
    under the key, the expiration of that entry is the production
    expiration if that is not 0; otherwise it is the expiration the key had
    in the cache before, if it had one that is not 0; otherwise it is 20
    minutes after the clock reading.  With a clock reading that is not
    before 1970 and no expiration of 0 coming in, it is never 0. *)
Theorem cacheResponse_expiration (reqMgr reqMgr' : RequestManager)
    (prodSessionKey : string) (resp : Response.t) (prodKeyExpiration now1 now2 : Z)
    (e : StagKeys.t) :
  prodSessionKey <> "" ->
  Response.StatusCode resp < 400 ->
  cacheResponse reqMgr prodSessionKey resp prodKeyExpiration now1 now2 = Some reqMgr' ->
  CacheData reqMgr' !! prodSessionKey = Some e ->
  let before := StagKeys.Expiration
                  (default StagKeys.zero (CacheData reqMgr !! prodSessionKey)) in
  StagKeys.Expiration e =
    (if prodKeyExpiration =? 0
     then if before =? 0 then UnixMs now1 + 1200000 else before
     else prodKeyExpiration) /\
  (0 <= now1 -> StagKeys.Expiration e <> 0).
Proof.
  intros Hkey Hstatus Hc He before.
  unfold cacheResponse in Hc.
  replace (String.eqb prodSessionKey "" || (400 <=? Response.StatusCode resp))
    with false in Hc.
  2:{ symmetry. apply orb_false_iff; split;
      [now apply String.eqb_neq | apply Z.leb_gt; lia]. }
  assert (Hscan : forall k cookies,
            StagKeys.Expiration (scanCookies k cookies).1.1 = StagKeys.Expiration k).
  { intros k cookies. unfold scanCookies.
    assert (Hgen : forall acc, StagKeys.Expiration (fold_left scanCookie cookies acc).1.1
                               = StagKeys.Expiration acc.1.1).
    { induction cookies as [|cc cookies IH]; intros acc; [reflexivity|].
      cbn [fold_left]. rewrite IH. destruct acc as [[k1 x] y].
      unfold scanCookie. repeat case_match; reflexivity. }
    apply Hgen. }
  assert (Hrule : forall k, StagKeys.Expiration (checkExpiration k prodKeyExpiration now1) =
            (if prodKeyExpiration =? 0
             then if StagKeys.Expiration k =? 0 then UnixMs now1 + 1200000
                  else StagKeys.Expiration k
             else prodKeyExpiration)).
  { intros k. unfold checkExpiration.
    destruct (Z.eqb_spec prodKeyExpiration 0) as [Hp|Hp];
      destruct (Z.eqb_spec (StagKeys.Expiration k) prodKeyExpiration) as [Hq|Hq];
      destruct (Z.eqb_spec (StagKeys.Expiration k) 0) as [Hr|Hr];
      cbn; try reflexivity; try lia; congruence. }
  assert (Hentry : exists k1,
            e = checkExpiration k1 prodKeyExpiration now1 /\
            StagKeys.Expiration k1 = before).
  { subst before.
    destruct (CacheData reqMgr !! prodSessionKey) as [k0|] eqn:Hk0; cbn [default from_option].
    - pose proof (Hscan k0 (Response.Cookies resp)) as Hs.
      destruct (scanCookies k0 _) as [[stagKey1 sExp] sMax]. cbn [fst] in Hs.
      destruct (isLogout _ _ _ _); injection Hc as <-; cbn in He.
      + rewrite lookup_delete_eq in He. discriminate.
      + rewrite lookup_insert_eq in He. injection He as <-. eauto.
    - pose proof (Hscan StagKeys.zero (Response.Cookies resp)) as Hs.
      destruct (scanCookies StagKeys.zero _) as [[stagKey1 sExp] sMax]. cbn [fst] in Hs.
      destruct (isLogout _ _ _ _).
      + injection Hc as <-; cbn in He. rewrite lookup_delete_eq in He. discriminate.
      + destruct (addExpiration _ _ _ _ _); [|discriminate].
        cbn [mbind option_bind] in Hc. injection Hc as <-; cbn in He.
        rewrite lookup_insert_eq in He. injection He as <-. eauto. }
  destruct Hentry as (k1 & -> & Hb). rewrite Hrule, Hb.
  split; [reflexivity|].
  intros Hnow.
  assert (0 <= UnixMs now1) by (unfold UnixMs; apply Z.quot_pos; lia).
  destruct (Z.eqb_spec prodKeyExpiration 0); [|assumption].
  destruct (Z.eqb_spec before 0); [lia|assumption].
Qed.

End CacheMore.

Lemma cacheResponse_frame_witness :
  exists reqMgr',
    cacheResponse (H := exampleLib) exampleMgrKnown "PROD2" exampleResp 2000
      exampleNow exampleNow = Some reqMgr' /\
    CacheData reqMgr' !! "PROD1" = Some (StagKeys.mk "STG1" "" "CT1" 5) /\
    PendingRequests reqMgr' = PendingRequests exampleMgrKnown.
Proof.
  eexists. split; [vm_compute; reflexivity|].
  refine ((fun Hf => conj _ (proj1 (proj2 (proj2 (proj2 (proj2 (proj2 (proj2 (proj2 Hf)))))))))
            (cacheResponse_frame (H := exampleLib) exampleMgrKnown _ "PROD2"
               exampleResp 2000 exampleNow exampleNow _)).
  - rewrite (proj1 Hf) by discriminate. reflexivity.
  - vm_compute. reflexivity.
Defined.

Lemma cacheResponse_expiration_witness :
  exists reqMgr' e,
    cacheResponse (H := exampleLib) exampleMgr "PROD2" exampleResp 0
      exampleNow exampleNow = Some reqMgr' /\
    CacheData reqMgr' !! "PROD2" = Some e /\
    StagKeys.Expiration e = UnixMs exampleNow + 1200000.
Proof.
  eexists _, _.
  split; [vm_compute; reflexivity|]. split; [vm_compute; reflexivity|].
  refine (proj1 (cacheResponse_expiration (H := exampleLib) exampleMgr _ "PROD2"
           exampleResp 0 exampleNow exampleNow _ _ _ _ _)).
  - discriminate.
  - simpl. lia.
  - vm_compute. reflexivity.
  - vm_compute. reflexivity.
Defined.

Section CacheCookies.
Context `{GoLib}.

Lemma scanCookies_snoc (stagKey : StagKeys.t) (cookies : list Cookie.t) (cc : Cookie.t) :
  scanCookies stagKey (cookies ++ [cc]) = scanCookie (scanCookies stagKey cookies) cc.
Proof. unfold scanCookies. now rewrite fold_left_app. Qed.

Lemma last_filter_snoc {A} (P : A -> bool) (l : list A) (x : A) :
  last (filter (fun y => P y) (l ++ [x])) =
  if P x then Some x else last (filter (fun y => P y) l).
Proof.
  rewrite filter_app, filter_cons, filter_nil.
  destruct (P x) eqn:Hx.
  - rewrite decide_True by done. apply last_snoc.
  - rewrite decide_False by (intros []). now rewrite app_nil_r.
Qed.

(** What the scan of the staging cookies leaves in each field. *)
Lemma scanCookies_fields (stagKey : StagKeys.t) (cookies : list Cookie.t) :
  let r := scanCookies stagKey cookies in
  StagKeys.csrfToken r.1.1 =
    from_option Cookie.Value (StagKeys.csrfToken stagKey)
      (last (filter (fun cc => isCsrfCookie cc) cookies)) /\
  StagKeys.sessionKey r.1.1 =
    from_option Cookie.Value (StagKeys.sessionKey stagKey)
      (last (filter (fun cc => isSessionCookie cc) cookies)) /\
  StagKeys.sessionTtl r.1.1 =
    from_option Cookie.Value (StagKeys.sessionTtl stagKey)
      (last (filter (fun cc => isTtlCookie cc) cookies)) /\
  StagKeys.Expiration r.1.1 = StagKeys.Expiration stagKey /\
  r.1.2 = from_option (fun cc => UnixMs (Cookie.Expires cc)) 0
            (last (filter (fun cc => isSessionCookie cc) cookies)) /\
  r.2 = from_option Cookie.MaxAge 0
          (last (filter (fun cc => isSessionCookie cc) cookies)).
Proof.
  induction cookies as [|cc cookies IH] using rev_ind.
  - cbn. repeat split; reflexivity.
  - cbn zeta in *. rewrite scanCookies_snoc, !last_filter_snoc.
    destruct (scanCookies stagKey cookies) as [[k e] m]. cbn [fst snd] in IH.
    destruct IH as (H1 & H2 & H3 & H4 & H5 & H6).
    unfold scanCookie, isSessionCookie, isTtlCookie, isCsrfCookie in *.
    destruct (EqualFold (Cookie.Name cc) "csrfToken");
      destruct (EqualFold (Cookie.Name cc) "sessionKey");
      destruct (EqualFold (Cookie.Name cc) "sessionTtl");
      cbn; repeat split; assumption || reflexivity.
Qed.

(** X6. In the scan of the staging cookies by [cacheResponse] the last
    cookie of a kind wins: each of the three token fields ends with the
    value of the last cookie that takes its branch, or keeps what it had if
    there is none; the captured [Expires] and [Max-Age] are those of the
    last [sessionKey] cookie, or 0; the expiration of the entry is not
    touched.  A response without such cookies changes nothing. *)
Theorem scanCookies_last_wins (stagKey : StagKeys.t) (cookies : list Cookie.t) :
  let r := scanCookies stagKey cookies in
  StagKeys.csrfToken r.1.1 =
    from_option Cookie.Value (StagKeys.csrfToken stagKey)
      (last (filter (fun cc => isCsrfCookie cc) cookies)) /\
  StagKeys.sessionKey r.1.1 =
    from_option Cookie.Value (StagKeys.sessionKey stagKey)
      (last (filter (fun cc => isSessionCookie cc) cookies)) /\
  StagKeys.sessionTtl r.1.1 =
    from_option Cookie.Value (StagKeys.sessionTtl stagKey)
      (last (filter (fun cc => isTtlCookie cc) cookies)) /\
  StagKeys.Expiration r.1.1 = StagKeys.Expiration stagKey /\
  r.1.2 = from_option (fun cc => UnixMs (Cookie.Expires cc)) 0
            (last (filter (fun cc => isSessionCookie cc) cookies)) /\
  r.2 = from_option Cookie.MaxAge 0
          (last (filter (fun cc => isSessionCookie cc) cookies)) /\
  ((forall cc, cc ∈ cookies ->
      isCsrfCookie cc = false /\ isSessionCookie cc = false /\ isTtlCookie cc = false) ->
   r = (stagKey, 0, 0)).
Proof.
  intros r. pose proof (scanCookies_fields stagKey cookies) as Hf.
  cbn zeta in Hf. fold r in Hf.
  destruct Hf as (H1 & H2 & H3 & H4 & H5 & H6).
  repeat (split; [assumption|]).
  intros Hnone.
  assert (Hempty : forall P : Cookie.t -> bool,
            (forall cc, cc ∈ cookies -> P cc = false) ->
            filter (fun cc => P cc) cookies = []).
  { intros P. clear. induction cookies as [|cc cookies IH]; intros HP; [reflexivity|].
    rewrite filter_cons, decide_False.
    - apply IH. intros c Hc. apply HP. now apply list_elem_of_further.
    - rewrite HP by apply list_elem_of_here. intros []. }
  rewrite Hempty in H1 by (intros cc Hcc; apply Hnone, Hcc).
  rewrite Hempty in H2, H5, H6 by (intros cc Hcc; apply Hnone, Hcc).
  rewrite Hempty in H3 by (intros cc Hcc; apply Hnone, Hcc).
  cbn in *.
  destruct r as [[k e] m]. cbn [fst snd] in *. subst e m.
  f_equal. f_equal. destruct k, stagKey. cbn in *. congruence.
Qed.

End CacheCookies.

Lemma scanCookies_last_wins_witness :
  StagKeys.csrfToken
    (scanCookies (H := exampleLib) StagKeys.zero
       [exampleCookie "csrfToken" "A"; exampleCookie "SESSIONKEY" "S1";
        exampleCookie "CsrfToken" "B"]).1.1 = "B" /\
  scanCookies (H := exampleLib) (StagKeys.mk "STG1" "" "CT1" 5)
    [exampleCookie "theme" "dark"] = (StagKeys.mk "STG1" "" "CT1" 5, 0, 0).
Proof.
  split.
  - rewrite (proj1 (scanCookies_last_wins (H := exampleLib) StagKeys.zero _)).
    reflexivity.
  - apply (scanCookies_last_wins (H := exampleLib) (StagKeys.mk "STG1" "" "CT1" 5)
             [exampleCookie "theme" "dark"]).
    intros cc Hcc. apply list_elem_of_singleton in Hcc as ->.
    repeat split; reflexivity.
Defined.

Section RoundTrip.
Context `{GoLib}.

Lemma fixCookie_session (k : StagKeys.t) (c : Cookie.t) :
  isSessionCookie c = true -> fixCookie k c = Cookie.setValue (StagKeys.sessionKey k) c.
Proof.
  unfold isSessionCookie, isCsrfCookie, fixCookie.
  destruct (EqualFold (Cookie.Name c) "csrfToken"); [discriminate|].
  destruct (EqualFold (Cookie.Name c) "sessionKey"); [reflexivity|discriminate].
Qed.

(** What [cacheResponse] leaves under the key when the scan ends with a
    staging session key. *)
Lemma cacheResponse_retains (reqMgr reqMgr' : RequestManager) (prodSessionKey : string)
    (resp : Response.t) (prodKeyExpiration now1 now2 : Z) :
  prodSessionKey <> "" ->
  Response.StatusCode resp < 400 ->
  let scanned :=
    scanCookies (default StagKeys.zero (CacheData reqMgr !! prodSessionKey))
      (Response.Cookies resp) in
  StagKeys.sessionKey scanned.1.1 <> "" ->
  cacheResponse reqMgr prodSessionKey resp prodKeyExpiration now1 now2 = Some reqMgr' ->
  CacheData reqMgr' !! prodSessionKey =
    Some (checkExpiration scanned.1.1 prodKeyExpiration now1).
Proof.
  intros Hkey Hstatus scanned Hs Hc. unfold cacheResponse in Hc.
  replace (String.eqb prodSessionKey "" || (400 <=? Response.StatusCode resp))
    with false in Hc.
  2:{ symmetry. apply orb_false_iff; split;
      [now apply String.eqb_neq | apply Z.leb_gt; lia]. }
  assert (Hlog : forall k e m t, StagKeys.sessionKey k <> "" ->
            isLogout (checkExpiration k prodKeyExpiration now1) e m t = false).
  { intros k e m t Hk. unfold isLogout. rewrite checkExpiration_sessionKey.
    apply andb_false_iff. left. now apply String.eqb_neq. }
  subst scanned.
  destruct (CacheData reqMgr !! prodSessionKey) as [k0|];
    cbn [default from_option] in *; unfold id in *.
  - destruct (scanCookies k0 _) as [[stagKey1 sExp] sMax]. cbn [fst] in *.
    rewrite Hlog in Hc by assumption. injection Hc as <-. cbn. apply lookup_insert_eq.
  - destruct (scanCookies StagKeys.zero _) as [[stagKey1 sExp] sMax]. cbn [fst] in *.
    rewrite Hlog in Hc by assumption.
    destruct (addExpiration _ _ _ _ _); [|discriminate].
    cbn [mbind option_bind] in Hc. injection Hc as <-. cbn. apply lookup_insert_eq.
Qed.

(** X7. What the cache learns is what the forwarder uses.  A staging
    response (status below 400) whose last [sessionKey] cookie has a value
    that is not empty is cached under a key that is not empty; then the
    cache holds that value as the staging session key of the key, and every
    request built afterwards for that key carries each inbound [sessionKey]
    cookie with that value. *)
Theorem learned_session_is_forwarded (reqMgr reqMgr' reqMgr'' : RequestManager)
    (prodSessionKey : string) (resp : Response.t) (prodKeyExpiration now1 now2 : Z)
    (cc : Cookie.t) (req stagReq : Request.t) (stagBody : option string) :
  prodSessionKey <> "" ->
  Response.StatusCode resp < 400 ->
  last (filter (fun c => isSessionCookie c) (Response.Cookies resp)) = Some cc ->
  Cookie.Value cc <> "" ->
  cacheResponse reqMgr prodSessionKey resp prodKeyExpiration now1 now2 = Some reqMgr' ->
  buildForwardRequest reqMgr' req prodSessionKey stagBody = (Some stagReq, reqMgr'') ->
  (exists e, CacheData reqMgr' !! prodSessionKey = Some e /\
             StagKeys.sessionKey e = Cookie.Value cc) /\
  forall c, c ∈ Request.Cookies req -> isSessionCookie c = true ->
    Cookie.setValue (Cookie.Value cc) c ∈ Request.Cookies stagReq.
Proof.
  intros Hkey Hstatus Hlast Hval Hc Hb.
  pose proof (scanCookies_fields
                (default StagKeys.zero (CacheData reqMgr !! prodSessionKey))
                (Response.Cookies resp)) as (_ & Hs & _).
  rewrite Hlast in Hs. cbn [from_option] in Hs.
  pose proof (cacheResponse_retains reqMgr reqMgr' prodSessionKey resp prodKeyExpiration
                now1 now2 Hkey Hstatus) as Hret.
  cbn zeta in Hret. rewrite Hs in Hret. specialize (Hret Hval Hc).
  set (e := checkExpiration _ prodKeyExpiration now1) in Hret.
  assert (He : StagKeys.sessionKey e = Cookie.Value cc).
  { subst e. now rewrite checkExpiration_sessionKey. }
  split; [eauto|].
  intros c Hin Hsess.
  apply buildForwardRequest_Some in Hb as (_ & _ & Hcookies).
  rewrite Hret in Hcookies. rewrite Hcookies, fixCookies_filter_map. cbn [app].
  apply list_elem_of_filter. split.
  - cbn. exact Hval.
  - apply list_elem_of_fmap. exists c. split; [|exact Hin].
    rewrite fixCookie_session by assumption. now rewrite He.
Qed.

End RoundTrip.

(** Boundary scenarios 3 and 2 in a row: the staging response sets
    [sessionKey=STG1] for [PROD2]; the next request of [PROD2] goes to
    staging with [sessionKey=STG1]. *)
Lemma learned_session_is_forwarded_witness :
  exists reqMgr' stagReq reqMgr'',
    cacheResponse (H := exampleLib) exampleMgr "PROD2" exampleResp 2000
      exampleNow exampleNow = Some reqMgr' /\
    buildForwardRequest (H := exampleLib) reqMgr' exampleReq "PROD2" None
      = (Some stagReq, reqMgr'') /\
    exampleCookie "sessionKey" "STG1" ∈ Request.Cookies stagReq.
Proof.
  eexists _, _, _.
  split; [vm_compute; reflexivity|]. split; [vm_compute; reflexivity|].
  refine (proj2 (learned_session_is_forwarded (H := exampleLib) exampleMgr _ _ "PROD2"
                   exampleResp 2000 exampleNow exampleNow
                   (Cookie.mk "sessionKey" "STG1" exampleDateNano 0)
                   exampleReq _ None _ _ _ _ _ _)
            (exampleCookie "sessionKey" "PROD1") _ _).
  - discriminate.
  - simpl. lia.
  - vm_compute. reflexivity.
  - discriminate.
  - vm_compute. reflexivity.
  - vm_compute. reflexivity.
  - apply list_elem_of_here.
  - reflexivity.
Defined.

(** ** Session keys of requests and responses *)

Lemma Split_no_sep (s : string) (sep : ascii) :
  hasByte sep s = false -> Split s sep = [s].
Proof.
  induction s as [|a s IH]; [reflexivity|]. cbn [hasByte Split].
  intros Hn. apply orb_false_iff in Hn as [Ha Hs].
  rewrite Ha, (IH Hs). reflexivity.
Qed.

Lemma Split_app_sep (x rest : string) (sep : ascii) :
  hasByte sep x = false ->
  Split (x +:+ String sep rest) sep = x :: Split rest sep.
Proof.
  induction x as [|a x IH]; intros Hn.
  - change ("" +:+ String sep rest) with (String sep rest).
    cbn [Split]. now rewrite Ascii.eqb_refl.
  - change (String a x +:+ String sep rest) with (String a (x +:+ String sep rest)).
    cbn [hasByte] in Hn. apply orb_false_iff in Hn as [Ha Hs].
    cbn [Split]. rewrite Ha, (IH Hs). reflexivity.
Qed.

Lemma hasByte_append (c : ascii) (s t : string) :
  hasByte c (s +:+ t) = hasByte c s || hasByte c t.
Proof.
  induction s as [|a s IH]; [reflexivity|].
  change (String a s +:+ t) with (String a (s +:+ t)). cbn [hasByte].
  now rewrite IH, orb_assoc.
Qed.

Lemma substring_append_l (s t : string) :
  substring 0 (String.length s) (s +:+ t) = s.
Proof. apply substring_prefix. now exists t. Qed.

Lemma substring_all (t : string) : substring 0 (String.length t) t = t.
Proof. induction t as [|b t IH]; [reflexivity|]. cbn. now rewrite IH. Qed.

Lemma substring_append_r (s t : string) :
  substring (String.length s) (String.length t) (s +:+ t) = t.
Proof.
  induction s as [|a s IH]; [apply substring_all|].
  change (String a s +:+ t) with (String a (s +:+ t)). cbn. apply IH.
Qed.

Lemma sliceFrom_append (s t : string) :
  sliceFrom (String.length s) (s +:+ t) = Some t.
Proof.
  unfold sliceFrom. rewrite length_append.
  destruct (Nat.leb_spec (String.length s) (String.length s + String.length t)); [|lia].
  replace (String.length s + String.length t - String.length s)%nat
    with (String.length t) by lia.
  now rewrite substring_append_r.
Qed.

Section SessionKeys.
Context `{GoLib}.

Lemma getRespSessionKey_skip (skipped rest : list string) :
  Forall (fun line => setsSessionKey line = false) skipped ->
  getRespSessionKey (skipped ++ rest) = getRespSessionKey rest.
Proof.
  induction 1 as [|line skipped Hl _ IH]; [reflexivity|].
  cbn [app getRespSessionKey]. unfold setsSessionKey in Hl. now rewrite Hl.
Qed.

Lemma findExpires_skip (before rest : list string) :
  Forall (fun tok => expiresOf tok = None) before ->
  findExpires (before ++ rest) = findExpires rest.
Proof.
  induction 1 as [|tok before Htok _ IH]; [reflexivity|].
  cbn [app findExpires]. unfold expiresOf in Htok.
  destruct ((8 <=? len (TrimSpace tok)) && EqualFold (substring 0 8 (TrimSpace tok)) "Expires=");
    [|exact IH].
  destruct (time_Parse_RFC1123 _); [discriminate|exact IH].
Qed.

Lemma findExpires_here (tok : string) (after : list string) (e : Z) :
  expiresOf tok = Some e -> findExpires (tok :: after) = Some e.
Proof.
  cbn [findExpires]. unfold expiresOf.
  destruct ((8 <=? len (TrimSpace tok)) && EqualFold (substring 0 8 (TrimSpace tok)) "Expires=");
    [|discriminate].
  destruct (time_Parse_RFC1123 _); [|discriminate].
  cbn. now intros [= <-].
Qed.

Lemma append_empty_r (s : string) : s +:+ "" = s.
Proof.
  induction s as [|a s IH]; [reflexivity|].
  change (String a s +:+ "") with (String a (s +:+ "")). now rewrite IH.
Qed.

Lemma Split_attrsLine (x : string) (toks : list string) :
  hasByte ";" x = false ->
  Forall (fun tok => hasByte ";" tok = false) toks ->
  Split (x +:+ attrsLine toks) ";" = x :: toks.
Proof.
  intros Hx Htoks. revert x Hx.
  induction Htoks as [|tok toks Htok _ IH]; intros x Hx; cbn [attrsLine].
  - rewrite append_empty_r. now apply Split_no_sep.
  - rewrite Split_app_sep by assumption. now rewrite IH.
Qed.

(** X8. [getRespSessionKey] returns the session key of the first
    [Set-Cookie] line whose first 11 bytes fold to [sessionKey=]: the bytes
    between these 11 and the first [;] of the line (all the rest of the
    line if it has none), whatever lines come after it.  The expiration is
    that of the first attribute after that [;] which, trimmed, is [Expires=]
    (folded) followed by a time that parses; attributes before it that are
    not of this kind, and all attributes after it, do not count.  It is 0
    if no attribute is of this kind.  Without such a line the result is the
    empty key and 0. *)
Theorem getRespSessionKey_first_line (skipped rest : list string) (name value : string) :
  Forall (fun line => setsSessionKey line = false) skipped ->
  String.length name = 11%nat ->
  EqualFold name "sessionKey=" = true ->
  hasByte ";" name = false ->
  hasByte ";" value = false ->
  getRespSessionKey skipped = Some ("", 0) /\
  getRespSessionKey (skipped ++ (name +:+ value) :: rest) = Some (value, 0) /\
  (forall attrs : string,
     getRespSessionKey (skipped ++ (name +:+ value +:+ String ";" attrs) :: rest) =
       Some (value, default 0 (findExpires (Split attrs ";")))) /\
  (forall (before after : list string) (tok : string) (e : Z),
     Forall (fun a => hasByte ";" a = false) (before ++ tok :: after) ->
     Forall (fun a => expiresOf a = None) before ->
     expiresOf tok = Some e ->
     getRespSessionKey
       (skipped ++ (name +:+ value +:+ attrsLine (before ++ tok :: after)) :: rest) =
       Some (value, e)) /\
  (forall toks : list string,
     Forall (fun a => hasByte ";" a = false) toks ->
     Forall (fun a => expiresOf a = None) toks ->
     getRespSessionKey (skipped ++ (name +:+ value +:+ attrsLine toks) :: rest) =
       Some (value, 0)).
Proof.
  intros Hskip Hlen Hfold Hname Hvalue.
  assert (Hline : forall tl : string,
            (11 <=? len (name +:+ tl)) &&
            EqualFold (substring 0 11 (name +:+ tl)) "sessionKey=" = true).
  { intros tl.
    replace (substring 0 11 (name +:+ tl)) with name
      by (rewrite <- Hlen; symmetry; apply substring_append_l).
    rewrite Hfold.
    unfold len. rewrite length_append, Hlen.
    destruct (Z.leb_spec 11 (Z.of_nat (11 + String.length tl))); [reflexivity|lia]. }
  assert (Hassoc : forall tl : string, name +:+ value +:+ tl = (name +:+ value) +:+ tl).
  { intros tl. clear. induction name as [|a name IH]; [reflexivity|].
    change (String a name +:+ value) with (String a (name +:+ value)).
    change (String a (name +:+ value) +:+ tl) with (String a ((name +:+ value) +:+ tl)).
    change (String a name +:+ value +:+ tl) with (String a (name +:+ value +:+ tl)).
    now rewrite IH. }
  assert (Hnv : hasByte ";" (name +:+ value) = false)
    by (now rewrite hasByte_append, Hname, Hvalue).
  assert (Htoks : forall toks : list string,
            Forall (fun a => hasByte ";" a = false) toks ->
            getRespSessionKey (skipped ++ (name +:+ value +:+ attrsLine toks) :: rest) =
              Some (value, default 0 (findExpires toks))).
  { intros toks Hno. rewrite getRespSessionKey_skip by assumption.
    cbn [getRespSessionKey]. rewrite Hline, Hassoc, Split_attrsLine by assumption.
    cbn [head tail default from_option]. unfold id.
    rewrite <- Hlen, sliceFrom_append. cbn [mbind option_bind].
    destruct (findExpires toks); reflexivity. }
  split; [|split; [|split; [|split]]].
  - rewrite <- (app_nil_r skipped). now rewrite getRespSessionKey_skip.
  - rewrite getRespSessionKey_skip by assumption. cbn [getRespSessionKey].
    rewrite Hline, Split_no_sep by assumption.
    cbn [head tail default from_option findExpires]. unfold id.
    rewrite <- Hlen, sliceFrom_append. reflexivity.
  - intros attrs. rewrite getRespSessionKey_skip by assumption.
    cbn [getRespSessionKey]. rewrite Hline, Hassoc.
    rewrite Split_app_sep by assumption.
    cbn [head tail default from_option]. unfold id.
    rewrite <- Hlen, sliceFrom_append. cbn [mbind option_bind].
    destruct (findExpires (Split attrs ";")); reflexivity.
  - intros before after tok e Hno Hbefore Htok.
    rewrite (Htoks _ Hno), (findExpires_skip _ _ Hbefore), (findExpires_here _ _ _ Htok).
    reflexivity.
  - intros toks Hno Hnone. rewrite (Htoks _ Hno).
    rewrite <- (app_nil_r toks), (findExpires_skip _ _ Hnone). reflexivity.
Qed.

(** X9. [getSessionKey] returns the value and the expiration of the first
    cookie whose name folds to [sessionKey], whatever cookies come after
    it, and the empty key and 0 if there is no such cookie. *)
Theorem getSessionKey_first_cookie (before after : list Cookie.t) (cookie : Cookie.t) :
  Forall (fun c => EqualFold (Cookie.Name c) "sessionKey" = false) before ->
  getSessionKey before = ("", 0) /\
  (EqualFold (Cookie.Name cookie) "sessionKey" = true ->
   getSessionKey (before ++ cookie :: after) =
     (Cookie.Value cookie, UnixMs (Cookie.Expires cookie))).
Proof.
  induction 1 as [|c before Hc _ IH]; cbn [app getSessionKey].
  - split; [reflexivity|]. now intros ->.
  - now rewrite Hc.
Qed.

End SessionKeys.

(** The second line sets the key [PROD2]; its attribute [Path=/] is passed
    over, the first [Expires=] gives the expiration, and what follows it does
    not count. *)
Lemma getRespSessionKey_first_line_witness :
  getRespSessionKey (H := exampleLib)
    ["theme=dark; Path=/";
     "SessionKey=PROD2; Path=/; Expires=" +:+ exampleDate +:+ "; Expires=never; Secure";
     "sessionKey=PROD3"]
  = Some ("PROD2", UnixMs exampleDateNano).
Proof.
  refine (proj1 (proj2 (proj2 (proj2
            (getRespSessionKey_first_line (H := exampleLib)
               ["theme=dark; Path=/"] ["sessionKey=PROD3"] "SessionKey=" "PROD2"
               _ _ _ _ _))))
            [" Path=/"] [" Expires=never"; " Secure"] (" Expires=" +:+ exampleDate)
            (UnixMs exampleDateNano) _ _ _).
  - repeat constructor.
  - reflexivity.
  - reflexivity.
  - reflexivity.
  - reflexivity.
  - repeat constructor.
  - repeat constructor.
  - vm_compute. reflexivity.
Defined.

Lemma getSessionKey_first_cookie_witness :
  getSessionKey (H := exampleLib)
    [exampleCookie "theme" "dark"; exampleCookie "sessionKey" "PROD1";
     exampleCookie "sessionKey" "PROD9"] = ("PROD1", 0).
Proof.
  refine (proj2 (getSessionKey_first_cookie (H := exampleLib)
                   [exampleCookie "theme" "dark"] [exampleCookie "sessionKey" "PROD9"]
                   (exampleCookie "sessionKey" "PROD1") _) _).
  - repeat constructor.
  - reflexivity.
Defined.

(** ** The pending queue under the low-water rule *)

Lemma sendStaging_drops_head (reqMgr : RequestManager) (sendReq delReq : PendingRequest.t)
    (rest : list PendingRequest.t) :
  chanBuf (PendingRequests reqMgr) = delReq :: rest ->
  (length (delReq :: rest) < 100)%nat ->
  (length (delReq :: rest) <= chanCap (PendingRequests reqMgr))%nat ->
  exists logged,
    sendStaging reqMgr sendReq =
      Enqueued
        (set_PendingRequests (mkChan (rest ++ [sendReq]) (chanCap (PendingRequests reqMgr)))
           (set_pingManager (Manger.Set_ false (pingManager reqMgr)) reqMgr))
        logged.
Proof.
  intros Hq Hlt Hcap. unfold sendStaging. rewrite Hq.
  destruct (Nat.ltb_spec (length (delReq :: rest)) 100); [|lia].
  unfold chanRecv, chanSend.
  cbn -[Nat.ltb substring String.length deref String.append].
  rewrite Hq.
  cbn -[Nat.ltb substring String.length deref String.append].
  cbn [length] in Hcap.
  destruct (Nat.ltb_spec (length rest) (chanCap (PendingRequests reqMgr))); [|lia].
  eexists. reflexivity.
Qed.

(** X10. Under the rule of [sendStaging] a queue that holds at least one
    and fewer than 100 requests never grows: after any number of calls in a
    row, each call has returned, the queue has the length it had and holds
    the newest requests in their order (the oldest ones are gone), the
    liveness flag is false once a call was made, and cache, heap and
    staging URL are as before.  On the empty queue no call returns. *)
Theorem sendStagingAll_window (reqMgr : RequestManager) (sendReqs : list PendingRequest.t) :
  let queue := chanBuf (PendingRequests reqMgr) in
  ((0 < length queue < 100)%nat ->
   (length queue <= chanCap (PendingRequests reqMgr))%nat ->
   exists reqMgr',
     sendStagingAll reqMgr sendReqs = Some reqMgr' /\
     chanBuf (PendingRequests reqMgr') = drop (length sendReqs) (queue ++ sendReqs) /\
     length (chanBuf (PendingRequests reqMgr')) = length queue /\
     chanCap (PendingRequests reqMgr') = chanCap (PendingRequests reqMgr) /\
     (sendReqs <> [] -> Manger.StatusOk (pingManager reqMgr') = false) /\
     CacheData reqMgr' = CacheData reqMgr /\
     tokensExpirationList reqMgr' = tokensExpirationList reqMgr /\
     UrlStaging reqMgr' = UrlStaging reqMgr) /\
  (queue = [] -> sendReqs <> [] -> sendStagingAll reqMgr sendReqs = None).
Proof.
  intros queue. split.
  - subst queue. revert reqMgr.
    induction sendReqs as [|sendReq sendReqs IH]; intros reqMgr Hlen Hcap.
    + exists reqMgr. cbn [sendStagingAll length drop]. rewrite app_nil_r.
      repeat split; auto. congruence.
    + destruct (chanBuf (PendingRequests reqMgr)) as [|delReq rest] eqn:Hq;
        [simpl in Hlen; lia|].
      destruct (sendStaging_drops_head reqMgr sendReq delReq rest Hq)
        as [logged Hstep]; [lia|lia|].
      cbn [sendStagingAll]. rewrite Hstep.
      set (reqMgr1 := set_PendingRequests _ _) in *.
      destruct (IH reqMgr1) as (reqMgr' & Hall & Hbuf & Hl & Hc & Hflag & Hcache & Hheap & Hurl).
      { subst reqMgr1. cbn. rewrite length_app. cbn in *. lia. }
      { subst reqMgr1. cbn. rewrite length_app. cbn in *. lia. }
      exists reqMgr'. split; [exact Hall|].
      subst reqMgr1. cbn in Hbuf, Hl, Hc, Hcache, Hheap, Hurl.
      split; [|split; [|split; [|split; [|auto]]]].
      * rewrite Hbuf. cbn [length drop app]. now rewrite <- app_assoc.
      * rewrite Hl, length_app. cbn. lia.
      * exact Hc.
      * intros _. destruct sendReqs as [|r sendReqs]; [|apply Hflag; discriminate].
        cbn in Hall. now injection Hall as <-.
  - intros Hq Hne. destruct sendReqs as [|sendReq sendReqs]; [congruence|].
    cbn [sendStagingAll]. unfold sendStaging. subst queue. rewrite Hq.
    cbn. unfold chanRecv. cbn. now rewrite Hq.
Qed.

Lemma sendStagingAll_window_witness :
  exists reqMgr',
    sendStagingAll exampleMgrQueued [examplePendingLogin; examplePending; examplePendingLogin]
      = Some reqMgr' /\
    chanBuf (PendingRequests reqMgr') = [examplePendingLogin] /\
    Manger.StatusOk (pingManager reqMgr') = false.
Proof.
  destruct (proj1 (sendStagingAll_window exampleMgrQueued
                     [examplePendingLogin; examplePending; examplePendingLogin]))
    as (reqMgr' & Hall & Hbuf & _ & _ & Hflag & _).
  - vm_compute. lia.
  - vm_compute. lia.
  - exists reqMgr'. split; [exact Hall|]. split; [exact Hbuf|].
    apply Hflag. discriminate.
Defined.

(** ** Headers *)

Lemma header_get_put_eq (h : Header) (k : string) (vs : list string) :
  header_get (header_put h k vs) k = Some vs.
Proof.
  induction h as [|[k0 vs0] h IH]; cbn [header_put header_get].
  - now rewrite String.eqb_refl.
  - destruct (String.eqb k0 k) eqn:Hk; cbn [header_get]; rewrite Hk; [reflexivity|exact IH].
Qed.

Lemma header_put_put (h : Header) (k : string) (xs ys : list string) :
  header_put (header_put h k xs) k ys = header_put h k ys.
Proof.
  induction h as [|[k0 vs0] h IH]; cbn [header_put].
  - now rewrite String.eqb_refl.
  - destruct (String.eqb k0 k) eqn:Hk; cbn [header_put]; rewrite Hk; [reflexivity|].
    now rewrite IH.
Qed.

Lemma header_put_at (h : Header) (i : nat) (k : string) (vs0 vs : list string) :
  NoDup h.*1 -> h !! i = Some (k, vs0) -> header_put h k vs = <[i := (k, vs)]> h.
Proof.
  revert i. induction h as [|[k0 vs1] h IH]; intros i Hnd Hi; [discriminate|].
  cbn [header_put]. rewrite fmap_cons in Hnd. apply NoDup_cons in Hnd as [Hnotin Hnd].
  destruct i as [|i].
  - cbn in Hi. injection Hi as -> ->. now rewrite String.eqb_refl.
  - cbn in Hi. destruct (String.eqb_spec k0 k) as [->|Hne].
    + exfalso. apply Hnotin. cbn.
      apply list_elem_of_fmap. exists (k, vs0). split; [reflexivity|].
      eapply list_elem_of_lookup_2; eauto.
    + cbn. f_equal. now apply IH.
Qed.

Lemma morfList_insert (dVal dByte : Z) (vals : list string) (iv j : nat) (val : string) :
  (iv <= j)%nat -> vals !! (j - iv)%nat = Some val ->
  morfList dVal dByte vals iv j = <[(j - iv)%nat := morfValue dVal dByte val]> vals.
Proof.
  revert iv. induction vals as [|v vals IH]; intros iv Hle Hl; [discriminate|].
  cbn [morfList]. destruct (Nat.eqb_spec iv j) as [->|Hne].
  - replace (j - j)%nat with 0%nat in * by lia. cbn in Hl. injection Hl as ->.
    cbn. f_equal.
    clear. assert (Hid : forall l iv, (j < iv)%nat -> morfList dVal dByte l iv j = l).
    { induction l as [|x l IH]; intros iv Hlt; [reflexivity|]. cbn [morfList].
      destruct (Nat.eqb_spec iv j); [lia|]. f_equal. apply IH. lia. }
    apply Hid. lia.
  - replace (j - iv)%nat with (S (j - S iv)) in * by lia. cbn in Hl. cbn.
    f_equal. apply IH; [lia|exact Hl].
Qed.

Section MorfHeaderEffect.
Context `{GoLib}.

Lemma morfValues_run (hdr : Header) (key : string) (dVal dByte : Z) (j : nat)
    (rest done : list string) (iv : nat) :
  CanonicalMIMEHeaderKey key = key ->
  (0 < iv)%nat ->
  (forall val, (iv <= j)%nat -> rest !! (j - iv)%nat = Some val -> val <> "") ->
  morfValues key rest iv (Z.of_nat j) dVal dByte (header_put hdr key done) =
    Some (header_put hdr key (done ++ morfList dVal dByte rest iv j)).
Proof.
  intros Hcanon. revert done iv.
  induction rest as [|val rest IH]; intros done iv Hiv Hne.
  - cbn. now rewrite app_nil_r.
  - cbn [morfValues morfList].
    assert (Hstep : forall val',
              (if Nat.eqb iv 0 then Header_Set (header_put hdr key done) key val'
               else Header_Add (header_put hdr key done) key val') =
              header_put hdr key (done ++ [val'])).
    { intros val'. destruct (Nat.eqb_spec iv 0); [lia|].
      unfold Header_Add. rewrite Hcanon, header_get_put_eq, header_put_put.
      reflexivity. }
    assert (Hrest : forall val0, (S iv <= j)%nat -> rest !! (j - S iv)%nat = Some val0 ->
                      val0 <> "").
    { intros val0 Hle Hl. apply Hne; [lia|].
      replace (j - iv)%nat with (S (j - S iv)) by lia. exact Hl. }
    destruct (Z.eqb_spec (Z.of_nat iv) (Z.of_nat j)) as [Heq|Hneq].
    + assert (iv = j) by lia. subst iv. rewrite Nat.eqb_refl.
      assert (Hval : val <> "").
      { apply Hne; [lia|]. now replace (j - j)%nat with 0%nat by lia. }
      destruct (randInt_range (len val) dVal) as (iVal & HiVal & _).
      { unfold len. destruct val; [congruence|]. cbn [String.length]. lia. }
      destruct (randInt_range 256 dByte) as (r & Hr & _); [lia|].
      assert (iVal = dVal mod len val) as ->.
      { unfold randInt in HiVal. destruct (_ <=? _); congruence. }
      assert (r = dByte mod 256) as ->.
      { unfold randInt in Hr. destruct (_ <=? _); congruence. }
      rewrite HiVal, Hr. cbn [mbind option_bind]. rewrite Hstep.
      fold (morfValue dVal dByte val).
      rewrite IH by (lia || assumption). now rewrite <- app_assoc.
    + destruct (Nat.eqb_spec iv j); [lia|].
      cbn [mbind option_bind]. rewrite Hstep.
      rewrite IH by (lia || assumption). now rewrite <- app_assoc.
Qed.

Lemma morfValues_all (hdr : Header) (key : string) (dVal dByte : Z) (j : nat)
    (vals : list string) (val : string) :
  CanonicalMIMEHeaderKey key = key ->
  vals !! j = Some val -> val <> "" ->
  morfValues key vals 0 (Z.of_nat j) dVal dByte hdr =
    Some (header_put hdr key (<[j := morfValue dVal dByte val]> vals)).
Proof.
  intros Hcanon Hj Hval.
  assert (Hins : <[j := morfValue dVal dByte val]> vals = morfList dVal dByte vals 0 j).
  { rewrite (morfList_insert dVal dByte vals 0 j val);
      [now rewrite Nat.sub_0_r|lia|now rewrite Nat.sub_0_r]. }
  rewrite Hins. clear Hins.
  destruct vals as [|v0 rest]; [discriminate|].
  cbn [morfValues morfList Nat.eqb].
  assert (Hfirst : exists v0',
            (if Z.of_nat 0 =? Z.of_nat j
             then iVal ← randInt (len v0) dVal;
                  r ← randInt 256 dByte;
                  Some (setByte (Z.to_nat iVal) (byte_of_Z r) v0)
             else Some v0) = Some v0' /\
            v0' = (if match j with O => true | S _ => false end
                   then morfValue dVal dByte v0 else v0)).
  { destruct j as [|j].
    - cbn in Hj. injection Hj as ->. cbn [Z.of_nat Z.eqb].
      destruct (randInt_range (len val) dVal) as (iVal & HiVal & _).
      { unfold len. destruct val; [congruence|]. cbn [String.length]. lia. }
      destruct (randInt_range 256 dByte) as (r & Hr & _); [lia|].
      assert (iVal = dVal mod len val) as ->.
      { unfold randInt in HiVal. destruct (_ <=? _); congruence. }
      assert (r = dByte mod 256) as ->.
      { unfold randInt in Hr. destruct (_ <=? _); congruence. }
      rewrite HiVal, Hr. cbn [mbind option_bind]. eauto.
    - destruct (Z.eqb_spec (Z.of_nat 0) (Z.of_nat (S j))); [lia|]. eauto. }
  destruct Hfirst as (v0' & -> & ->). cbn [mbind option_bind].
  unfold Header_Set. rewrite Hcanon.
  rewrite (morfValues_run hdr key dVal dByte j rest [_] 1 Hcanon); [reflexivity|lia|].
  intros val0 Hle Hl. destruct j as [|j]; [lia|].
  change (rest !! j = Some val) in Hj.
  assert (Hl' : rest !! j = Some val0) by (rewrite <- Hl; f_equal; lia).
  rewrite Hj in Hl'. now injection Hl' as <-.
Qed.

(** X11. When the request's header keys are distinct, the key of the
    selected header is in canonical form and the selected value is not
    empty, [morfHeader] returns the headers with exactly that one value
    changed, in one byte, to a byte of [[0,255]]: the selected header keeps
    its key, position and other values, all other headers are untouched,
    and the changed value has the length of the old one. *)
Theorem morfHeader_one_byte (hdr : Header) (dHdr dVals dVal dByte : Z)
    (key val : string) (vals : list string) :
  let i := Z.to_nat (dHdr mod Z.of_nat (length hdr)) in
  let j := Z.to_nat (dVals mod Z.of_nat (length vals)) in
  let k := Z.to_nat (dVal mod len val) in
  let val' := setByte k (byte_of_Z (dByte mod 256)) val in
  NoDup hdr.*1 ->
  hdr !! i = Some (key, vals) ->
  CanonicalMIMEHeaderKey key = key ->
  vals !! j = Some val ->
  val <> "" ->
  morfHeader hdr dHdr dVals dVal dByte = Some (<[i := (key, <[j := val']> vals)]> hdr) /\
  0 <= dByte mod 256 <= 255 /\
  (k < String.length val)%nat /\
  String.length val' = String.length val /\
  forall p : nat, p <> k -> String.get p val' = String.get p val.
Proof.
  intros i j k val' Hnd Hi Hcanon Hj Hval.
  assert (Hhdr : (0 < length hdr)%nat).
  { destruct hdr; [discriminate|simpl; lia]. }
  assert (Hvals : (0 < length vals)%nat).
  { destruct vals; [discriminate|simpl; lia]. }
  split; [|split; [|split; [|split]]].
  - unfold morfHeader.
    destruct (randInt_range (Z.of_nat (length hdr)) dHdr) as (iHdr & HiHdr & Hr); [lia|].
    assert (iHdr = dHdr mod Z.of_nat (length hdr)) as ->.
    { unfold randInt in HiHdr. destruct (_ <=? _); congruence. }
    rewrite HiHdr. cbn [mbind option_bind].
    rewrite (morfHeaderRange_at hdr _ dVals dVal dByte hdr key vals); [|lia|exact Hi].
    destruct (randInt_range (Z.of_nat (length vals)) dVals) as (iVals & HiVals & Hr2); [lia|].
    assert (iVals = dVals mod Z.of_nat (length vals)) as ->.
    { unfold randInt in HiVals. destruct (_ <=? _); congruence. }
    rewrite HiVals. cbn [mbind option_bind].
    replace (dVals mod Z.of_nat (length vals)) with (Z.of_nat j) by (subst j; lia).
    rewrite (morfValues_all hdr key dVal dByte j vals val Hcanon Hj Hval).
    f_equal. now apply header_put_at with (vs0 := vals).
  - assert (0 <= dByte mod 256 < 256) by (apply Z.mod_pos_bound; lia). lia.
  - subst k. unfold len.
    assert (0 < Z.of_nat (String.length val)).
    { destruct val; [congruence|]. cbn [String.length]. lia. }
    assert (0 <= dVal mod Z.of_nat (String.length val) < Z.of_nat (String.length val))
      by (apply Z.mod_pos_bound; lia).
    lia.
  - apply length_setByte.
  - intros p Hp. apply get_setByte_ne. congruence.
Qed.

End MorfHeaderEffect.

Lemma morfHeader_one_byte_witness :
  morfHeader (H := exampleLib)
    [("Accept", ["*/*"]); ("X-Trace", ["abc"; "def"])] 1 1 2 90
  = Some [("Accept", ["*/*"]); ("X-Trace", ["abc"; "deZ"])].
Proof.
  refine (proj1 (morfHeader_one_byte (H := exampleLib)
                   [("Accept", ["*/*"]); ("X-Trace", ["abc"; "def"])] 1 1 2 90
                   "X-Trace" "def" ["abc"; "def"] _ _ _ _ _)).
  - apply NoDup_cons. split; [|apply NoDup_singleton].
    intros Hin. apply list_elem_of_singleton in Hin. discriminate.
  - reflexivity.
  - reflexivity.
  - reflexivity.
  - discriminate.
Defined.

Lemma header_put_fresh (h : Header) (k : string) (vs : list string) :
  k ∉ h.*1 -> header_put h k vs = h ++ [(k, vs)].
Proof.
  induction h as [|[k0 vs0] h IH]; intros Hk; [reflexivity|].
  cbn [header_put]. rewrite fmap_cons in Hk. apply not_elem_of_cons in Hk as [Hne Hk].
  destruct (String.eqb_spec k0 k) as [->|_]; [now cbn in Hne|].
  cbn. now rewrite IH.
Qed.

Lemma header_get_fresh (h : Header) (k : string) :
  k ∉ h.*1 -> header_get h k = None.
Proof.
  induction h as [|[k0 vs0] h IH]; intros Hk; [reflexivity|].
  cbn [header_get]. rewrite fmap_cons in Hk. apply not_elem_of_cons in Hk as [Hne Hk].
  destruct (String.eqb_spec k0 k) as [->|_]; [now cbn in Hne|]. now apply IH.
Qed.

Lemma header_get_snoc (h : Header) (k : string) (vs : list string) :
  k ∉ h.*1 -> header_get (h ++ [(k, vs)]) k = Some vs.
Proof. intros Hk. rewrite <- header_put_fresh by assumption. apply header_get_put_eq. Qed.

Lemma header_put_snoc (h : Header) (k : string) (xs ys : list string) :
  k ∉ h.*1 -> header_put (h ++ [(k, xs)]) k ys = h ++ [(k, ys)].
Proof.
  intros Hk. rewrite <- (header_put_fresh h k xs) by assumption.
  rewrite header_put_put. now apply header_put_fresh.
Qed.

Section HeaderCopy.
Context `{GoLib}.

Lemma copyHeaderValues_fresh (StagKeys : option StagKeys.t) (key : string)
    (vals : list string) (hdr : Header) :
  CanonicalMIMEHeaderKey key = key -> key ∉ hdr.*1 ->
  copyHeaderValues StagKeys key vals hdr =
    if EqualFold key "Cookie" then hdr
    else match vals with
         | [] => hdr
         | _ => hdr ++ [(key, stagingValue StagKeys key <$> vals)]
         end.
Proof.
  intros Hcanon Hfresh. unfold copyHeaderValues.
  fold (stagingValue StagKeys key).
  destruct (EqualFold key "Cookie") eqn:Hcookie; cbn [negb].
  - induction vals as [|v vals IH]; [reflexivity|exact IH].
  - destruct vals as [|v vals]; [reflexivity|]. cbn [fold_left].
    unfold Header_Add at 2. rewrite Hcanon, header_get_fresh by assumption.
    cbn [default from_option app]. rewrite header_put_fresh by assumption.
    assert (Hgen : forall rest acc,
              fold_left
                (fun (hdr0 : Header) (val : string) =>
                   Header_Add hdr0 key (stagingValue StagKeys key val))
                rest (hdr ++ [(key, acc)]) =
              hdr ++ [(key, acc ++ (stagingValue StagKeys key <$> rest))]).
    { induction rest as [|r rest IH]; intros acc; cbn [fold_left].
      - now rewrite fmap_nil, app_nil_r.
      - unfold Header_Add at 2. rewrite Hcanon, header_get_snoc by assumption.
        cbn [default from_option]. unfold id. rewrite header_put_snoc by assumption.
        rewrite IH, fmap_cons. now rewrite <- app_assoc. }
    rewrite Hgen. reflexivity.
Qed.

Lemma copiedHeader_key (StagKeys : option StagKeys.t) (line out : string * list string) :
  copiedHeader StagKeys line = Some out ->
  out.1 = line.1 /\
  EqualFold line.1 httpForwardedHeader = false /\ EqualFold line.1 "Cookie" = false.
Proof.
  destruct line as [key vals]. unfold copiedHeader. cbn [fst].
  destruct (EqualFold key httpForwardedHeader); [discriminate|].
  destruct (EqualFold key "Cookie"); [discriminate|].
  destruct vals; [discriminate|]. intros [= <-]. auto.
Qed.

Lemma omap_copiedHeader_keys (StagKeys : option StagKeys.t) (src : Header) (k : string) :
  k ∈ (omap (copiedHeader StagKeys) src).*1 -> k ∈ src.*1.
Proof.
  intros Hk. apply list_elem_of_fmap in Hk as (out & -> & Hout).
  apply list_elem_of_omap in Hout as (line & Hline & Hc).
  apply copiedHeader_key in Hc as (-> & _).
  apply list_elem_of_fmap. eauto.
Qed.

Lemma copyHeaders_canonical (StagKeys : option StagKeys.t) (src hdr : Header) :
  NoDup src.*1 ->
  Forall (fun k => CanonicalMIMEHeaderKey k = k) src.*1 ->
  (forall k, k ∈ src.*1 -> k ∉ hdr.*1) ->
  copyHeaders StagKeys src hdr = hdr ++ omap (copiedHeader StagKeys) src.
Proof.
  unfold copyHeaders. revert hdr.
  induction src as [|[key vals] src IH]; intros hdr Hnd Hcanon Hdisj.
  - cbn. now rewrite app_nil_r.
  - rewrite fmap_cons in Hnd, Hcanon. cbn [fst] in *.
    apply NoDup_cons in Hnd as [Hnotin Hnd].
    apply Forall_cons in Hcanon as [Hk Hcanon].
    assert (Hfresh : key ∉ hdr.*1).
    { apply Hdisj. rewrite fmap_cons. apply list_elem_of_here. }
    cbn [fold_left omap list_omap copiedHeader].
    rewrite copyHeaderValues_fresh by assumption.
    assert (Hnext : forall out : Header,
              out.*1 = hdr.*1 \/ out.*1 = hdr.*1 ++ [key] ->
              forall k, k ∈ src.*1 -> k ∉ out.*1).
    { intros out [-> | ->] k Hin.
      - apply Hdisj. rewrite fmap_cons. now apply list_elem_of_further.
      - intros Hin2. apply elem_of_app in Hin2 as [Hin2|Hin2].
        + revert Hin2. apply Hdisj. rewrite fmap_cons. now apply list_elem_of_further.
        + apply list_elem_of_singleton in Hin2 as ->. contradiction. }
    destruct (EqualFold key httpForwardedHeader); cbn [negb].
    + apply IH; auto.
    + destruct (EqualFold key "Cookie").
      * apply IH; auto.
      * destruct vals as [|v vals].
        -- apply IH; auto.
        -- rewrite IH; auto.
           ++ now rewrite <- app_assoc.
           ++ apply Hnext. right. now rewrite fmap_app.
Qed.

(** X12. The headers of the staging request, the [Cookie] line apart (the
    cookies that [AddCookie] writes are the [Cookies] of the model).  When
    the inbound header keys are distinct and in canonical form and
    [X-Duplicate-By] is not among them, the request that
    [buildForwardRequest] builds has exactly these header lines: every
    inbound line that has a value and whose key folds neither to
    [X-Forwarded-By] nor to [Cookie], with all its values in their order (an
    [X-Csrf-Token] value replaced by the staging CSRF token if the cache
    entry of the key has a non-empty one), listed as the [range] loop
    visits them, and [X-Duplicate-By: Http-Splitter]. *)
Theorem buildForwardRequest_headers (reqMgr reqMgr' : RequestManager)
    (req stagReq : Request.t) (prodSessionKey : string) (stagBody : option string) :
  NoDup (Request.Header req).*1 ->
  Forall (fun k => CanonicalMIMEHeaderKey k = k) (Request.Header req).*1 ->
  CanonicalMIMEHeaderKey httpDuplicateHeader = httpDuplicateHeader ->
  httpDuplicateHeader ∉ (Request.Header req).*1 ->
  buildForwardRequest reqMgr req prodSessionKey stagBody = (Some stagReq, reqMgr') ->
  let copied :=
    omap (copiedHeader (CacheData reqMgr !! prodSessionKey)) (Request.Header req) in
  Request.Header stagReq = copied ++ [(httpDuplicateHeader, [httpNameHeader])] /\
  (forall line, line ∈ copied ->
     EqualFold line.1 httpForwardedHeader = false /\ EqualFold line.1 "Cookie" = false) /\
  (forall key vals e,
     (key, vals) ∈ Request.Header req ->
     CacheData reqMgr !! prodSessionKey = Some e ->
     StagKeys.csrfToken e <> "" ->
     EqualFold key "X-Csrf-Token" = true ->
     EqualFold key httpForwardedHeader = false ->
     EqualFold key "Cookie" = false ->
     vals <> [] ->
     (key, (fun _ => StagKeys.csrfToken e) <$> vals) ∈ Request.Header stagReq).
Proof.
  intros Hnd Hcanon Hdup Hnodup Hb copied.
  assert (Hhdr : Request.Header stagReq = copied ++ [(httpDuplicateHeader, [httpNameHeader])]).
  { unfold buildForwardRequest in Hb.
    destruct (http_NewRequest_ok _ _); cbn [negb] in Hb; [|discriminate].
    injection Hb as <- _. cbn [Request.Header set_UrlStaging CacheData].
    rewrite copyHeaders_canonical; [|assumption|assumption|intros k _; cbn; apply not_elem_of_nil].
    cbn [app]. fold copied. unfold Header_Add. rewrite Hdup.
    assert (Hfresh : httpDuplicateHeader ∉ copied.*1).
    { intros Hin. apply Hnodup. eapply omap_copiedHeader_keys; eauto. }
    rewrite header_get_fresh, header_put_fresh by assumption. reflexivity. }
  split; [exact Hhdr|]. split.
  - intros line Hline. subst copied.
    apply list_elem_of_omap in Hline as (src & _ & Hc).
    apply copiedHeader_key in Hc as (-> & Hf & Hcookie). auto.
  - intros key vals e Hin He Hcsrf Hx Hf Hcookie Hvals.
    rewrite Hhdr. apply elem_of_app. left. subst copied.
    apply list_elem_of_omap. exists (key, vals). split; [exact Hin|].
    unfold copiedHeader. rewrite Hf, Hcookie, He.
    destruct vals as [|v vals]; [congruence|]. f_equal. f_equal.
    apply list_fmap_ext. intros _ val _. unfold stagingValue. rewrite Hx.
    apply String.eqb_neq in Hcsrf. now rewrite Hcsrf.
Qed.

End HeaderCopy.

(** The [Cookie] line and the router's own [X-Forwarded-By] line are left
    out, the CSRF token [PCT] of production becomes [CT1], and both values
    of [Accept] are kept. *)
Lemma buildForwardRequest_headers_witness :
  Request.Header
    (default exampleReq
       (buildForwardRequest (H := exampleLib) exampleMgrKnown exampleReqCsrf "PROD1" None).1)
  = [("X-Csrf-Token", ["CT1"]); ("Accept", ["*/*"; "text/html"]);
     ("X-Duplicate-By", ["Http-Splitter"])].
Proof.
  destruct (buildForwardRequest (H := exampleLib) exampleMgrKnown exampleReqCsrf "PROD1" None)
    as [[stagReq|] reqMgr'] eqn:Hb; [|vm_compute in Hb; discriminate].
  assert (Hnd : NoDup (Request.Header exampleReqCsrf).*1).
  { cbn. repeat (apply NoDup_cons; split;
                 [intros Hin;
                  repeat (apply elem_of_cons in Hin as [Hin|Hin]; [discriminate|]);
                  now apply elem_of_nil in Hin|]).
    apply NoDup_nil_2. }
  assert (Hcanon : Forall (fun k => CanonicalMIMEHeaderKey (GoLib := exampleLib) k = k)
                     (Request.Header exampleReqCsrf).*1).
  { cbn. repeat constructor. }
  assert (Hnot : httpDuplicateHeader ∉ (Request.Header exampleReqCsrf).*1).
  { cbn. intros Hin.
    repeat (apply elem_of_cons in Hin as [Hin|Hin]; [discriminate|]).
    now apply elem_of_nil in Hin. }
  destruct (buildForwardRequest_headers (H := exampleLib) exampleMgrKnown reqMgr'
              exampleReqCsrf stagReq "PROD1" None Hnd Hcanon eq_refl Hnot Hb) as [Hh _].
  cbn [fst default from_option]. unfold id. rewrite Hh. vm_compute. reflexivity.
Defined.

(** ** The order of delivery *)

Section Delivery.
Context `{GoLib}.

Lemma buildForwardRequest_manager (reqMgr : RequestManager) (req : Request.t)
    (prodSessionKey : string) (stagBody : option string) :
  let reqMgr' := (buildForwardRequest reqMgr req prodSessionKey stagBody).2 in
  PendingRequests reqMgr' = PendingRequests reqMgr /\
  CacheData reqMgr' = CacheData reqMgr /\
  tokensExpirationList reqMgr' = tokensExpirationList reqMgr /\
  pingManager reqMgr' = pingManager reqMgr.
Proof.
  unfold buildForwardRequest.
  destruct (http_NewRequest_ok _ _); cbn; auto.
Qed.

Lemma StagingHandler_turns_drain (queue : list PendingRequest.t) (reqMgr : RequestManager) :
  chanBuf (PendingRequests reqMgr) = queue ->
  exists built reqMgr',
    StagingHandler_turns (length queue) reqMgr = Some (built, reqMgr') /\
    built.*1 = queue /\
    chanBuf (PendingRequests reqMgr') = [] /\
    CacheData reqMgr' = CacheData reqMgr /\
    tokensExpirationList reqMgr' = tokensExpirationList reqMgr /\
    pingManager reqMgr' = pingManager reqMgr.
Proof.
  revert reqMgr. induction queue as [|sendReq queue IH]; intros reqMgr Hq.
  - exists [], reqMgr. cbn. split; [reflexivity|]. split; [reflexivity|]. auto.
  - cbn [length StagingHandler_turns]. unfold StagingHandler_turn, chanRecv.
    rewrite Hq. cbn [mbind option_bind].
    pose proof (buildForwardRequest_manager
                  (set_PendingRequests (mkChan queue (chanCap (PendingRequests reqMgr))) reqMgr)
                  (PendingRequest.req sendReq) (PendingRequest.requestKey sendReq)
                  (PendingRequest.body sendReq)) as Hm.
    destruct (buildForwardRequest _ _ _ _) as [reqSend reqMgr1].
    cbn [snd] in Hm. destruct Hm as (Hp & Hc & Ht & Hping).
    destruct (IH reqMgr1) as (built & reqMgr' & Hturns & Hbuilt & Hempty & Hc' & Ht' & Hping').
    { rewrite Hp. destruct reqMgr. reflexivity. }
    cbn [mbind option_bind]. rewrite Hturns. cbn [mbind option_bind].
    exists ((sendReq, reqSend) :: built), reqMgr'.
    split; [reflexivity|]. split; [now rewrite fmap_cons, Hbuilt|].
    split; [exact Hempty|].
    rewrite Hc', Ht', Hping', Hc, Ht, Hping. destruct reqMgr. auto.
Qed.

(** X13. From [sendStaging] to [StagingHandler], on a queue that is not
    empty and has room: the call of [sendStaging] returns, and the turns of
    [StagingHandler] that follow take the queued requests in the order in
    which they were queued, the new request last, and then wait at the
    empty channel.  A queue of fewer than 100 requests has lost its oldest
    request before: that request is never taken.  The turns leave cache,
    heap and liveness flag as [sendStaging] left them. *)
Theorem StagingHandler_in_order (reqMgr : RequestManager) (sendReq : PendingRequest.t) :
  let queue := chanBuf (PendingRequests reqMgr) in
  let kept := if (length queue <? 100)%nat then tail queue else queue in
  queue <> [] ->
  (length queue <= chanCap (PendingRequests reqMgr))%nat ->
  ((100 <= length queue)%nat -> (length queue < chanCap (PendingRequests reqMgr))%nat) ->
  exists reqMgr1 logged built reqMgr2,
    sendStaging reqMgr sendReq = Enqueued reqMgr1 logged /\
    StagingHandler_turns (S (length kept)) reqMgr1 = Some (built, reqMgr2) /\
    built.*1 = kept ++ [sendReq] /\
    StagingHandler_turn reqMgr2 = None /\
    CacheData reqMgr2 = CacheData reqMgr /\
    tokensExpirationList reqMgr2 = tokensExpirationList reqMgr /\
    Manger.StatusOk (pingManager reqMgr2) = negb (length queue <? 100)%nat.
Proof.
  intros queue kept Hne Hcap Hroom.
  assert (Hsend : exists reqMgr1 logged,
            sendStaging reqMgr sendReq = Enqueued reqMgr1 logged /\
            chanBuf (PendingRequests reqMgr1) = kept ++ [sendReq] /\
            CacheData reqMgr1 = CacheData reqMgr /\
            tokensExpirationList reqMgr1 = tokensExpirationList reqMgr /\
            Manger.StatusOk (pingManager reqMgr1) = negb (length queue <? 100)%nat).
  { subst kept. destruct (Nat.ltb_spec (length queue) 100) as [Hlt|Hge].
    - destruct queue as [|delReq rest] eqn:Hq; [congruence|].
      destruct (sendStaging_drops_head reqMgr sendReq delReq rest Hq Hlt Hcap)
        as [logged Hs].
      eexists _, logged. split; [exact Hs|]. destruct reqMgr. cbn. auto.
    - specialize (Hroom Hge). unfold sendStaging. fold queue.
      destruct (Nat.ltb_spec (length queue) 100); [lia|].
      unfold chanSend. cbn [PendingRequests set_pingManager]. fold queue.
      destruct (Nat.ltb_spec (length queue) (chanCap (PendingRequests reqMgr))); [|lia].
      eexists _, []. split; [reflexivity|]. destruct reqMgr. cbn. auto. }
  destruct Hsend as (reqMgr1 & logged & Hs & Hbuf & Hc & Ht & Hping).
  destruct (StagingHandler_turns_drain (kept ++ [sendReq]) reqMgr1 Hbuf)
    as (built & reqMgr2 & Hturns & Hbuilt & Hempty & Hc' & Ht' & Hping').
  rewrite length_app in Hturns. cbn [length] in Hturns.
  replace (length kept + 1)%nat with (S (length kept)) in Hturns by lia.
  exists reqMgr1, logged, built, reqMgr2.
  split; [exact Hs|]. split; [exact Hturns|]. split; [exact Hbuilt|].
  split; [unfold StagingHandler_turn, chanRecv; now rewrite Hempty|].
  now rewrite Hc', Ht', Hping', Hc, Ht, Hping.
Qed.

End Delivery.

(** The queue holds [examplePending]; after [sendStaging] of
    [examplePendingLogin] the forwarder takes [examplePendingLogin] and
    nothing else. *)
Lemma StagingHandler_in_order_witness :
  exists reqMgr1 logged built reqMgr2,
    sendStaging exampleMgrQueued examplePendingLogin = Enqueued reqMgr1 logged /\
    StagingHandler_turns (H := exampleLib) 1 reqMgr1 = Some (built, reqMgr2) /\
    built.*1 = [examplePendingLogin] /\
    StagingHandler_turn (H := exampleLib) reqMgr2 = None.
Proof.
  destruct (StagingHandler_in_order (H := exampleLib) exampleMgrQueued examplePendingLogin)
    as (reqMgr1 & logged & built & reqMgr2 & Hs & Hturns & Hbuilt & Hwait & _).
  - discriminate.
  - vm_compute. lia.
  - cbn. lia.
  - exists reqMgr1, logged, built, reqMgr2. auto.
Defined.

(** ** The forwarder's front door *)

Lemma Split_head_length (s : string) (sep : ascii) (n : nat) :
  (n <= String.length s)%nat ->
  hasByte sep (substring 0 n s) = false ->
  (n <= String.length (default "" (head (Split s sep))))%nat.
Proof.
  revert n. induction s as [|a s IH]; intros [|n] Hlen Hno; cbn in *; try lia.
  apply orb_false_iff in Hno as [Ha Hs]. rewrite Ha.
  specialize (IH n ltac:(lia) Hs).
  destruct (Split s sep) as [|tok toks]; cbn in *; lia.
Qed.

Section FrontDoor.
Context `{GoLib}.
Hypothesis EqualFold_semicolon :
  forall x, EqualFold x "sessionKey=" = true -> hasByte ";" x = false.

Lemma getRespSessionKey_returns (cookies : list string) :
  is_Some (getRespSessionKey cookies).
Proof.
  induction cookies as [|cookie rest IH]; cbn [getRespSessionKey]; [eauto|].
  destruct ((11 <=? len cookie) && EqualFold (substring 0 11 cookie) "sessionKey=")
    eqn:Htest; [|exact IH].
  apply andb_true_iff in Htest as [Hlen Hfold].
  apply Z.leb_le in Hlen. unfold len in Hlen.
  pose proof (Split_head_length cookie ";" 11 ltac:(lia) (EqualFold_semicolon _ Hfold)) as Hhead.
  unfold sliceFrom.
  destruct (Nat.leb_spec 11 (String.length (default "" (head (Split cookie ";")))));
    [|lia].
  cbn [mbind option_bind]. destruct (findExpires _); eauto.
Qed.

(** X14. [forwardHandler] does not panic.  Given that a string that folds to
    [sessionKey=] holds no [;] (so it is with the case folding of Go),
    [getRespSessionKey] returns for every list of [Set-Cookie] lines: the
    slice [tokens[0][11:]] is never out of range.  With a staging server
    configured [forwardHandler] then hands [sendStaging] a pending request
    that holds the request and the body as given, the session key of the
    request's own cookies as request key and the result of
    [getRespSessionKey] on the response's [Set-Cookie] lines as the key to
    learn; without one it does nothing. *)
Theorem forwardHandler_never_panics (reqMgr : RequestManager) (req : Request.t)
    (respHdr : Header) (stagBody : option string) :
  (forall cookies, is_Some (getRespSessionKey cookies)) /\
  forwardHandler reqMgr req respHdr stagBody <> ForwardPanic /\
  (URL.Scheme (UrlStaging reqMgr) = "" \/ URL.Host (UrlStaging reqMgr) = "" ->
   forwardHandler reqMgr req respHdr stagBody = NoStaging) /\
  (URL.Scheme (UrlStaging reqMgr) <> "" -> URL.Host (UrlStaging reqMgr) <> "" ->
   exists updateSessionKey updateKeyExpires,
     getRespSessionKey (default [] (header_get respHdr "Set-Cookie"))
       = Some (updateSessionKey, updateKeyExpires) /\
     forwardHandler reqMgr req respHdr stagBody =
       Forward (PendingRequest.mk req stagBody (getSessionKey (Request.Cookies req)).1
                  updateSessionKey updateKeyExpires)).
Proof.
  split; [exact getRespSessionKey_returns|].
  unfold forwardHandler.
  destruct (getRespSessionKey_returns (default [] (header_get respHdr "Set-Cookie")))
    as [[updateSessionKey updateKeyExpires] Hget].
  rewrite Hget.
  destruct (getSessionKey (Request.Cookies req)) as [prodSessionKey e] eqn:Hkey.
  destruct (String.eqb_spec (URL.Scheme (UrlStaging reqMgr)) "") as [Hs|Hs];
    destruct (String.eqb_spec (URL.Host (UrlStaging reqMgr)) "") as [Hh|Hh];
    cbn [orb]; (split; [discriminate|]); (split; [intros; try reflexivity; tauto|]);
    intros Hs' Hh'; try contradiction.
  exists updateSessionKey, updateKeyExpires. auto.
Qed.

End FrontDoor.

Lemma asciiLower_semicolon (a : ascii) :
  Ascii.eqb (asciiLower a) ";" = Ascii.eqb a ";".
Proof. destruct a as [[] [] [] [] [] [] [] []]; vm_compute; reflexivity. Qed.

Lemma asciiEqualFold_hasByte (x y : string) :
  asciiEqualFold x y = true -> hasByte ";" x = hasByte ";" y.
Proof.
  revert y. induction x as [|a x IH]; intros [|b y] Hfold; cbn in Hfold; try discriminate.
  - reflexivity.
  - apply andb_true_iff in Hfold as [Hab Hxy]. apply Ascii.eqb_eq in Hab.
    cbn [hasByte]. rewrite (IH y Hxy).
    now rewrite <- (asciiLower_semicolon a), <- (asciiLower_semicolon b), Hab.
Qed.

(** The response sets [sessionKey=PROD2]; the request came with
    [sessionKey=PROD1]. *)
Lemma forwardHandler_never_panics_witness :
  forwardHandler (H := exampleLib) exampleMgr exampleReq exampleRespHdr None
    = Forward examplePendingLogin.
Proof.
  destruct (forwardHandler_never_panics (H := exampleLib)
              (fun x Hx => asciiEqualFold_hasByte x "sessionKey=" Hx)
              exampleMgr exampleReq exampleRespHdr None)
    as (_ & _ & _ & Hfwd).
  destruct Hfwd as (k & e & Hget & Hfwd); [discriminate|discriminate|].
  rewrite Hfwd. vm_compute in Hget. injection Hget as <- <-. reflexivity.
Defined.

(** ** The log line of the sender *)

Section LogLineFacts.
Context `{GoText}.

Lemma isGraphicFrom_spec (rs : list Z) (todo i : nat) :
  (i <= length rs)%nat ->
  isGraphicFrom rs i todo =
    if forallb IsGraphic (take todo (drop i rs))
    then if (i + todo <=? length rs)%nat then Some true else None
    else Some false.
Proof.
  revert i. induction todo as [|todo IH]; intros i Hi; cbn [isGraphicFrom].
  - cbn. destruct (Nat.leb_spec (i + 0) (length rs)); [reflexivity|lia].
  - destruct (rs !! i) as [r|] eqn:Hr.
    + rewrite (drop_S _ _ _ Hr). cbn [take forallb].
      apply lookup_lt_Some in Hr.
      destruct (IsGraphic r); cbn [negb andb]; [|reflexivity].
      rewrite IH by lia. replace (S i + todo)%nat with (i + S todo)%nat by lia.
      reflexivity.
    + apply lookup_ge_None in Hr. rewrite drop_ge by lia. cbn.
      destruct (Nat.leb_spec (i + S todo) (length rs)); [lia|reflexivity].
Qed.

(** X15. The log line of [sendRequest].  With [newStr] the first 70 bytes of
    the response body, [lng] their number and [rs] the code points of
    [newStr]: if one of the first [lng] code points is not graphic, the
    line shows the base64 encoding of [newStr]; if they all are graphic and
    there are at least [lng] code points, the line shows [newStr] as it is;
    and if all code points are graphic but there are fewer of them than
    bytes, the loop reads [runes[i]] out of range and [sendRequest] panics.
    The line starts with the first 70 bytes of the path. *)
Theorem sendRequest_log_cases (path body : string) :
  let newStr := if (70 <? String.length body)%nat then substring 0 70 body else body in
  let lng := Nat.min 70 (String.length body) in
  let rs := runes newStr in
  let line text :=
    substring 0 (Nat.min 70 (String.length path)) path +:+ ": " +:+ text in
  (forallb IsGraphic (take lng rs) = false ->
   sendRequest_log path body = Some (line (EncodeToString newStr))) /\
  (forallb IsGraphic (take lng rs) = true -> (lng <= length rs)%nat ->
   sendRequest_log path body = Some (line newStr)) /\
  (forallb IsGraphic rs = true -> (length rs < lng)%nat ->
   sendRequest_log path body = None).
Proof.
  intros newStr lng rs line.
  assert (Hlog : sendRequest_log path body =
                 (isGraphic ← isGraphicFrom rs 0 lng;
                  Some (line (if negb isGraphic then EncodeToString newStr else newStr)))).
  { unfold sendRequest_log, line, rs, newStr, lng.
    destruct (Nat.ltb_spec 70 (String.length body));
      destruct (Nat.ltb_spec 70 (String.length path));
      repeat match goal with
             | |- context [Nat.min ?a ?b] =>
                 first [rewrite (Nat.min_l a b) by lia | rewrite (Nat.min_r a b) by lia]
             end; reflexivity. }
  rewrite Hlog, isGraphicFrom_spec by lia. rewrite drop_0. cbn [Nat.add].
  split; [|split].
  - intros ->. reflexivity.
  - intros -> Hle. destruct (Nat.leb_spec lng (length rs)); [reflexivity|lia].
  - intros Hall Hlt. rewrite take_ge by lia. rewrite Hall.
    destruct (Nat.leb_spec lng (length rs)); [lia|reflexivity].
Qed.

End LogLineFacts.

(** A body that is the one character [U+00E9]: two bytes, one graphic code
    point, and the sender panics.  After the byte 1 the line is in base64. *)
Lemma sendRequest_log_cases_witness :
  sendRequest_log (H := exampleText) "/api/x/y" exampleAccent = None /\
  sendRequest_log (H := exampleText) "/api/x/y" (String (ascii_of_nat 1) exampleAccent)
    = Some "/api/x/y: AcOp".
Proof.
  split.
  - refine (proj2 (proj2 (sendRequest_log_cases (H := exampleText) "/api/x/y" exampleAccent))
              _ _).
    + vm_compute. reflexivity.
    + vm_compute. lia.
  - refine (proj1 (sendRequest_log_cases (H := exampleText) "/api/x/y"
                     (String (ascii_of_nat 1) exampleAccent)) _).
    vm_compute. reflexivity.
Defined.

(** ** The heap in every state of the program *)

Lemma sendStaging_heap (reqMgr reqMgr' : RequestManager) (sendReq : PendingRequest.t)
    (logged : list string) :
  sendStaging reqMgr sendReq = Enqueued reqMgr' logged ->
  tokensExpirationList reqMgr' = tokensExpirationList reqMgr.
Proof.
  unfold sendStaging, chanRecv, chanSend.
  destruct (length (chanBuf (PendingRequests reqMgr)) <? 100)%nat.
  - cbn [PendingRequests set_pingManager].
    destruct (chanBuf (PendingRequests reqMgr)) as [|delReq rest]; [discriminate|].
    cbn [PendingRequests set_PendingRequests chanBuf chanCap].
    destruct (_ <? _)%nat; [|discriminate].
    intros [= <- _]. reflexivity.
  - cbn [PendingRequests set_pingManager].
    destruct (_ <? _)%nat; [|discriminate].
    intros [= <- _]. reflexivity.
Qed.

Section Reachable.
Context `{GoLib}.

Lemma reachable_heap (reqMgr : RequestManager) :
  reachable reqMgr ->
  heapOrdered (tokensExpirationList reqMgr) /\ indexed (tokensExpirationList reqMgr).
Proof.
  induction 1 as [reqMgr i64rand nowNano
                 |reqMgr reqMgr' sendReq logged _ IH Hs
                 |reqMgr reqMgr' sendReq reqSend _ IH Ht
                 |reqMgr reqMgr' reqSend sendReq doResult now1 now2 _ IH Hs
                 |reqMgr _ IH].
  - apply Init_heap.
  - now rewrite (sendStaging_heap _ _ _ _ Hs).
  - unfold StagingHandler_turn in Ht.
    destruct (chanRecv (PendingRequests reqMgr)) as [[p c]|]; [|discriminate].
    cbn [mbind option_bind] in Ht.
    pose proof (buildForwardRequest_manager (set_PendingRequests c reqMgr)
                  (PendingRequest.req p) (PendingRequest.requestKey p)
                  (PendingRequest.body p)) as Hm.
    destruct (buildForwardRequest _ _ _ _) as [r m]. injection Ht as _ _ <-.
    cbn [snd] in Hm. destruct Hm as (_ & _ & -> & _). exact IH.
  - unfold sendRequest in Hs. destruct reqSend; [|discriminate].
    destruct doResult as [resp|]; [|now injection Hs as <-].
    destruct IH as [Ho Hi].
    destruct (cacheResponse_keeps_heap reqMgr (PendingRequest.sessionKey sendReq) resp
                (PendingRequest.keyExpires sendReq) now1 now2 Ho Hi) as (m & Hm & Ho' & Hi').
    rewrite Hm in Hs. injection Hs as <-. auto.
  - exact IH.
Qed.

(** X16. In every state that the manager reaches from [Init] by calls of
    [sendStaging], turns of [StagingHandler], calls of [sendRequest] and
    calls of [createReqId], one at a time, the expiration queue is in
    min-heap order with every [index] field holding the position, so that
    [cacheResponse] returns for every key, response and clock ([update] and
    [heap.Fix] stay within the queue), and [sendRequest] returns for every
    request that is not [nil]. *)
Theorem reachable_cacheResponse_returns (reqMgr : RequestManager) :
  reachable reqMgr ->
  heapOrdered (tokensExpirationList reqMgr) /\
  indexed (tokensExpirationList reqMgr) /\
  (forall prodSessionKey resp prodKeyExpiration now1 now2,
     exists reqMgr',
       cacheResponse reqMgr prodSessionKey resp prodKeyExpiration now1 now2 = Some reqMgr' /\
       reachable reqMgr') /\
  (forall reqSend sendReq doResult now1 now2,
     is_Some (sendRequest reqMgr (Some reqSend) sendReq doResult now1 now2)).
Proof.
  intros Hr. destruct (reachable_heap reqMgr Hr) as [Ho Hi].
  split; [exact Ho|]. split; [exact Hi|]. split.
  - intros prodSessionKey resp prodKeyExpiration now1 now2.
    destruct (cacheResponse_keeps_heap reqMgr prodSessionKey resp prodKeyExpiration
                now1 now2 Ho Hi) as (m & Hm & _).
    exists m. split; [exact Hm|].
    apply (reachable_sendRequest reqMgr m (Some exampleReq)
             (PendingRequest.mk exampleReq None "" prodSessionKey prodKeyExpiration)
             (Some resp) now1 now2 Hr).
    exact Hm.
  - intros reqSend sendReq doResult now1 now2. unfold sendRequest.
    destruct doResult as [resp|]; [|eauto].
    destruct (cacheResponse_keeps_heap reqMgr (PendingRequest.sessionKey sendReq) resp
                (PendingRequest.keyExpires sendReq) now1 now2 Ho Hi) as (m & -> & _).
    eauto.
Qed.

End Reachable.

(** After [Init], one request queued in the place of [examplePending] and
    taken by the forwarder, and the staging response cached for the key
    [PROD2]. *)
Lemma reachable_cacheResponse_returns_witness :
  exists reqMgr reqMgr',
    reachable (H := exampleLib) reqMgr /\
    tokensExpirationList reqMgr <> [] /\
    cacheResponse (H := exampleLib) reqMgr "PROD3" exampleResp 0 exampleNow exampleNow
      = Some reqMgr' /\
    heapOrdered (tokensExpirationList reqMgr).
Proof.
  pose (m0 := Init exampleMgrQueued 7 exampleNow).
  destruct (sendStaging m0 examplePendingLogin) as [m1 logged| |] eqn:Hs;
    [|vm_compute in Hs; discriminate|vm_compute in Hs; discriminate].
  destruct (StagingHandler_turn (H := exampleLib) m1) as [[[p r] m2]|] eqn:Ht;
    [|vm_compute in Hs; injection Hs as <- _; vm_compute in Ht; discriminate].
  destruct (sendRequest (H := exampleLib) m2 (Some exampleReq) examplePendingLogin
              (Some exampleResp) exampleNow exampleNow) as [m3|] eqn:Hq;
    [|vm_compute in Hs; injection Hs as <- _; vm_compute in Ht; injection Ht as _ _ <-;
      vm_compute in Hq; discriminate].
  assert (Hr : reachable (H := exampleLib) m3).
  { eapply reachable_sendRequest; [|exact Hq].
    eapply reachable_StagingHandler; [|exact Ht].
    eapply reachable_sendStaging; [|exact Hs].
    apply reachable_Init. }
  destruct (reachable_cacheResponse_returns (H := exampleLib) m3 Hr)
    as (Ho & _ & Hc & _).
  destruct (Hc "PROD3" exampleResp 0 exampleNow exampleNow) as (m4 & Hm4 & _).
  exists m3, m4. split; [exact Hr|]. split; [|split; [exact Hm4|exact Ho]].
  vm_compute in Hs. injection Hs as <- _. vm_compute in Ht. injection Ht as _ _ <-.
  vm_compute in Hq. injection Hq as <-. discriminate.
Defined.
